(** * Emojiton: the A* path planner of [script.js]

    A shallow embedding of the path-planning core of [src/script.js]:
    the [Grid] accessors, the main-thread [AStar] class ([neighbors],
    [heuristic], [passablePredicate], [getMoveCost], [findPath] with its
    path cache), the worker engine generated by [createAStarWorker], and
    the mask construction of [Game.findPath].

    Conventions of the embedding.
    - JavaScript numbers that hold coordinates, dimensions and flat
      indices are integers of [Z] (the safe-integer range is assumed, so
      no rounding or 32-bit wrap-around occurs on them).  The accumulated
      costs [g], [f] are IEEE binary64 values, modelled by Rocq's
      primitive [float], whose operations are those of JavaScript.
    - A read of a typed array or of an [Array] outside its range yields
      [undefined]: [lookupZ] returns [None]; in arithmetic and in [<]
      [undefined] behaves as [NaN] ([getF]).  A write outside the range
      of a typed array is ignored ([insertZ]).
    - Strings are the UTF-8 bytes of the literals of the source file
      (equality and sub-string search agree with those on UTF-16 for
      well-formed strings).
    - [while] loops take a fuel argument; [None] means that the fuel did
      not suffice.
    - Objects live in a store: each [{r, c}] object and each [Array] has
      an address, so that sharing between a returned path and the cache
      is visible.

    The second part of the file embeds what surrounds the planner: the
    commuter of [Game.simTick], the key buffer of the Konami code, and,
    in the module [Editor], the grid as the tools edit it with the log
    of actions and the generator behind undo, redo and the time-lapse.
    That part depends on how far the top level of the script ran
    ([Script]): line 600 ends it with a TypeError unless an [initMatrix]
    is found for [Renderer], and then [UI] and [Log] are never
    initialised; the calls that read them are modelled with the point
    where they throw ([Run]). *)

From Stdlib Require Import ZArith Floats Uint63 QArith Lia Bool Ascii DecimalString DecimalZ.
From stdpp Require Import list strings gmap.

#[local] Set Warnings "-inexact-float".
#[local] Open Scope Z_scope.

(** ** Arrays indexed by JavaScript integers *)

Definition lookupZ {A : Type} (l : list A) (i : Z) : option A :=
  if i <? 0 then None else l !! Z.to_nat i.

Definition insertZ {A : Type} (i : Z) (x : A) (l : list A) : list A :=
  if i <? 0 then l else <[Z.to_nat i := x]> l.

(** [a[i]] used as a number: [undefined] acts as [NaN]. *)
Definition getF (a : list float) (i : Z) : float :=
  default nan (lookupZ a i).

(** An integer-valued JavaScript number as a binary64 value. *)
Definition Z2F (z : Z) : float :=
  if z <? 0 then PrimFloat.opp (PrimFloat.of_uint63 (Uint63.of_Z (- z)))
  else PrimFloat.of_uint63 (Uint63.of_Z z).

(** ** Tiles *)

Module Tile.
Definition road : string := "üõ£Ô∏è".
Definition parking : string := "üÖøÔ∏è".
Definition evergreen : string := "üå≤".
Definition tree : string := "üå≥".
Definition crane : string := "üèóÔ∏è".
Definition factory : string := "üè≠".
Definition car : string := "üöó".
Definition saucer : string := "üõ∏".
Definition bike : string := "üö≤".
Definition house : string := "üè†".
End Tile.

(** [s.includes(pat)]; a regular expression [/A|B/] whose alternatives
    are literal strings tests [includes A s || includes B s]. *)
Fixpoint includes (pat s : string) : bool :=
  String.prefix pat s ||
  match s with
  | EmptyString => false
  | String _ s' => includes pat s'
  end.

(** ** Grid *)

Record Cell : Type := mkCell { cell_r : Z; cell_c : Z }.

#[global] Instance Cell_eq_dec : EqDecision Cell.
Proof. solve_decision. Defined.

Record Grid : Type := mkGrid { rows : Z; cols : Z; cells : list string }.

Module GridOps.
Definition index (gr : Grid) (r c : Z) : Z := r * cols gr + c.

(** [get(r,c)]: [None] is [undefined]. *)
Definition get (gr : Grid) (r c : Z) : option string :=
  lookupZ (cells gr) (index gr r c).
End GridOps.

(** [new Grid(rows, cols)] for dimensions that are not negative: every
    cell is the empty string. *)
Definition newGrid (r c : Z) : Grid :=
  mkGrid r c (replicate (Z.to_nat (r * c)) EmptyString).

Definition inBounds (gr : Grid) (p : Cell) : Prop :=
  0 <= cell_r p < rows gr /\ 0 <= cell_c p < cols gr.

(** ** The store of objects *)

(** Addresses of [{r, c}] objects and of arrays. *)
Abbreviation ref := nat (only parsing).
Abbreviation aref := nat (only parsing).

Record Heap : Type := mkHeap {
  objs : list Cell;          (* the [{r, c}] objects *)
  arrs : list (list ref)     (* the [Array] objects, holding references *)
}.

Definition emptyHeap : Heap := mkHeap [] [].

Definition alloc_obj (h : Heap) (c : Cell) : ref * Heap :=
  (length (objs h), mkHeap (objs h ++ [c]) (arrs h)).

Definition alloc_arr (h : Heap) (l : list ref) : aref * Heap :=
  (length (arrs h), mkHeap (objs h) (arrs h ++ [l])).

(** The value of an array of cells: the coordinates it holds now. *)
Definition read_refs (h : Heap) (l : list ref) : option (list Cell) :=
  mapM (fun o => objs h !! o) l.

Definition read_path (h : Heap) (p : aref) : option (list Cell) :=
  arrs h !! p ≫= read_refs h.

(** ** AStar (main thread) *)

Record AStar : Type := mkAStar {
  grid : Grid;
  cache : gmap string aref;
  diagonal : bool
}.

(** [new AStar(grid)] *)
Definition newAStar (gr : Grid) : AStar := mkAStar gr ∅ true.

Definition dirs8 : list (Z * Z) :=
  [(1,0); (-1,0); (0,1); (0,-1); (1,1); (1,-1); (-1,1); (-1,-1)].
Definition dirs4 : list (Z * Z) :=
  [(1,0); (-1,0); (0,1); (0,-1)].

Definition neighbors (a : AStar) (r c : Z) : list Cell :=
  let dirs := if diagonal a then dirs8 else dirs4 in
  omap (fun d : Z * Z =>
          let nr := r + fst d in
          let nc := c + snd d in
          if (nr >=? 0) && (nc >=? 0) && (nr <? rows (grid a)) && (nc <? cols (grid a))
          then Some (mkCell nr nc) else None) dirs.

Definition heuristic (a : AStar) (p q : Cell) : Z :=
  if diagonal a then
    let dx := Z.abs (cell_r p - cell_r q) in
    let dy := Z.abs (cell_c p - cell_c q) in
    Z.max dx dy
  else Z.abs (cell_r p - cell_r q) + Z.abs (cell_c p - cell_c q).

(** The third argument of [findPath]: absent, a function, or an array
    of numbers (a [Uint8Array]). *)
Inductive Mask : Type :=
| MaskNone
| MaskFn (p : Cell -> bool)
| MaskArr (m : list Z).

Definition passablePredicate (a : AStar) (mask : Mask) : Cell -> bool :=
  match mask with
  | MaskNone => fun _ => true
  | MaskFn p => p
  | MaskArr m =>
      fun p => match lookupZ m (cell_r p * cols (grid a) + cell_c p) with
               | Some v => negb (v =? 0)
               | None => false
               end
  end.

Definition isDiagonalStep (r1 c1 r2 c2 : Z) : bool :=
  negb (r1 =? r2) && negb (c1 =? c2).

Definition terrainMult (tile : string) : float :=
  let mult := 1%float in
  let mult := if String.eqb tile Tile.road || String.eqb tile Tile.parking
              then 0.7%float else mult in
  let mult := if String.eqb tile Tile.evergreen || String.eqb tile Tile.tree
              then 1.15%float else mult in
  let mult := if String.eqb tile Tile.crane || String.eqb tile Tile.factory
              then 1.3%float else mult in
  let mult := if includes Tile.car tile || includes Tile.saucer tile
              then 1.2%float else mult in
  mult.

Definition getMoveCost (a : AStar) (r1 c1 r2 c2 : Z) : float :=
  let base := if isDiagonalStep r1 c1 r2 c2 then 1.414%float else 1.0%float in
  let tile := default EmptyString (GridOps.get (grid a) r2 c2) in
  (base * terrainMult tile)%float.

(** ** The search state of one [findPath] call *)

Record Search : Type := mkSearch {
  g : list float;        (* Float64Array *)
  f : list float;        (* Float64Array *)
  open : list Z;         (* Set, in insertion order *)
  cameFrom : list Z      (* Int32Array *)
}.

(** [open.add(k)] and [open.delete(k)] on a [Set] kept in insertion order. *)
Definition setAdd (k : Z) (s : list Z) : list Z :=
  if bool_decide (k ∈ s) then s else s ++ [k].

Definition setDelete (k : Z) (s : list Z) : list Z :=
  filter (fun x => x ≠ k) s.

(** [let current=-1, min=Infinity;
     for(const k of open){ if(f[k] < min){ min=f[k]; current=k; } }] *)
Definition pickStep (fa : list float) (acc : Z * float) (k : Z) : Z * float :=
  if PrimFloat.ltb (getF fa k) (snd acc) then (k, getF fa k) else acc.

Definition pickLowest (fa : list float) (op : list Z) : Z :=
  fst (fold_left (pickStep fa) op (-1, infinity)).

Definition idx (a : AStar) (p : Cell) : Z :=
  cell_r p * cols (grid a) + cell_c p.

(** The cell written for a flat index [k]:
    [{r: Math.floor(k/cols), c: k%cols}]. *)
Definition cellOf (a : AStar) (k : Z) : Cell :=
  mkCell (k / cols (grid a)) (Z.rem k (cols (grid a))).

(** The body of the loop over the neighbours of [current]. *)
Definition relax (a : AStar) (passable : Cell -> bool) (goal : Cell)
    (current cr cc : Z) (st : Search) (n : Cell) : Search :=
  if negb (passable n) then st
  else
    let ni := idx a n in
    let cost := (getF (g st) current + getMoveCost a cr cc (cell_r n) (cell_c n))%float in
    if PrimFloat.ltb cost (getF (g st) ni) then
      mkSearch (insertZ ni cost (g st))
               (insertZ ni (cost + Z2F (heuristic a n goal))%float (f st))
               (setAdd ni (open st))
               (insertZ ni current (cameFrom st))
    else st.

Definition expand (a : AStar) (passable : Cell -> bool) (goal : Cell)
    (current : Z) (st : Search) : Search :=
  let cr := current / cols (grid a) in
  let cc := Z.rem current (cols (grid a)) in
  fold_left (relax a passable goal current cr cc) (neighbors a cr cc) st.

Inductive Exit : Type := GoalReached | FrontierEmpty.

(** [while(open.size){ ... }] *)
Fixpoint searchLoop (a : AStar) (passable : Cell -> bool) (goal : Cell)
    (goalIdx : Z) (fuel : nat) (st : Search) : option (Exit * Search) :=
  match fuel with
  | O => None
  | S fuel' =>
      match open st with
      | [] => Some (FrontierEmpty, st)
      | _ :: _ =>
          let current := pickLowest (f st) (open st) in
          if current =? goalIdx then Some (GoalReached, st)
          else
            let st' := mkSearch (g st) (f st) (setDelete current (open st)) (cameFrom st) in
            searchLoop a passable goal goalIdx fuel' (expand a passable goal current st')
      end
  end.

(** The state before the loop. *)
Definition initSearch (a : AStar) (start goal : Cell) : Search :=
  let size := Z.to_nat (rows (grid a) * cols (grid a)) in
  let startIdx := idx a start in
  mkSearch (insertZ startIdx 0%float (replicate size infinity))
           (insertZ startIdx (Z2F (heuristic a start goal)) (replicate size infinity))
           [startIdx]
           (replicate size (-1)).

(** [while(cur !== -1){ path.unshift({r:..., c:...}); cur = cameFrom[cur]; }]
    When [cameFrom[cur]] is [undefined], [cur] stays [undefined] and the
    loop never exits. *)
Fixpoint reconstruct (a : AStar) (came : list Z) (fuel : nat) (cur : Z)
    (path : list ref) (h : Heap) : option (list ref * Heap) :=
  match fuel with
  | O => None
  | S fuel' =>
      if cur =? -1 then Some (path, h)
      else
        let '(o, h') := alloc_obj h (cellOf a cur) in
        match lookupZ came cur with
        | Some nxt => reconstruct a came fuel' nxt (o :: path) h'
        | None => None
        end
  end.

(** What a call yields: a [RangeError] (from [new Float64Array(size)] with
    a negative [size]), or a returned value, [None] being [null]. *)
Inductive Outcome (P : Type) : Type :=
| RangeError
| Return (p : option P).
Arguments RangeError {P}.
Arguments Return {P} p.

Definition showZ (z : Z) : string :=
  NilZero.string_of_int (Z.to_int z).

(** [`${start.r},${start.c}|${goal.r},${goal.c}|${rows}x${cols}`] *)
Definition cacheKey (a : AStar) (start goal : Cell) : string :=
  showZ (cell_r start) +:+ "," +:+ showZ (cell_c start) +:+ "|" +:+
  showZ (cell_r goal) +:+ "," +:+ showZ (cell_c goal) +:+ "|" +:+
  showZ (rows (grid a)) +:+ "x" +:+ showZ (cols (grid a)).

(** [if(path.length < 512) this.cache.set(key, path.slice()); return path;]
    where [path] is the array built by [reconstruct]. *)
Definition cacheAndReturn (a : AStar) (key : string) (path : list ref) (h1 : Heap)
    : Outcome aref * AStar * Heap :=
  let '(p, h2) := alloc_arr h1 path in
  if (Z.of_nat (length path) <? 512) then
    let '(c, h3) := alloc_arr h2 path in
    (Return (Some p), mkAStar (grid a) (<[key := c]> (cache a)) (diagonal a), h3)
  else (Return (Some p), a, h2).

Definition findPath (a : AStar) (h : Heap) (start goal : Cell) (maskOrFn : Mask)
    (fuel : nat) : option (Outcome aref * AStar * Heap) :=
  let key := cacheKey a start goal in
  match cache a !! key with
  | Some c =>
      (* return this.cache.get(key).slice() *)
      match arrs h !! c with
      | Some l => let '(p, h') := alloc_arr h l in Some (Return (Some p), a, h')
      | None => None
      end
  | None =>
      let passable := passablePredicate a maskOrFn in
      let size := rows (grid a) * cols (grid a) in
      if size <? 0 then Some (RangeError, a, h)
      else
        let goalIdx := idx a goal in
        match searchLoop a passable goal goalIdx fuel (initSearch a start goal) with
        | None => None
        | Some (_, st) =>
            match lookupZ (cameFrom st) goalIdx with
            | Some (-1) => Some (Return None, a, h)
            | _ =>
                match reconstruct a (cameFrom st) fuel goalIdx [] h with
                | None => None
                | Some (path, h1) => Some (cacheAndReturn a key path h1)
                end
            end
        end
  end.

(** ** The worker engine of [createAStarWorker] *)

Module Worker.

(** The [find] message: [{cmd:'find', start, goal, rows, cols, passable}]. *)
Record Msg : Type := mkMsg {
  m_rows : Z;
  m_cols : Z;
  m_start : Cell;
  m_goal : Cell;
  m_passable : list Z      (* a plain array of 0/1 *)
}.

Record State : Type := mkState {
  g : list float;          (* Float64Array *)
  f : list float;          (* Float64Array *)
  came : list Z;           (* Int32Array *)
  open : list Z;           (* Uint8Array, membership *)
  heap : list Z            (* array of indices *)
}.

Definition idx (cols r c : Z) : Z := r * cols + c.

Definition h (p q : Cell) : Z :=
  let dx := Z.abs (cell_r p - cell_r q) in
  let dy := Z.abs (cell_c p - cell_c q) in
  Z.max dx dy.

(** The estimate added to [tentative] in the loop:
    [Math.abs(nr - goal.r) + Math.abs(nc - goal.c)]. *)
Definition loopEstimate (n goal : Cell) : Z :=
  Z.abs (cell_r n - cell_r goal) + Z.abs (cell_c n - cell_c goal).

(** [heap[i]]; the code only reads positions below [heap.length]. *)
Definition heapAt (hp : list Z) (i : nat) : Z := default (-1) (hp !! i).

Definition swap (hp : list Z) (i j : nat) : list Z :=
  <[j := heapAt hp i]> (<[i := heapAt hp j]> hp).

(** [siftUp(i)]: [i] decreases at each turn, so [i] turns suffice. *)
Fixpoint siftUp (fa : list float) (fuel : nat) (i : nat) (hp : list Z) : list Z :=
  match fuel with
  | O => hp
  | S fuel' =>
      if (0 <? i)%nat then
        let p := ((i - 1) / 2)%nat in
        if PrimFloat.ltb (getF fa (heapAt hp i)) (getF fa (heapAt hp p))
        then siftUp fa fuel' p (swap hp i p)
        else hp
      else hp
  end.

(** [siftDown(i)]: [i] increases at each turn and stays below [heap.length]. *)
Fixpoint siftDown (fa : list float) (fuel : nat) (i : nat) (hp : list Z) : list Z :=
  match fuel with
  | O => hp
  | S fuel' =>
      let n := length hp in
      let l := (2 * i + 1)%nat in
      let r := (2 * i + 2)%nat in
      let smallest := i in
      let smallest :=
        if (l <? n)%nat && PrimFloat.ltb (getF fa (heapAt hp l)) (getF fa (heapAt hp smallest))
        then l else smallest in
      let smallest :=
        if (r <? n)%nat && PrimFloat.ltb (getF fa (heapAt hp r)) (getF fa (heapAt hp smallest))
        then r else smallest in
      if negb (smallest =? i)%nat then siftDown fa fuel' smallest (swap hp i smallest)
      else hp
  end.

Definition heapPush (fa : list float) (k : Z) (hp : list Z) : list Z :=
  let hp' := hp ++ [k] in
  siftUp fa (length hp') (length hp' - 1)%nat hp'.

(** [heapPop()]: the index removed and the remaining heap. *)
Definition heapPop (fa : list float) (hp : list Z) : Z * list Z :=
  match hp with
  | [] => (-1, [])
  | top :: _ =>
      let last := heapAt hp (length hp - 1) in
      let hp' := take (length hp - 1) hp in
      match hp' with
      | [] => (top, hp')
      | _ :: _ => (top, siftDown fa (length hp') 0 (<[0%nat := last]> hp'))
      end
  end.

Definition relax (m : Msg) (current cr cc : Z) (st : State) (d : Z * Z) : State :=
  let nr := cr + fst d in
  let nc := cc + snd d in
  if (nr <? 0) || (nc <? 0) || (nr >=? m_rows m) || (nc >=? m_cols m) then st
  else
    let ni := idx (m_cols m) nr nc in
    match lookupZ (m_passable m) ni with
    | None | Some 0 => st
    | Some _ =>
        let base := if negb (fst d =? 0) && negb (snd d =? 0)
                    then 1.414%float else 1.0%float in
        let tentative := (getF (g st) current + base)%float in
        if PrimFloat.ltb tentative (getF (g st) ni) then
          let g' := insertZ ni tentative (g st) in
          let f' := insertZ ni
                      (tentative + Z2F (Z.abs (nr - cell_r (m_goal m)))
                                 + Z2F (Z.abs (nc - cell_c (m_goal m))))%float (f st) in
          let came' := insertZ ni current (came st) in
          match lookupZ (open st) ni with
          | None | Some 0 =>
              mkState g' f' came' (insertZ ni 1 (open st)) (heapPush f' ni (heap st))
          | Some _ => mkState g' f' came' (open st) (heap st)
          end
        else st
    end.

(** [while(heap.length){ ... }] *)
Fixpoint searchLoop (m : Msg) (goalIdx : Z) (fuel : nat) (st : State)
    : option (Exit * State) :=
  match fuel with
  | O => None
  | S fuel' =>
      match heap st with
      | [] => Some (FrontierEmpty, st)
      | _ :: _ =>
          let '(current, hp') := heapPop (f st) (heap st) in
          let st1 := mkState (g st) (f st) (came st) (open st) hp' in
          if current =? goalIdx then Some (GoalReached, st1)
          else
            let cr := Z.quot current (m_cols m) in
            let cc := Z.rem current (m_cols m) in
            searchLoop m goalIdx fuel'
              (fold_left (relax m current cr cc) dirs8 st1)
      end
  end.

Definition initState (m : Msg) : State :=
  let size := Z.to_nat (m_rows m * m_cols m) in
  let startIdx := idx (m_cols m) (cell_r (m_start m)) (cell_c (m_start m)) in
  let f0 := insertZ startIdx (Z2F (h (m_start m) (m_goal m))) (replicate size infinity) in
  mkState (insertZ startIdx 0%float (replicate size infinity))
          f0
          (replicate size (-1))
          (insertZ startIdx 1 (replicate size 0))
          (heapPush f0 startIdx []).

(** [while(k !== -1){ path.unshift({r:(k/cols)|0, c:k%cols}); k = came[k]; }] *)
Fixpoint rebuild (cols : Z) (cm : list Z) (fuel : nat) (k : Z) (path : list Cell)
    : option (list Cell) :=
  match fuel with
  | O => None
  | S fuel' =>
      if k =? -1 then Some path
      else
        match lookupZ cm k with
        | Some nxt => rebuild cols cm fuel' nxt (mkCell (Z.quot k cols) (Z.rem k cols) :: path)
        | None => None
        end
  end.

(** The handler of a [find] message; the value is the [path] of the
    posted [result] message. *)
Definition onmessage (m : Msg) (fuel : nat) : option (Outcome (list Cell)) :=
  let size := m_rows m * m_cols m in
  if size <? 0 then Some RangeError
  else
    let goalIdx := idx (m_cols m) (cell_r (m_goal m)) (cell_c (m_goal m)) in
    match searchLoop m goalIdx fuel (initState m) with
    | None => None
    | Some (_, st) =>
        match lookupZ (came st) goalIdx with
        | Some (-1) => Some (Return None)
        | _ =>
            match rebuild (m_cols m) (came st) fuel goalIdx [] with
            | None => None
            | Some path => Some (Return (Some path))
            end
        end
    end.

End Worker.

(** ** [Game.findPath]: the mask and the choice of the engine *)

Definition tilePassable (tile : option string) : bool :=
  match tile with
  | None => true
  | Some t =>
      String.eqb t EmptyString || String.eqb t Tile.road ||
      (includes Tile.car t || includes Tile.bike t || includes Tile.saucer t)
  end.

Definition seqZ0 (n : Z) : list Z := map Z.of_nat (seq 0 (Z.to_nat n)).

Definition buildMask (gr : Grid) : list Z :=
  fold_left
    (fun mask r =>
       fold_left
         (fun mask c =>
            insertZ (r * cols gr + c)
                    (if tilePassable (GridOps.get gr r c) then 1 else 0) mask)
         (seqZ0 (cols gr)) mask)
    (seqZ0 (rows gr))
    (replicate (Z.to_nat (rows gr * cols gr)) 0).

(** The path value a caller of [Game.findPath] receives, by engine. *)
Definition Game_findPath_worker (gr : Grid) (start goal : Cell) (fuel : nat)
    : option (Outcome (list Cell)) :=
  if rows gr * cols gr <? 0 then Some RangeError
  else Worker.onmessage (Worker.mkMsg (rows gr) (cols gr) start goal (buildMask gr)) fuel.

Definition Game_findPath_sync (a : AStar) (h : Heap) (start goal : Cell) (fuel : nat)
    : option (Outcome aref * AStar * Heap) :=
  if rows (grid a) * cols (grid a) <? 0 then Some (RangeError, a, h)
  else findPath a h start goal (MaskArr (buildMask (grid a))) fuel.

(** ** Cost of a path, as each engine accumulates it *)

Fixpoint costFrom (step : Cell -> Cell -> float) (acc : float) (p : Cell)
    (rest : list Cell) : float :=
  match rest with
  | [] => acc
  | q :: rest' => costFrom step (acc + step p q)%float q rest'
  end.

Definition pathCostWith (step : Cell -> Cell -> float) (path : list Cell) : float :=
  match path with
  | [] => 0%float
  | p :: rest => costFrom step 0%float p rest
  end.

Definition syncStep (a : AStar) (p q : Cell) : float :=
  getMoveCost a (cell_r p) (cell_c p) (cell_r q) (cell_c q).

Definition workerStep (p q : Cell) : float :=
  if negb (cell_r q - cell_r p =? 0) && negb (cell_c q - cell_c p =? 0)
  then 1.414%float else 1.0%float.

(** ** Properties named by the specification *)

(** Terrain categories of the cost model. *)
Definition roadLike (t : string) : Prop := t = Tile.road \/ t = Tile.parking.
Definition vegetation (t : string) : Prop := t = Tile.evergreen \/ t = Tile.tree.
Definition heavyBuilding (t : string) : Prop := t = Tile.crane \/ t = Tile.factory.
Definition vehicleOccupied (t : string) : Prop :=
  includes Tile.car t = true \/ includes Tile.saucer t = true.

(** The multiplier table of the specification, as a relation: a tile in
    two categories would have two multipliers. *)
Inductive MultiplierOf (t : string) : float -> Prop :=
| mult_road : roadLike t -> MultiplierOf t 0.7%float
| mult_vegetation : vegetation t -> MultiplierOf t 1.15%float
| mult_heavy : heavyBuilding t -> MultiplierOf t 1.3%float
| mult_vehicle : vehicleOccupied t -> MultiplierOf t 1.2%float
| mult_other :
    ~ roadLike t -> ~ vegetation t -> ~ heavyBuilding t -> ~ vehicleOccupied t ->
    MultiplierOf t 1.0%float.

(** Base cost of the specification: 1.0 when the step shares its row or
    its column, 1.414 when both change. *)
Definition baseOf (r1 c1 r2 c2 : Z) : float :=
  if decide (r1 = r2 \/ c1 = c2) then 1.0%float else 1.414%float.

Definition isFinite (x : float) : bool :=
  PrimFloat.ltb (PrimFloat.abs x) infinity.

(** The terrain at the destination of a step ([undefined] reads as empty). *)
Definition tileAt (a : AStar) (r c : Z) : string :=
  default EmptyString (GridOps.get (grid a) r c).

(** One move of a path: at most one row and one column away, and not
    the same cell. *)
Definition kingStep (p q : Cell) : Prop :=
  Z.abs (cell_r p - cell_r q) <= 1 /\ Z.abs (cell_c p - cell_c q) <= 1 /\ p <> q.

Definition consecutive (R : Cell -> Cell -> Prop) (path : list Cell) : Prop :=
  forall (i : nat) (p q : Cell), path !! i = Some p -> path !! S i = Some q -> R p q.

Record validPath (gr : Grid) (passable : Cell -> bool) (start goal : Cell)
    (path : list Cell) : Prop := mkValidPath {
  vp_head : head path = Some start;
  vp_last : last path = Some goal;
  vp_bounds : Forall (inBounds gr) path;
  vp_steps : consecutive kingStep path;
  vp_passable : Forall (fun q => passable q = true) (tail path)
}.

(** ** Invariants of the main-thread search *)

(** A flat index is rooted when it is the start or has a predecessor. *)
Definition rooted (startIdx : Z) (came : list Z) (k : Z) : Prop :=
  k = startIdx \/ exists m : Z, lookupZ came k = Some m /\ m <> -1.

Record SearchInv (a : AStar) (passable : Cell -> bool) (startIdx : Z)
    (st : Search) : Prop := mkSearchInv {
  inv_len : length (cameFrom st) = Z.to_nat (rows (grid a) * cols (grid a));
  inv_came :
    forall n m : Z, lookupZ (cameFrom st) n = Some m -> m <> -1 ->
      rooted startIdx (cameFrom st) m /\
      inBounds (grid a) (cellOf a n) /\
      passable (cellOf a n) = true /\
      kingStep (cellOf a m) (cellOf a n);
  inv_open :
    forall k : Z, k ∈ open st -> rooted startIdx (cameFrom st) k /\ 0 <= k
}.

(** The cells met when following [cameFrom] from an index back to the
    start, in that order. *)
Inductive Trail (a : AStar) (startIdx : Z) (came : list Z) : Z -> list Cell -> Prop :=
| Trail_root :
    lookupZ came startIdx = Some (-1) ->
    Trail a startIdx came startIdx [cellOf a startIdx]
| Trail_step (n m : Z) (l : list Cell) :
    lookupZ came n = Some m -> m <> -1 ->
    Trail a startIdx came m l ->
    Trail a startIdx came n (cellOf a n :: l).

(** The goal is in the frontier as soon as it has a predecessor. *)
Definition goalPending (goalIdx : Z) (st : Search) : Prop :=
  forall m : Z, lookupZ (cameFrom st) goalIdx = Some m -> m <> -1 -> goalIdx ∈ open st.

(** ** Claims of the specification that the code does not meet *)

(** "A query whose start or goal lies outside the grid is rejected": in
    the embedding the only rejection is the [RangeError]. *)
Definition rejectsOutOfBounds : Prop :=
  forall (a a' : AStar) (h h' : Heap) (start goal : Cell) (mask : Mask) (fuel : nat)
         (out : Outcome aref),
    ~ inBounds (grid a) start \/ ~ inBounds (grid a) goal ->
    findPath a h start goal mask fuel = Some (out, a', h') ->
    out = RangeError.

(** ** Invariant of the worker loop *)

(** The goal is in the heap as soon as it has a predecessor or is flagged
    in [open]. *)
Record WorkerPending (goalIdx : Z) (st : Worker.State) : Prop := mkWorkerPending {
  wp_came :
    forall m : Z, lookupZ (Worker.came st) goalIdx = Some m -> m <> -1 ->
      goalIdx ∈ Worker.heap st;
  wp_open :
    forall v : Z, lookupZ (Worker.open st) goalIdx = Some v -> v <> 0 ->
      goalIdx ∈ Worker.heap st
}.

(** ** Concrete scenarios *)

(** A 1x3 corridor whose middle cell is blocked. *)
Definition walled : AStar := newAStar (newGrid 1 3).
Definition walled_mask : list Z := [1; 0; 1].
Definition walled_msg : Worker.Msg :=
  Worker.mkMsg 1 3 (mkCell 0 0) (mkCell 0 2) walled_mask.

Definition walled_final : Search :=
  match searchLoop walled (passablePredicate walled (MaskArr walled_mask))
          (mkCell 0 2) 2 10 (initSearch walled (mkCell 0 0) (mkCell 0 2)) with
  | Some (_, st) => st
  | None => initSearch walled (mkCell 0 0) (mkCell 0 2)
  end.

Definition walled_worker_final : Worker.State :=
  match Worker.searchLoop walled_msg 2 10 (Worker.initState walled_msg) with
  | Some (_, st) => st
  | None => Worker.initState walled_msg
  end.

(** A 1x520 corridor: the only path from one end to the other has 520 cells. *)
Definition corridor : AStar := newAStar (newGrid 1 520).
Definition corridor_run : option (Outcome aref * AStar * Heap) :=
  findPath corridor emptyHeap (mkCell 0 0) (mkCell 0 519) MaskNone 1000.
Definition corridor_engine : AStar :=
  match corridor_run with Some (_, a', _) => a' | None => corridor end.
Definition corridor_heap : Heap :=
  match corridor_run with Some (_, _, h') => h' | None => emptyHeap end.

(** ** Callers that mutate what they were given *)

(** The caller writes the fields of one coordinate object, as in
    [path[i].r = ...]. *)
Definition writeObj (h : Heap) (o : ref) (c : Cell) : Heap :=
  mkHeap (<[o := c]> (objs h)) (arrs h).

(** The caller changes arrays it holds ([push], [pop], [splice], [sort],
    assignment to an element) and may create objects and arrays: the
    coordinate objects that exist keep their fields, and the arrays held
    by the cache, to which no reference was handed out, keep their
    contents. *)
Definition arraysMutated (a : AStar) (h h' : Heap) : Prop :=
  objs h `prefix_of` objs h' /\
  (length (arrs h) <= length (arrs h'))%nat /\
  forall (k : string) (c : aref), cache a !! k = Some c -> arrs h' !! c = arrs h !! c.

(** Every array of the cache exists in the store. *)
Definition cacheWF (a : AStar) (h : Heap) : Prop :=
  forall (k : string) (c : aref), cache a !! k = Some c -> (c < length (arrs h))%nat.

(** The cache holds, under [key], an array whose value is [v]. *)
Definition cacheHolds (a : AStar) (h : Heap) (key : string) (v : list Cell) : Prop :=
  cacheWF a h /\
  exists (c : aref) (refs : list ref),
    cache a !! key = Some c /\ arrs h !! c = Some refs /\ read_refs h refs = Some v.

(** "Mutating a returned path, its coordinate elements included, does not
    change what a later cache hit returns." *)
Definition cacheHitsIgnoreMutation : Prop :=
  forall (a a1 a2 : AStar) (h h1 h2 : Heap) (start goal : Cell) (mask : Mask)
         (fuel : nat) (p p' : aref) (v : list Cell) (o : ref) (c : Cell),
    findPath a h start goal mask fuel = Some (Return (Some p), a1, h1) ->
    read_path h1 p = Some v ->
    (exists refs : list ref, arrs h1 !! p = Some refs /\ o ∈ refs) ->
    is_Some (cache a1 !! cacheKey a1 start goal) ->
    findPath a1 (writeObj h1 o c) start goal mask fuel = Some (Return (Some p'), a2, h2) ->
    read_path h2 p' = Some v.

(** What may happen between two calls: the caller mutates arrays, or
    calls [findPath] again, for any query. *)
Inductive Session : AStar * Heap -> AStar * Heap -> Prop :=
| Session_start (x : AStar * Heap) : Session x x
| Session_mutate (x : AStar * Heap) (a : AStar) (h h' : Heap) :
    Session x (a, h) -> arraysMutated a h h' -> Session x (a, h')
| Session_call (x : AStar * Heap) (a a' : AStar) (h h' : Heap) (s t : Cell)
    (mask : Mask) (fuel : nat) (out : Outcome aref) :
    Session x (a, h) ->
    findPath a h s t mask fuel = Some (out, a', h') ->
    Session x (a', h').

(** A 1x2 grid, the store after the first query from (0,0) to (0,1), and
    the engine with that query cached. *)
Definition pair_engine : AStar := newAStar (newGrid 1 2).
Definition pair_cached : AStar :=
  mkAStar (newGrid 1 2) {[ "0,0|0,1|1x2"%string := 1%nat ]} true.
Definition pair_heap : Heap :=
  mkHeap [mkCell 0 1; mkCell 0 0] [[1; 0]; [1; 0]]%nat.
(** The caller emptied the array it was given ([path.length = 0]). *)
Definition pair_heap_emptied : Heap :=
  mkHeap [mkCell 0 1; mkCell 0 0] [[]; [1; 0]]%nat.

(** ** Exact costs and admissibility *)

(** The rational number a finite binary64 value stands for. *)
Definition F2Q (x : float) : Q :=
  match Prim2SF x with
  | S754_finite s m e =>
      (inject_Z (if s then Z.neg m else Z.pos m) * Qpower (2 # 1) e)%Q
  | _ => 0%Q
  end.

(** The true cost of a path: the exact sum of the costs of its steps. *)
Fixpoint exactCostFrom (step : Cell -> Cell -> float) (p : Cell) (rest : list Cell) : Q :=
  match rest with
  | [] => 0%Q
  | q :: rest' => (F2Q (step p q) + exactCostFrom step q rest')%Q
  end.

Definition exactCost (step : Cell -> Cell -> float) (path : list Cell) : Q :=
  match path with
  | [] => 0%Q
  | p :: rest => exactCostFrom step p rest
  end.

(** A walk of the grid from [p] to [q]. *)
Definition walk (gr : Grid) (p q : Cell) (path : list Cell) : Prop :=
  head path = Some p /\ last path = Some q /\
  Forall (inBounds gr) path /\ consecutive kingStep path.

(** Every cell of the grid passes the mask of [Game.findPath]. *)
Definition fullyPassable (gr : Grid) : Prop :=
  Forall (fun v => v <> 0) (buildMask gr).

(** An estimate is admissible for a cost model on a grid when it is not
    negative and never exceeds the cost of a walk, hence not that of the
    cheapest one. *)
Definition admissible (gr : Grid) (est : Cell -> Cell -> Z)
    (step : Cell -> Cell -> float) : Prop :=
  forall (p q : Cell) (path : list Cell),
    walk gr p q path ->
    0 <= est p q /\ (inject_Z (est p q) <= exactCost step path)%Q.

(** "The estimate of each engine is admissible on a fully passable grid
    under the cost model of that engine." *)
Definition syncHeuristicAdmissible : Prop :=
  forall gr : Grid, fullyPassable gr ->
    admissible gr (heuristic (newAStar gr)) (syncStep (newAStar gr)).

Definition workerEstimateAdmissible : Prop :=
  forall gr : Grid, fullyPassable gr ->
    admissible gr Worker.loopEstimate workerStep.

Definition heuristicsAdmissible : Prop :=
  syncHeuristicAdmissible /\ workerEstimateAdmissible.

(** A road next to an empty cell, and an empty 2x2 grid. *)
Definition road_grid : Grid := mkGrid 1 2 [EmptyString; Tile.road].
Definition open_grid : Grid := newGrid 2 2.

(** The Chebyshev distance, the estimate of 8-directional movement. *)
Definition chebyshev (p q : Cell) : Z :=
  Z.max (Z.abs (cell_r p - cell_r q)) (Z.abs (cell_c p - cell_c q)).

(** ** Agreement of the two engines *)

Definition syncCost (gr : Grid) (path : list Cell) : float :=
  pathCostWith (syncStep (newAStar gr)) path.

Definition workerCost (gr : Grid) (path : list Cell) : float :=
  pathCostWith workerStep path.

(** Both engines are given the same grid, start and goal through
    [Game.findPath]; the cost of the path of the main thread is measured
    by [costSync], that of the worker by [costWorker]. *)
Definition enginesAgree (costSync costWorker : Grid -> list Cell -> float) : Prop :=
  forall (gr : Grid) (start goal : Cell) (fuel : nat) (p : aref) (a' : AStar)
         (h' : Heap) (ps pw : list Cell),
    Game_findPath_sync (newAStar gr) emptyHeap start goal fuel
    = Some (Return (Some p), a', h') ->
    read_path h' p = Some ps ->
    Game_findPath_worker gr start goal fuel = Some (Return (Some pw)) ->
    PrimFloat.eqb (costSync gr ps) (costWorker gr pw) = true.

(** "The engines return paths of identical total cost", whichever cost
    model measures the two paths. *)
Definition enginesReturnEqualCost : Prop :=
  enginesAgree syncCost syncCost \/
  enginesAgree workerCost workerCost \/
  enginesAgree syncCost workerCost.

(** A 3x4 grid, empty but for a house at (1,2). *)
Definition detour_grid : Grid :=
  mkGrid 3 4 [EmptyString; EmptyString; EmptyString; EmptyString;
              EmptyString; EmptyString; Tile.house; EmptyString;
              EmptyString; EmptyString; EmptyString; EmptyString].

Definition detour_sync_path : list Cell :=
  [mkCell 0 3; mkCell 0 2; mkCell 1 1; mkCell 2 0].
Definition detour_worker_path : list Cell :=
  [mkCell 0 3; mkCell 1 3; mkCell 2 2; mkCell 2 1; mkCell 2 0].

(** ** The cache and the mask *)

(** The characters of a rendered integer. *)
Definition isNumeralChar (c : Ascii.ascii) : bool :=
  match c with
  | "0"%char | "1"%char | "2"%char | "3"%char | "4"%char
  | "5"%char | "6"%char | "7"%char | "8"%char | "9"%char | "-"%char => true
  | _ => false
  end.

Fixpoint isNumeral (s : string) : bool :=
  match s with
  | EmptyString => true
  | String c s' => isNumeralChar c && isNumeral s'
  end.

(** * Further properties: definitions *)

(** The Manhattan distance, the estimate of 4-directional movement. *)
Definition manhattan (p q : Cell) : Z :=
  Z.abs (cell_r p - cell_r q) + Z.abs (cell_c p - cell_c q).


(** ** Progress of the worker loop *)

(** The cells of the grid not yet flagged in [open]. *)
Definition unflagged (op : list Z) : nat :=
  length (filter (fun v => v = 0) op).

(** What bounds the turns of the worker loop still to come: every entry
    of the heap is taken once, and only a cell not yet flagged enters
    the heap. *)
Definition workerMeasure (st : Worker.State) : nat :=
  (unflagged (Worker.open st) + length (Worker.heap st))%nat.

(** ** Invariant of the worker search *)

(** The cell the worker writes for a flat index [k]:
    [{r: (k/cols)|0, c: k%cols}]. *)
Definition workerCell (m : Worker.Msg) (k : Z) : Cell :=
  mkCell (Z.quot k (Worker.m_cols m)) (Z.rem k (Worker.m_cols m)).

(** [passable[idx(p.r, p.c)]] is truthy. *)
Definition workerPassable (m : Worker.Msg) (p : Cell) : bool :=
  match lookupZ (Worker.m_passable m)
          (Worker.idx (Worker.m_cols m) (cell_r p) (cell_c p)) with
  | Some v => negb (v =? 0)
  | None => false
  end.

(** The dimensions a message carries. *)
Definition msgGrid (m : Worker.Msg) : Grid :=
  mkGrid (Worker.m_rows m) (Worker.m_cols m) [].

Record WorkerInv (m : Worker.Msg) (startIdx : Z) (st : Worker.State) : Prop :=
  mkWorkerInv {
  winv_len : length (Worker.came st) = Z.to_nat (Worker.m_rows m * Worker.m_cols m);
  winv_came :
    forall n k : Z, lookupZ (Worker.came st) n = Some k -> k <> -1 ->
      rooted startIdx (Worker.came st) k /\
      inBounds (msgGrid m) (workerCell m n) /\
      workerPassable m (workerCell m n) = true /\
      kingStep (workerCell m k) (workerCell m n);
  winv_heap :
    forall k : Z, k ∈ Worker.heap st -> rooted startIdx (Worker.came st) k
}.

(** ** [Game.simTick]: a commuter between a house and a workplace *)

(** The alternatives of the two regular expressions of [simTick]. *)
Module SimTile.
Definition house : string := "üè†".
Definition garden_house : string := "üè°".
Definition houses : string := "üèòÔ∏è".
Definition office : string := "üè¢".
Definition department_store : string := "üè¨".
Definition convenience_store : string := "üè™".
Definition hospital : string := "üè•".
Definition school : string := "üè´".
End SimTile.

Definition isHouse (v : string) : bool :=
  includes SimTile.house v || includes SimTile.garden_house v ||
  includes SimTile.houses v.

Definition isWork (v : string) : bool :=
  includes SimTile.office v || includes SimTile.department_store v ||
  includes SimTile.convenience_store v || includes SimTile.hospital v ||
  includes SimTile.school v.

(** [for(r...) for(c...){ const v = this.grid.get(r,c) || '';
     if(test(v)) out.push({r,c}); }] *)
Definition scanCells (gr : Grid) (test : string -> bool) : list Cell :=
  r ← seqZ0 (rows gr);
  c ← seqZ0 (cols gr);
  if test (default EmptyString (GridOps.get gr r c)) then [mkCell r c] else [].

(** [list[Math.floor(Math.random()*list.length)]]: [Math.random()] lies
    in [0, 1), so the index is some position of the list; the draw [u]
    stands for it. *)
Definition pick (u : nat) (l : list Cell) : option Cell :=
  l !! (u mod length l)%nat.

(** The query [simTick] sends to [Game.findPath]; [None] when it returns
    before, for want of a house or of a workplace. *)
Definition simTick (gr : Grid) (u1 u2 : nat) : option (Cell * Cell) :=
  let houses := scanCells gr isHouse in
  let works := scanCells gr isWork in
  if bool_decide (houses = []) || bool_decide (works = []) then None
  else
    match pick u1 houses, pick u2 works with
    | Some s, Some d => Some (s, d)
    | _, _ => None
    end.

(** [if(path && path.length>1) Renderer.animateVehicle(path)] *)
Definition animates (path : option (list Cell)) : bool :=
  match path with
  | Some p => (1 <? length p)%nat
  | None => false
  end.

(** The tile shows no car, bike or saucer. *)
Definition vehicleFree (t : string) : Prop :=
  includes Tile.car t = false /\ includes Tile.bike t = false /\
  includes Tile.saucer t = false.

(** ** Blocked cells *)

(** Only passable cells are given a predecessor. *)
Definition predecessorsPassable (a : AStar) (passable : Cell -> bool) (st : Search) : Prop :=
  forall n k : Z, lookupZ (cameFrom st) n = Some k -> k <> -1 ->
    exists p : Cell, inBounds (grid a) p /\ n = idx a p /\ passable p = true.

(** A 2x3 town: a house, a road and an office on the first row. *)
Definition town : Grid :=
  mkGrid 2 3 [SimTile.house; Tile.road; SimTile.office;
              EmptyString; EmptyString; EmptyString].

(** ** Edits of the grid between two queries *)

(** The engine after the tiles of its grid were edited ([Grid.set],
    [Grid.fillAll]) and its [diagonal] flag possibly changed: the grid
    keeps its dimensions, the engine its cache. *)
Definition edited (a : AStar) (cells' : list string) (diag' : bool) : AStar :=
  mkAStar (mkGrid (rows (grid a)) (cols (grid a)) cells') (cache a) diag'.

(** A 1x3 lane, and the same lane with a house on its middle cell. *)
Definition lane : AStar := newAStar (newGrid 1 3).
Definition lane_run : option (Outcome aref * AStar * Heap) :=
  findPath lane emptyHeap (mkCell 0 0) (mkCell 0 2) MaskNone 10.
Definition lane_engine : AStar :=
  match lane_run with Some (_, a', _) => a' | None => lane end.
Definition lane_heap : Heap :=
  match lane_run with Some (_, _, h') => h' | None => emptyHeap end.
Definition lane_blocked : list string := [EmptyString; Tile.house; EmptyString].

(** ** The top level of the script *)

(** How far the top level of the script ran.  [Renderer.init()] at line
    600 calls [this.initMatrix()] (line 499); neither [Renderer] nor
    anything else in the script defines [initMatrix], so the call raises
    a TypeError, and the script ends at line 600, unless a property of
    that name is found on the prototype chain of [Renderer].  What line
    600 leaves undone when it ends the script: the constants [UI],
    [KONAMI], [keyBuf] and [Log] stay uninitialised (reading one raises a
    ReferenceError), and the listeners of lines 823 ([keydown]) and 953
    ([load], which is what calls [Game.init]) are not registered.  What
    comes before line 600 ([Grid], [AStar], [Game], [Renderer]) and the
    function declarations, which are hoisted, are there either way. *)
Inductive Script : Type :=
| StoppedAtInit     (* the TypeError of line 600 ended the script *)
| RanToEnd.         (* [initMatrix] was found: the script ran to its last line *)

(** The outcome of a call: it returned, or a ReferenceError stopped it
    at a use of [UI] or [Log]; either way, the state the call had
    written by then. *)
Inductive Run (A : Type) : Type :=
| Done (x : A)
| Threw (x : A).
Arguments Done {A} x.
Arguments Threw {A} x.

Definition reached {A : Type} (r : Run A) : A :=
  match r with Done x | Threw x => x end.

Definition returns {A : Type} (r : Run A) : bool :=
  match r with Done _ => true | Threw _ => false end.

(** A statement that reads [UI] or [Log]. *)
Definition useUI {A : Type} (s : Script) (x : A) : Run A :=
  match s with RanToEnd => Done x | StoppedAtInit => Threw x end.

(** What follows a call runs only if the call returned. *)
Definition andThen {A : Type} (r : Run A) (k : A -> Run A) : Run A :=
  match r with Done x => k x | Threw x => Threw x end.

(** ** The Konami code *)







(** * The editor: the grid as it is edited, the log of actions, undo and redo

    The part of [Grid] and [Game] that edits the grid.  The grid object
    is mutated in place and [Game.aStar] holds the same object; the DOM
    mirror of the cells ([container.children[i].value]), the counters
    shown by [updateStats] and [UI.refreshAll], the sounds and the log
    panel are output only: of them the model keeps that they read [UI]
    or [Log], which raises a ReferenceError when the script stopped at
    line 600.  The elements of the page that the script looks up by id
    are taken to exist.  Of an action object the fields [t] and [prev]
    are recorded and never read; they are left out.  Tile values are
    strings ([None] is [undefined]). *)

Module Editor.

(** ** JavaScript arrays of strings *)

(** An [Array]: its [length] and its own properties with an integer key.
    The keys in [0, length) are its elements (a key that is missing there
    is a hole); a key outside is a plain property, which [length],
    [slice] and the loops over the elements ignore. *)
Record JsArray : Type := mkJsArray {
  arr_length : Z;
  arr_props : gmap Z string
}.

(** [a[i]] *)
Definition arr_get (a : JsArray) (i : Z) : option string := arr_props a !! i.

(** [a[i] = v]: an array index (an integer of [0, 2^32 - 1)) at or beyond
    [length] extends the array; any other key sets a plain property. *)
Definition arr_set (a : JsArray) (i : Z) (v : string) : JsArray :=
  mkJsArray
    (if (0 <=? i) && (i <? 4294967295) && (arr_length a <=? i)
     then i + 1 else arr_length a)
    (<[i := v]> (arr_props a)).

(** [a[i] = v] where [v] may be [undefined].  An element that holds
    [undefined] reads, copies and counts as a hole does in all that the
    program does with the array, so it is kept as a hole. *)
Definition arr_put (a : JsArray) (i : Z) (v : option string) : JsArray :=
  match v with
  | Some s => arr_set a i s
  | None =>
      mkJsArray
        (if (0 <=? i) && (i <? 4294967295) && (arr_length a <=? i)
         then i + 1 else arr_length a)
        (delete i (arr_props a))
  end.

(** [a.slice()]: the elements, holes included; plain properties are not
    copied. *)
Definition arr_slice (a : JsArray) : JsArray :=
  mkJsArray (arr_length a)
    (filter (fun kv : Z * string => 0 <= kv.1 < arr_length a) (arr_props a)).

(** [for(let i=0;i<a.length;i++) a[i] = v], also [a.fill(v)]: the
    assignments are below [length] and leave it as it is. *)
Definition arr_fill (a : JsArray) (v : string) : JsArray :=
  fold_left (fun a i => arr_set a i v) (seqZ0 (arr_length a)) a.

(** [a.filter(Boolean).length]: the elements that are not empty. *)
Definition arr_truthy (a : JsArray) : nat :=
  length (filter (fun i => default EmptyString (arr_get a i) <> EmptyString)
            (seqZ0 (arr_length a))).

(** ** Grid *)

Record Grid : Type := mkGrid { rows : Z; cols : Z; cells : JsArray }.

(** [val || ''] *)
Definition orEmpty (val : option string) : string := default EmptyString val.

(** [new Grid(rows, cols)]: [new Array(rows * cols)] raises a
    [RangeError] ([None]) unless the product is an integer of
    [0, 2^32). *)
Definition newGrid (r c : Z) : option Grid :=
  if (0 <=? r * c) && (r * c <? 4294967296)
  then Some (mkGrid r c (arr_fill (mkJsArray (r * c) ∅) EmptyString))
  else None.

Definition index (gd : Grid) (r c : Z) : Z := r * cols gd + c.

Definition get (gd : Grid) (r c : Z) : option string :=
  arr_get (cells gd) (index gd r c).

Definition set (gd : Grid) (r c : Z) (val : option string) : Grid :=
  mkGrid (rows gd) (cols gd) (arr_set (cells gd) (index gd r c) (orEmpty val)).

(** [updates]: the objects [{r, c, val}]. *)
Definition multiSet (gd : Grid) (updates : list (Z * Z * option string)) : Grid :=
  fold_left (fun gd u => set gd u.1.1 u.1.2 u.2) updates gd.

Definition fillAll (gd : Grid) (val : option string) : Grid :=
  mkGrid (rows gd) (cols gd) (arr_fill (cells gd) (orEmpty val)).

Definition clear (gd : Grid) : Grid := fillAll gd (Some EmptyString).

(** The object [{rows, cols, cells}] that [toJSON] returns and
    [loadJSON] reads has the shape of a grid. *)
Definition toJSON (gd : Grid) : Grid :=
  mkGrid (rows gd) (cols gd) (arr_slice (cells gd)).

Definition loadJSON (gd : Grid) (obj : Grid) : Grid :=
  mkGrid (rows obj) (cols obj) (arr_slice (cells obj)).

(** The number [updateStats] shows. *)
Definition filled (gd : Grid) : nat := arr_truthy (cells gd).

(** [updateStats()] is [UI.updateFilled(...)].  It is the last statement
    of [set] (unless silent), [multiSet], [fillAll], [clear] and
    [loadJSON]: by then these have written what the functions above
    give, whether or not [updateStats] returns. *)
Definition updateStats (s : Script) (gd : Grid) : Run Grid := useUI s gd.

(** ** Game: the log of actions and the generator behind undo and redo *)

Inductive Action : Type :=
| AInit (snapshot : option Grid)                    (* {type:'init', snapshot} *)
| ASet (r c : Z) (next : option string)             (* {type:'set', r, c, next} *)
| AFill (next : option string)                      (* {type:'fill', next} *)
| AMulti (items : list (Z * Z * option string))     (* {type:'multi', items} *)
| ASetLevel.                                        (* {type:'setlevel', level} *)

(** Where the generator of [_actionGenerator] is suspended, with its
    local [idx]; a generator whose body threw has ended, and [next] on
    it does nothing. *)
Inductive Gen : Type :=
| NotStarted
| AtFirstYield (idx : Z)       (* at [const cmd = yield idx] *)
| AtSecondYield (idx : Z)      (* at the [yield idx] that ends a turn *)
| Finished.

(** The argument of [next]: nothing, [{type:'undo'}] or [{type:'redo'}]. *)
Inductive Cmd : Type := NoCmd | UndoCmd | RedoCmd.

Record Game : Type := mkGame {
  grid : Grid;
  actions : list Action;
  actionIndex : Z;
  actionGen : option Gen
}.

(** The game with the grid as a call left it. *)
Definition withGrid (gm : Game) (r : Run Grid) : Run Game :=
  match r with
  | Done gd => Done (mkGame gd (actions gm) (actionIndex gm) (actionGen gm))
  | Threw gd => Threw (mkGame gd (actions gm) (actionIndex gm) (actionGen gm))
  end.

(** The object [Game] as line 346 declares it:
    [actions: [], actionIndex: 0, actionGen: null]. *)
Definition declared (gd : Grid) : Game := mkGame gd [] 0 None.

Definition recordAction (gm : Game) (action : Action) : Game :=
  let actions := actions gm ++ [action] in
  mkGame (grid gm) actions (Z.of_nat (length actions)) (Some NotStarted).

Definition isInit (a : Action) : bool :=
  match a with AInit _ => true | _ => false end.

(** What the replay of one action writes into the grid. *)
Definition applyAction (gd : Grid) (a : Action) : Grid :=
  match a with
  | ASet r c next => set gd r c next
  | AFill next => fillAll gd next
  | AMulti items => multiSet gd items
  | AInit _ | ASetLevel => gd
  end.

(** One action of the replay:
    [if(a.type === 'set') this.grid.set(a.r, a.c, a.next, true);
     if(a.type === 'fill') this.grid.fillAll(a.next);
     if(a.type === 'multi') this.grid.multiSet(a.items);]
    The [set] is silent; [fillAll] and [multiSet] end with
    [updateStats()]. *)
Definition replayAction (s : Script) (gd : Grid) (a : Action) : Run Grid :=
  match a with
  | ASet r c next => Done (set gd r c next)
  | AFill next => updateStats s (fillAll gd next)
  | AMulti items => updateStats s (multiSet gd items)
  | AInit _ | ASetLevel => Done gd
  end.

(** The actions one after the other, up to the first that throws. *)
Fixpoint replayAll (s : Script) (l : list Action) (gd : Grid) : Run Grid :=
  match l with
  | [] => Done gd
  | a :: l => andThen (replayAction s gd a) (replayAll s l)
  end.

(** [const init = this.actions.find(a=>a.type==='init');
     if(init && init.snapshot) this.grid.loadJSON(init.snapshot);
     for(let i=1;i<idx;i++){ const a = this.actions[i]; if(!a) continue; ... }] *)
Definition replay (s : Script) (gm : Game) (idx : Z) : Run Grid :=
  andThen
    match List.find isInit (actions gm) with
    | Some (AInit (Some snapshot)) => updateStats s (loadJSON (grid gm) snapshot)
    | _ => Done (grid gm)
    end
    (replayAll s (drop 1 (take (Z.to_nat idx) (actions gm)))).

(** [this.actionGen.next(cmd)]: the generator is the object the game
    holds ([undo] and [redo] make one first if there is none).  The body
    starts at the first [next] and reads [this.actionIndex] then; the
    value sent to the [yield] that ends a turn is dropped.  A turn is
    the replay and then [UI.refreshAll()]; if either throws, the
    generator has ended. *)
Definition genNext (s : Script) (gm : Game) (cmd : Cmd) : Run Game :=
  match actionGen gm with
  | None | Some Finished => Done gm
  | Some NotStarted =>
      Done (mkGame (grid gm) (actions gm) (actionIndex gm)
              (Some (AtFirstYield (actionIndex gm))))
  | Some (AtSecondYield idx) =>
      Done (mkGame (grid gm) (actions gm) (actionIndex gm) (Some (AtFirstYield idx)))
  | Some (AtFirstYield idx) =>
      let idx :=
        match cmd with
        | UndoCmd => Z.max 1 (idx - 1)
        | RedoCmd => Z.min (Z.of_nat (length (actions gm))) (idx + 1)
        | NoCmd => Z.of_nat (length (actions gm))
        end in
      match andThen (replay s gm idx) (useUI s) with
      | Done gd => Done (mkGame gd (actions gm) (actionIndex gm) (Some (AtSecondYield idx)))
      | Threw gd => Threw (mkGame gd (actions gm) (actionIndex gm) (Some Finished))
      end
  end.

(** [if(!this.actionGen) this.actionGen = this._actionGenerator();] *)
Definition ensureGen (gm : Game) : Game :=
  match actionGen gm with
  | Some _ => gm
  | None => mkGame (grid gm) (actions gm) (actionIndex gm) (Some NotStarted)
  end.

(** [undo(){ if(!this.actionGen) ...; this.actionGen.next();
     this.actionGen.next({type:'undo'}); Log.event('Undo executed'); }] *)
Definition undo (s : Script) (gm : Game) : Run Game :=
  andThen (genNext s (ensureGen gm) NoCmd)
    (fun gm => andThen (genNext s gm UndoCmd) (useUI s)).

Definition redo (s : Script) (gm : Game) : Run Game :=
  andThen (genNext s (ensureGen gm) NoCmd)
    (fun gm => andThen (genNext s gm RedoCmd) (useUI s)).

(** [Game.init()]: [renderPalette()] and [UI.init()] come first and read
    [UI]; [this.recordAction({type:'init', snapshot: this.grid.toJSON()})]
    comes after them, then [Log.event] and [UI.refreshAll()]. *)
Definition init (s : Script) (gm : Game) : Run Game :=
  andThen (useUI s gm)
    (fun gm => useUI s (recordAction gm (AInit (Some (toJSON (grid gm)))))).

(** ** Tools *)

Inductive Tool : Type := Brush | Eraser | Fill | Rand | Road | Select.

(** [UI.applyToolToCell(cell)] for the cell at [(r, c)]; [selectedEmoji]
    is the emoji of the palette, [choice] the emoji the [rand] tool
    draws from the registry.  The method is reached through [UI]: when
    the script stopped at line 600 the call throws before anything is
    done; otherwise the [updateStats()] of its calls returns. *)
Definition applyToolToCell (s : Script) (currentTool : Tool)
    (selectedEmoji choice : option string) (r c : Z) (gm : Game) : Run Game :=
  andThen (useUI s gm) (fun gm =>
    match currentTool with
    | Brush =>
        let gm := recordAction gm (ASet r c selectedEmoji) in
        withGrid gm (updateStats s (set (grid gm) r c selectedEmoji))
    | Eraser =>
        let gm := recordAction gm (ASet r c (Some EmptyString)) in
        withGrid gm (updateStats s (set (grid gm) r c (Some EmptyString)))
    | Fill =>
        let gm := recordAction gm (AFill selectedEmoji) in
        withGrid gm (updateStats s (fillAll (grid gm) selectedEmoji))
    | Rand =>
        let gm := recordAction gm (ASet r c choice) in
        withGrid gm (updateStats s (set (grid gm) r c choice))
    | Road =>
        let gm := recordAction gm (ASet r c (Some Tile.road)) in
        withGrid gm (updateStats s (set (grid gm) r c (Some Tile.road)))
    | Select => Done gm
    end).

(** The [dblclick] listener that [initDOM] puts on the cell at [(r, c)]
    (lines 120 to 124), when the prompt was answered with [p]:
    [Game.recordAction({type:'set', r, c, prev: el.value, next: p});
     this.set(r,c,p);]
    The grid that made the cell is the grid of the game. *)
Definition dblclick (s : Script) (r c : Z) (p : string) (gm : Game) : Run Game :=
  let gm := recordAction gm (ASet r c (Some p)) in
  withGrid gm (updateStats s (set (grid gm) r c (Some p))).

(** The levels of [setupLevels]. *)
Inductive Level : Type := Lvl1 | Lvl2 | Lvl3.

Definition levelRows (l : Level) : Z :=
  match l with Lvl1 => 10 | Lvl2 => 12 | Lvl3 => 10 end.
Definition levelCols (l : Level) : Z :=
  match l with Lvl1 => 12 | Lvl2 => 16 | Lvl3 => 10 end.

(** [loadLevel(def)]: [this.grid = new Grid(def.rows, def.cols, 48);
    this.recordAction({type:'setlevel', level:def}); UI.refreshAll();
    Log.event(...)]. *)
Definition loadLevel (s : Script) (l : Level) (gm : Game) : Run Game :=
  match newGrid (levelRows l) (levelCols l) with
  | Some gd =>
      useUI s (recordAction (mkGame gd (actions gm) (actionIndex gm) (actionGen gm))
                 ASetLevel)
  | None => Done gm
  end.

(** [randomizeGrid()]: [drawn i] is the value drawn for the cell of
    index [i] (an emoji of the registry, [''], or [undefined] when the
    registry is empty).  After the cells:
    [Game.grid.updateStats(); Game.recordAction({type:'fill', next:'randomize'});] *)
Definition randomizeGrid (s : Script) (drawn : Z -> option string) (gm : Game) : Run Game :=
  let gd := grid gm in
  let cells := fold_left (fun a i => arr_put a i (drawn i))
                 (seqZ0 (rows gd * cols gd)) (cells gd) in
  andThen (withGrid gm (updateStats s (mkGrid (rows gd) (cols gd) cells)))
    (fun gm => Done (recordAction gm (AFill (Some "randomize"%string)))).

(** [playBackActions()], its ticks run one after the other up to the
    first that throws:
    [const init = Game.actions[0];
     if(init && init.snapshot) Game.grid.loadJSON(init.snapshot);]
    and then every action from index 1 on. *)
Definition playBackActions (s : Script) (gm : Game) : Run Game :=
  if (length (actions gm) <? 2)%nat then Done gm
  else
    withGrid gm
      (andThen
         match head (actions gm) with
         | Some (AInit (Some snapshot)) => updateStats s (loadJSON (grid gm) snapshot)
         | _ => Done (grid gm)
         end
         (replayAll s (drop 1 (actions gm)))).

(** ** Sessions *)

(** What is called on the game: a tool on a cell, the double-click edit,
    the random fill, [Game.grid.clear()] (the clear button, confirmed),
    a level, the time-lapse, undo, redo. *)
Inductive Event : Type :=
| UseTool (tool : Tool) (selectedEmoji choice : option string) (r c : Z)
| Dblclick (r c : Z) (p : string)
| Randomize (drawn : Z -> option string)
| ClearGrid
| LoadLevel (l : Level)
| TimeLapse
| Undo
| Redo.

Definition step (s : Script) (gm : Game) (ev : Event) : Run Game :=
  match ev with
  | UseTool tool selectedEmoji choice r c =>
      applyToolToCell s tool selectedEmoji choice r c gm
  | Dblclick r c p => dblclick s r c p gm
  | Randomize drawn => randomizeGrid s drawn gm
  | ClearGrid => withGrid gm (updateStats s (clear (grid gm)))
  | LoadLevel l => loadLevel s l gm
  | TimeLapse => playBackActions s gm
  | Undo => undo s gm
  | Redo => redo s gm
  end.

(** The calls one after the other; a call that throws ends alone, and
    the next one finds the state it left. *)
Definition run (s : Script) (evs : list Event) (gm : Game) : Game :=
  fold_left (fun gm ev => reached (step s gm ev)) evs gm.

(** A session: [Game.init()] on the game as declared, with the grid
    [g0], and then the events. *)
Definition session (s : Script) (g0 : Grid) (evs : list Event) : Game :=
  run s evs (reached (init s (declared g0))).








(** The array has no property besides its elements, as an array made by
    [new Array(n).fill('')] or by [slice]. *)
Definition plain (a : JsArray) : Prop := arr_slice a = a.


(** A grid of one row and two columns, as [new Grid(1, 2)] makes it, and
    two strokes of the brush. *)
Definition sheet : Grid :=
  mkGrid 1 2 (arr_fill (mkJsArray 2 ∅) EmptyString).
Definition stroke1 : Event := UseTool Brush (Some Tile.house) None 0 0.
Definition stroke2 : Event := UseTool Brush (Some Tile.road) None 0 1.

End Editor.

(** ** The zoom factor *)

(** [Math.min(x, y)] and [Math.max(x, y)] on two numbers: [NaN] when
    either is [NaN]; -0 counts as below +0. *)
Definition Math_min (x y : float) : float :=
  match PrimFloat.compare x y with
  | FLt => x
  | FGt => y
  | FEq => if PrimFloat.get_sign x then x else y
  | FNotComparable => nan
  end.

Definition Math_max (x y : float) : float :=
  match PrimFloat.compare x y with
  | FLt => y
  | FGt => x
  | FEq => if PrimFloat.get_sign x then y else x
  | FNotComparable => nan
  end.

(** [const clamp = (v,a,b) => Math.max(a, Math.min(b, v))] *)
Definition clamp (v a b : float) : float := Math_max a (Math_min b v).

(** The value [UI.setZoom(val)] stores: [this.zoom = clamp(val, 0.45, 3)]. *)
Definition setZoom (val : float) : float := clamp val 0.45%float 3%float.
(** * Facts about the embedding *)

Section ArrayFacts.
Context {A : Type}.
Implicit Types (l : list A) (i j : Z) (x y : A).

Lemma lookupZ_neg l i : i < 0 -> lookupZ l i = None.
Proof. intros H. unfold lookupZ. destruct (Z.ltb_spec i 0); [done | lia]. Qed.

Lemma lookupZ_Some_range l i x :
  lookupZ l i = Some x -> 0 <= i < Z.of_nat (length l).
Proof.
  unfold lookupZ. destruct (Z.ltb_spec i 0) as [Hi | Hi]; [done |].
  intros Hl%lookup_lt_Some. lia.
Qed.

Lemma lookupZ_in_range l i :
  0 <= i < Z.of_nat (length l) -> is_Some (lookupZ l i).
Proof.
  intros H. unfold lookupZ. destruct (Z.ltb_spec i 0); [lia |].
  apply lookup_lt_is_Some. lia.
Qed.

Lemma length_insertZ l i x : length (insertZ i x l) = length l.
Proof. unfold insertZ. destruct (i <? 0); [done | apply length_insert]. Qed.

Lemma lookupZ_insertZ_eq l i x :
  0 <= i < Z.of_nat (length l) -> lookupZ (insertZ i x l) i = Some x.
Proof.
  intros H. unfold lookupZ, insertZ. destruct (Z.ltb_spec i 0); [lia |].
  apply list_lookup_insert_eq. lia.
Qed.

Lemma lookupZ_insertZ_ne l i j x :
  i <> j -> lookupZ (insertZ i x l) j = lookupZ l j.
Proof.
  intros H. unfold lookupZ, insertZ.
  destruct (Z.ltb_spec j 0); [done |].
  destruct (Z.ltb_spec i 0); [done |].
  apply list_lookup_insert_ne. lia.
Qed.

Lemma lookupZ_insertZ_inv l i j x y :
  lookupZ (insertZ i x l) j = Some y ->
  (j = i /\ y = x) \/ lookupZ l j = Some y.
Proof.
  intros H. destruct (decide (i = j)) as [-> | Hne].
  - left. split; [done |].
    pose proof (lookupZ_Some_range _ _ _ H) as Hr.
    rewrite length_insertZ in Hr.
    rewrite lookupZ_insertZ_eq in H by done. congruence.
  - right. by rewrite lookupZ_insertZ_ne in H.
Qed.

Lemma lookupZ_replicate (n : nat) x i y :
  lookupZ (replicate n x) i = Some y -> y = x.
Proof.
  unfold lookupZ. destruct (i <? 0); [done |].
  intros Hl%lookup_replicate. tauto.
Qed.

Lemma lookupZ_replicate_in (n : nat) x i :
  0 <= i < Z.of_nat n -> lookupZ (replicate n x) i = Some x.
Proof.
  intros H. unfold lookupZ. destruct (Z.ltb_spec i 0); [lia |].
  apply lookup_replicate. split; [done | lia].
Qed.
End ArrayFacts.

(** ** The cost model *)

Section CostModel.

Ltac tile_clash :=
  match goal with
  | H : ?t = ?u |- _ => apply String.eqb_eq in H; vm_compute in H; discriminate H
  | H : includes _ _ = true |- _ => vm_compute in H; discriminate H
  end.

Lemma road_not_vegetation t : roadLike t -> vegetation t -> False.
Proof. intros [-> | ->] [H | H]; tile_clash. Qed.

Lemma road_not_heavy t : roadLike t -> heavyBuilding t -> False.
Proof. intros [-> | ->] [H | H]; tile_clash. Qed.

Lemma road_not_vehicle t : roadLike t -> vehicleOccupied t -> False.
Proof. intros [-> | ->] [H | H]; tile_clash. Qed.

Lemma vegetation_not_heavy t : vegetation t -> heavyBuilding t -> False.
Proof. intros [-> | ->] [H | H]; tile_clash. Qed.

Lemma vegetation_not_vehicle t : vegetation t -> vehicleOccupied t -> False.
Proof. intros [-> | ->] [H | H]; tile_clash. Qed.

Lemma heavy_not_vehicle t : heavyBuilding t -> vehicleOccupied t -> False.
Proof. intros [-> | ->] [H | H]; tile_clash. Qed.

Lemma roadLike_dec t : {roadLike t} + {~ roadLike t}.
Proof. unfold roadLike. exact (decide _). Qed.

Lemma vegetation_dec t : {vegetation t} + {~ vegetation t}.
Proof. unfold vegetation. exact (decide _). Qed.

Lemma heavyBuilding_dec t : {heavyBuilding t} + {~ heavyBuilding t}.
Proof. unfold heavyBuilding. exact (decide _). Qed.

Lemma vehicleOccupied_dec t : {vehicleOccupied t} + {~ vehicleOccupied t}.
Proof. unfold vehicleOccupied. exact (decide _). Qed.

Lemma eqb_false_of_not_or t u v :
  ~ (t = u \/ t = v) -> String.eqb t u || String.eqb t v = false.
Proof.
  intros H. apply orb_false_iff. split; apply String.eqb_neq; tauto.
Qed.

Lemma includes_false_of_not t :
  ~ vehicleOccupied t -> includes Tile.car t || includes Tile.saucer t = false.
Proof.
  unfold vehicleOccupied. intros H.
  destruct (includes Tile.car t); [tauto |].
  destruct (includes Tile.saucer t); [tauto | done].
Qed.

(** What [terrainMult] computes is the multiplier of the table. *)
Lemma terrainMult_table t m : MultiplierOf t m -> terrainMult t = m.
Proof.
  intros H. destruct H as [Hr | Hv | Hh | Hc | Hr Hv Hh Hc].
  - destruct Hr as [-> | ->]; vm_compute; reflexivity.
  - destruct Hv as [-> | ->]; vm_compute; reflexivity.
  - destruct Hh as [-> | ->]; vm_compute; reflexivity.
  - unfold terrainMult.
    assert (includes Tile.car t || includes Tile.saucer t = true) as ->; [| done].
    destruct Hc as [-> | ->]; [done | apply orb_true_r].
  - unfold terrainMult.
    rewrite (eqb_false_of_not_or _ _ _ Hr), (eqb_false_of_not_or _ _ _ Hv),
      (eqb_false_of_not_or _ _ _ Hh), (includes_false_of_not _ Hc). done.
Qed.

Lemma MultiplierOf_total t : exists m, MultiplierOf t m.
Proof.
  destruct (roadLike_dec t); [eexists; by apply mult_road |].
  destruct (vegetation_dec t); [eexists; by apply mult_vegetation |].
  destruct (heavyBuilding_dec t); [eexists; by apply mult_heavy |].
  destruct (vehicleOccupied_dec t); [eexists; by apply mult_vehicle |].
  eexists; by apply mult_other.
Qed.

Lemma MultiplierOf_functional t m m' :
  MultiplierOf t m -> MultiplierOf t m' -> m' = m.
Proof.
  intros H H'. rewrite <- (terrainMult_table _ _ H), <- (terrainMult_table _ _ H'). done.
Qed.

Lemma base_agrees r1 c1 r2 c2 :
  (if isDiagonalStep r1 c1 r2 c2 then 1.414%float else 1.0%float) = baseOf r1 c1 r2 c2.
Proof.
  unfold isDiagonalStep, baseOf.
  destruct (Z.eqb_spec r1 r2), (Z.eqb_spec c1 c2); simpl;
    destruct (decide _); try done; tauto.
Qed.

Lemma getMoveCost_eq a r1 c1 r2 c2 :
  getMoveCost a r1 c1 r2 c2
  = (baseOf r1 c1 r2 c2 * terrainMult (tileAt a r2 c2))%float.
Proof. unfold getMoveCost. rewrite base_agrees. done. Qed.

(** The ten values a move can cost. *)
Lemma product_positive_finite b m :
  b = 1.0%float \/ b = 1.414%float ->
  m ∈ [0.7%float; 1.15%float; 1.3%float; 1.2%float; 1.0%float] ->
  PrimFloat.ltb 0%float (b * m)%float = true /\ isFinite (b * m)%float = true.
Proof.
  intros Hb Hm.
  repeat (apply elem_of_cons in Hm as [-> | Hm]);
    try (by apply elem_of_nil in Hm);
    destruct Hb as [-> | ->]; vm_compute; done.
Qed.

Lemma MultiplierOf_values t m :
  MultiplierOf t m -> m ∈ [0.7%float; 1.15%float; 1.3%float; 1.2%float; 1.0%float].
Proof. destruct 1; set_solver. Qed.

Lemma baseOf_values r1 c1 r2 c2 :
  baseOf r1 c1 r2 c2 = 1.0%float \/ baseOf r1 c1 r2 c2 = 1.414%float.
Proof. unfold baseOf. destruct (decide _); auto. Qed.

End CostModel.

(** C6: for every step and every destination terrain, [getMoveCost] is
    the base cost (1.0 for a step that keeps its row or its column, 1.414
    when both change) times the multiplier of the terrain's category
    (road-like 0.7, vegetation 1.15, heavy building 1.3, vehicle 1.2,
    anything else 1.0); each terrain has exactly one multiplier, and the
    cost is strictly positive and finite. *)
Theorem getMoveCost_table (a : AStar) (r1 c1 r2 c2 : Z) :
  exists m : float,
    MultiplierOf (tileAt a r2 c2) m /\
    (forall m' : float, MultiplierOf (tileAt a r2 c2) m' -> m' = m) /\
    getMoveCost a r1 c1 r2 c2 = (baseOf r1 c1 r2 c2 * m)%float /\
    PrimFloat.ltb 0%float (getMoveCost a r1 c1 r2 c2) = true /\
    isFinite (getMoveCost a r1 c1 r2 c2) = true.
Proof.
  destruct (MultiplierOf_total (tileAt a r2 c2)) as [m Hm].
  exists m. split; [done |]. split.
  - intros m' Hm'. by eapply MultiplierOf_functional.
  - rewrite getMoveCost_eq, (terrainMult_table _ _ Hm). split; [done |].
    apply product_positive_finite.
    + apply baseOf_values.
    + by eapply MultiplierOf_values.
Qed.

(** ** Flat indices *)

Section Indices.
Variable a : AStar.
Let W := cols (grid a).
Let H := rows (grid a).

Lemma idx_in_range p :
  inBounds (grid a) p -> 0 <= idx a p < H * W.
Proof. unfold inBounds, idx. subst W H. destruct p as [r c]; simpl. nia. Qed.

Lemma cellOf_idx p : inBounds (grid a) p -> cellOf a (idx a p) = p.
Proof.
  unfold inBounds, idx, cellOf. destruct p as [r c]; simpl. intros [Hr Hc].
  f_equal.
  - rewrite Z.div_add_l by lia. rewrite Z.div_small by lia. lia.
  - rewrite Z.rem_mod_nonneg by nia.
    rewrite Z.add_comm, Z.mod_add by lia. apply Z.mod_small. lia.
Qed.

Lemma cellOf_inBounds k :
  0 < W -> 0 <= k < H * W -> inBounds (grid a) (cellOf a k) /\ idx a (cellOf a k) = k.
Proof.
  unfold inBounds, idx, cellOf. subst W H. simpl. intros HW Hk.
  rewrite Z.rem_mod_nonneg by lia.
  pose proof (Z.mod_pos_bound k (cols (grid a)) HW).
  pose proof (Z.div_mod k (cols (grid a)) ltac:(lia)).
  assert (0 <= k / cols (grid a)) by (apply Z.div_pos; lia).
  assert (k / cols (grid a) < rows (grid a)) by (apply Z.div_lt_upper_bound; lia).
  lia.
Qed.
End Indices.

(** ** [findPath]: the cache and the grid *)

Lemma findPath_hit (a : AStar) (h : Heap) (start goal : Cell) (mask : Mask)
    (fuel : nat) (c : aref) (l : list ref) :
  cache a !! cacheKey a start goal = Some c ->
  arrs h !! c = Some l ->
  findPath a h start goal mask fuel
  = Some (Return (Some (length (arrs h))), a, mkHeap (objs h) (arrs h ++ [l])).
Proof. intros Hc Hl. unfold findPath. rewrite Hc, Hl. done. Qed.

(** C9: a call of [findPath] leaves the grid of the engine as it was:
    the rows, the columns and every cell value are the same after the
    call as before, whatever the call yields. *)
Theorem findPath_grid_unchanged (a a' : AStar) (h h' : Heap) (start goal : Cell)
    (mask : Mask) (fuel : nat) (out : Outcome aref) :
  findPath a h start goal mask fuel = Some (out, a', h') ->
  grid a' = grid a /\
  rows (grid a') = rows (grid a) /\ cols (grid a') = cols (grid a) /\
  cells (grid a') = cells (grid a).
Proof.
  unfold findPath, cacheAndReturn, alloc_arr. intros Hf.
  assert (grid a' = grid a) as Hg.
  { repeat case_match; simplify_eq; done. }
  by rewrite Hg.
Qed.

Lemma findPath_grid_unchanged_witness :
  exists a' h' out,
    findPath (newAStar (newGrid 2 2)) emptyHeap (mkCell 0 0) (mkCell 1 1) MaskNone 10
    = Some (out, a', h') /\
    cells (grid a') = cells (grid (newAStar (newGrid 2 2))).
Proof.
  eexists _, _, _. split; [vm_compute; reflexivity |].
  eapply (findPath_grid_unchanged (newAStar (newGrid 2 2)) _ emptyHeap _
            (mkCell 0 0) (mkCell 1 1) MaskNone 10).
  vm_compute; reflexivity.
Defined.

Lemma findPath_miss (a : AStar) (h : Heap) (start goal : Cell) (mask : Mask)
    (fuel : nat) :
  cache a !! cacheKey a start goal = None ->
  0 <= rows (grid a) * cols (grid a) ->
  findPath a h start goal mask fuel
  = match searchLoop a (passablePredicate a mask) goal (idx a goal) fuel
            (initSearch a start goal) with
    | None => None
    | Some (_, st) =>
        if decide (lookupZ (cameFrom st) (idx a goal) = Some (-1))
        then Some (Return None, a, h)
        else match reconstruct a (cameFrom st) fuel (idx a goal) [] h with
             | None => None
             | Some (path, h1) =>
                 Some (cacheAndReturn a (cacheKey a start goal) path h1)
             end
    end.
Proof.
  intros Hmiss Hsize. unfold findPath. rewrite Hmiss.
  destruct (Z.ltb_spec (rows (grid a) * cols (grid a)) 0) as [Hneg | _]; [lia |].
  destruct (searchLoop _ _ _ _ _ _) as [[e st] |]; [| done].
  destruct (decide _) as [-> | Hne]; [done |].
  repeat case_match; simplify_eq; done.
Qed.

Lemma cacheAndReturn_spec (a : AStar) (key : string) (path : list ref) (h1 : Heap) :
  exists a' h',
    cacheAndReturn a key path h1 = (Return (Some (length (arrs h1))), a', h') /\
    grid a' = grid a /\ diagonal a' = diagonal a /\
    objs h' = objs h1 /\
    arrs h' !! length (arrs h1) = Some path /\
    ((Z.of_nat (length path) < 512 /\
      arrs h' = arrs h1 ++ [path; path] /\
      cache a' = <[key := S (length (arrs h1))]> (cache a))
     \/
     (512 <= Z.of_nat (length path) /\ arrs h' = arrs h1 ++ [path] /\ a' = a)).
Proof.
  unfold cacheAndReturn, alloc_arr.
  destruct (Z.ltb_spec (Z.of_nat (length path)) 512) as [Hlt | Hge]; simpl.
  - eexists _, _. split; [done |]. simpl.
    split; [done |]. split; [done |]. split; [done |]. split.
    + rewrite <- app_assoc. by rewrite lookup_app_r, Nat.sub_diag.
    + left. split; [done |]. split.
      * by rewrite <- app_assoc.
      * do 2 f_equal. rewrite length_app. simpl. lia.
  - eexists _, _. split; [done |]. simpl.
    split; [done |]. split; [done |]. split; [done |]. split.
    + by rewrite lookup_app_r, Nat.sub_diag.
    + right. done.
Qed.


(** ** A query whose start is its goal *)

Lemma getF_insertZ_eq (l : list float) (i : Z) (x : float) :
  0 <= i < Z.of_nat (length l) -> getF (insertZ i x l) i = x.
Proof. intros Hi. unfold getF. by rewrite lookupZ_insertZ_eq. Qed.

Lemma heuristic_same (a : AStar) (p : Cell) : heuristic a p p = 0.
Proof. unfold heuristic. destruct (diagonal a); lia. Qed.

Lemma searchLoop_start_is_goal (a : AStar) (passable : Cell -> bool) (p : Cell)
    (fuel : nat) :
  0 <= idx a p < rows (grid a) * cols (grid a) ->
  searchLoop a passable p (idx a p) (S fuel) (initSearch a p p)
  = Some (GoalReached, initSearch a p p).
Proof.
  intros Hp. simpl. unfold pickLowest, pickStep. simpl.
  rewrite heuristic_same, getF_insertZ_eq by (rewrite length_replicate; lia).
  change (PrimFloat.ltb (Z2F 0) infinity) with true. simpl.
  by rewrite Z.eqb_refl.
Qed.

Lemma worker_start_is_goal (rows cols : Z) (p : Cell) (passable : list Z) (fuel : nat) :
  0 <= Worker.idx cols (cell_r p) (cell_c p) < rows * cols ->
  Worker.onmessage (Worker.mkMsg rows cols p p passable) (S fuel) = Some (Return None).
Proof.
  intros Hp. unfold Worker.onmessage. simpl.
  destruct (Z.ltb_spec (rows * cols) 0) as [Hneg | _]; [lia |].
  rewrite Z.eqb_refl. cbn [Worker.came].
  by rewrite lookupZ_replicate_in by lia.
Qed.

(** C1 (what the code does instead): for a cell [p] inside the grid and a
    query with start = goal = [p] that misses the cache, the main-thread
    [findPath] returns [null], and so does the worker: the loop stops on
    the goal at once and [cameFrom[goalIdx]] is still -1, which the code
    reads as "no path". *)
Theorem findPath_start_is_goal_returns_null (a : AStar) (h : Heap) (p : Cell)
    (mask : Mask) (passable : list Z) (fuel : nat) :
  inBounds (grid a) p ->
  cache a !! cacheKey a p p = None ->
  findPath a h p p mask (S fuel) = Some (Return None, a, h) /\
  Worker.onmessage (Worker.mkMsg (rows (grid a)) (cols (grid a)) p p passable) (S fuel)
  = Some (Return None).
Proof.
  intros Hin Hmiss. pose proof (idx_in_range a p Hin) as Hr. split.
  - unfold findPath. rewrite Hmiss.
    destruct (Z.ltb_spec (rows (grid a) * cols (grid a)) 0) as [Hneg | _]; [lia |].
    rewrite searchLoop_start_is_goal by done.
    unfold initSearch; simpl.
    by rewrite lookupZ_replicate_in by lia.
  - by apply worker_start_is_goal.
Qed.

Lemma findPath_start_is_goal_returns_null_witness :
  findPath (newAStar (newGrid 3 3)) emptyHeap (mkCell 1 1) (mkCell 1 1) MaskNone 1
  = Some (Return None, newAStar (newGrid 3 3), emptyHeap) /\
  Worker.onmessage (Worker.mkMsg 3 3 (mkCell 1 1) (mkCell 1 1) (replicate 9 1)) 1
  = Some (Return None).
Proof.
  apply (findPath_start_is_goal_returns_null (newAStar (newGrid 3 3)) emptyHeap
           (mkCell 1 1) MaskNone (replicate 9 1) 0).
  - unfold inBounds; simpl; lia.
  - reflexivity.
Defined.

(** ** [NaN] never compares below anything *)

Lemma ltb_nan_add (x y : float) : PrimFloat.ltb (nan + x)%float y = false.
Proof.
  rewrite FloatAxioms.ltb_spec, FloatAxioms.add_spec.
  change (Prim2SF nan) with S754_nan. reflexivity.
Qed.

Lemma getF_None_nan (l : list float) (i : Z) : lookupZ l i = None -> getF l i = nan.
Proof. intros H. unfold getF. by rewrite H. Qed.

(** ** Neighbours and the choice of the current cell *)

Lemma neighbors_spec (a : AStar) (r c : Z) (n : Cell) :
  n ∈ neighbors a r c -> inBounds (grid a) n /\ kingStep (mkCell r c) n.
Proof.
  unfold neighbors. intros Hn.
  apply list_elem_of_omap in Hn as (d & Hd & Hf).
  assert (d ∈ dirs8) as Hd8.
  { destruct (diagonal a); [done |]. unfold dirs4 in Hd. unfold dirs8.
    rewrite !elem_of_cons in Hd |- *. rewrite elem_of_nil in Hd. tauto. }
  clear Hd.
  destruct (_ && _) eqn:Hb in Hf; [| done]. simplify_eq.
  repeat (apply andb_true_iff in Hb as [Hb ?]).
  split.
  - unfold inBounds; simpl. lia.
  - unfold dirs8 in Hd8.
    repeat (apply elem_of_cons in Hd8 as [-> | Hd8]);
      try (by apply elem_of_nil in Hd8);
      (unfold kingStep; simpl; repeat split; try lia; intros [=]; lia).
Qed.

Lemma pickLowest_fold (fa : list float) (op : list Z) (acc : Z * float) :
  fst (fold_left (pickStep fa) op acc) = fst acc \/
  fst (fold_left (pickStep fa) op acc) ∈ op.
Proof.
  revert acc. induction op as [| k op IH]; intros acc; simpl; [by left |].
  destruct (IH (pickStep fa acc k)) as [Heq | Hin].
  - rewrite Heq. unfold pickStep. destruct (PrimFloat.ltb _ _); simpl.
    + right. apply elem_of_cons; by left.
    + by left.
  - right. apply elem_of_cons; by right.
Qed.

Lemma pickLowest_elem (fa : list float) (op : list Z) :
  pickLowest fa op = -1 \/ pickLowest fa op ∈ op.
Proof. apply (pickLowest_fold fa op (-1, infinity)). Qed.

Lemma elem_of_setAdd (k x : Z) (s : list Z) : x ∈ setAdd k s <-> x = k \/ x ∈ s.
Proof.
  unfold setAdd. case_bool_decide as Hk.
  - split; [intros Hx; by right | intros [-> | Hx]; done].
  - rewrite elem_of_app. split.
    + intros [Hx | Hx%list_elem_of_singleton]; auto.
    + intros [-> | Hx]; [right; by apply list_elem_of_singleton | by left].
Qed.

Lemma elem_of_setDelete (k x : Z) (s : list Z) : x ∈ setDelete k s <-> x <> k /\ x ∈ s.
Proof. unfold setDelete. by rewrite list_elem_of_filter. Qed.

(** ** The invariant of the search loop *)

Section SearchInvariant.
Variable a : AStar.
Variable passable : Cell -> bool.
Variable goal : Cell.
Variable startIdx : Z.

#[local] Abbreviation Inv := (SearchInv a passable startIdx).
#[local] Abbreviation root := (rooted startIdx).

Lemma rooted_insertZ (came : list Z) (i x k : Z) :
  x <> -1 -> root came k -> root (insertZ i x came) k.
Proof.
  intros Hx [-> | (m & Hm & Hne)]; [by left |]. right.
  destruct (decide (i = k)) as [-> | Hik].
  - exists x. split; [| done].
    apply lookupZ_insertZ_eq. by eapply lookupZ_Some_range.
  - exists m. by rewrite lookupZ_insertZ_ne.
Qed.

(** Either [relax] leaves the state alone, or it records [current] as
    the predecessor of the neighbour; the latter needs [g[current]] to
    be a number. *)
Lemma relax_cases (current cr cc : Z) (st : Search) (n : Cell) :
  relax a passable goal current cr cc st n = st \/
  (passable n = true /\ 0 <= current /\
   exists cost fv : float,
     relax a passable goal current cr cc st n
     = mkSearch (insertZ (idx a n) cost (g st)) (insertZ (idx a n) fv (f st))
                (setAdd (idx a n) (open st))
                (insertZ (idx a n) current (cameFrom st))).
Proof.
  unfold relax. destruct (passable n) eqn:Hp; simpl; [| by left].
  destruct (PrimFloat.ltb _ _) eqn:Hlt; [| by left].
  right. split; [done |]. split; [| eauto].
  destruct (lookupZ (g st) current) as [x |] eqn:Hg.
  - apply lookupZ_Some_range in Hg. lia.
  - rewrite (getF_None_nan _ _ Hg), ltb_nan_add in Hlt. done.
Qed.

Lemma relax_inv (current cr cc : Z) (st : Search) (n : Cell) :
  Inv st ->
  (0 <= current -> root (cameFrom st) current) ->
  inBounds (grid a) n ->
  kingStep (cellOf a current) n ->
  Inv (relax a passable goal current cr cc st n) /\
  (0 <= current -> root (cameFrom (relax a passable goal current cr cc st n)) current).
Proof.
  intros [Hlen Hcame Hopen] Hcur Hn Hstep.
  destruct (relax_cases current cr cc st n)
    as [-> | (Hp & Hpos & cost & fv & ->)]; [done |].
  assert (current <> -1) as Hne by lia.
  pose proof (idx_in_range a n Hn) as Hrange.
  assert (0 <= idx a n < Z.of_nat (length (cameFrom st))) as Hrange' by lia.
  split; [constructor; simpl |]; simpl.
  - by rewrite length_insertZ.
  - intros n0 m0 Hl Hm0.
    apply lookupZ_insertZ_inv in Hl as [[-> ->] | Hl].
    + rewrite cellOf_idx by done. repeat split; try done.
      * apply rooted_insertZ; auto.
      * apply Hn.
      * apply Hn.
      * apply Hn.
      * apply Hn.
      * apply Hstep.
      * apply Hstep.
      * apply Hstep.
    + destruct (Hcame n0 m0 Hl Hm0) as (Hr & Hb & Hps & Hk).
      repeat split; try done; try apply Hb; try apply Hk.
      by apply rooted_insertZ.
  - intros k [-> | Hk]%elem_of_setAdd.
    + split; [| lia]. right. exists current. split; [| done].
      by apply lookupZ_insertZ_eq.
    + destruct (Hopen k Hk) as [Hr Hk0]. split; [| done].
      by apply rooted_insertZ.
  - intros _. apply rooted_insertZ; auto.
Qed.

Lemma relax_fold_inv (current cr cc : Z) (ns : list Cell) (st : Search) :
  Inv st ->
  (0 <= current -> root (cameFrom st) current) ->
  Forall (fun n => inBounds (grid a) n /\ kingStep (cellOf a current) n) ns ->
  Inv (fold_left (relax a passable goal current cr cc) ns st).
Proof.
  revert st. induction ns as [| n ns IH]; intros st Hinv Hcur Hns; simpl; [done |].
  apply Forall_cons in Hns as [[Hn Hstep] Hns].
  destruct (relax_inv current cr cc st n Hinv Hcur Hn Hstep) as [Hinv' Hcur'].
  by apply IH.
Qed.

Lemma expand_inv (current : Z) (st : Search) :
  Inv st ->
  (0 <= current -> root (cameFrom st) current) ->
  Inv (expand a passable goal current st).
Proof.
  intros Hinv Hcur. unfold expand. apply relax_fold_inv; [done | done |].
  apply Forall_forall. intros n Hn. by apply neighbors_spec in Hn.
Qed.

Lemma searchLoop_inv (goalIdx : Z) (fuel : nat) (st st' : Search) (e : Exit) :
  Inv st ->
  searchLoop a passable goal goalIdx fuel st = Some (e, st') ->
  Inv st'.
Proof.
  revert st. induction fuel as [| fuel IH]; intros st Hinv; simpl; [done |].
  destruct (open st) as [| k0 op] eqn:Hop; [by intros [= <- <-] |].
  destruct (_ =? goalIdx); [by intros [= <- <-] |].
  apply IH. apply expand_inv.
  - destruct Hinv as [Hlen Hcame Hopen]. constructor; simpl; [done | done |].
    intros k [_ Hk]%elem_of_setDelete. rewrite Hop in Hopen. auto.
  - simpl. intros Hpos.
    destruct (pickLowest_elem (f st) (k0 :: op)) as [Hm1 | Hin]; [lia |].
    destruct Hinv as [_ _ Hopen]. rewrite Hop in Hopen. by apply Hopen.
Qed.

Lemma initSearch_inv (start : Cell) :
  idx a start = startIdx -> 0 <= startIdx ->
  Inv (initSearch a start goal).
Proof.
  intros Hs Hpos. constructor; simpl.
  - by rewrite length_replicate.
  - intros n m Hl Hm. apply lookupZ_replicate in Hl. done.
  - intros k Hk%list_elem_of_singleton. subst k. rewrite Hs. split; [by left | done].
Qed.
End SearchInvariant.

(** ** Reading paths back from the store *)

Lemma read_refs_Forall2 (h : Heap) (refs : list ref) (cs : list Cell) :
  read_refs h refs = Some cs <-> Forall2 (fun o c => objs h !! o = Some c) refs cs.
Proof. unfold read_refs. apply mapM_Some. Qed.

Lemma read_refs_extends (h h' : Heap) (refs : list ref) (cs : list Cell) :
  objs h `prefix_of` objs h' ->
  read_refs h refs = Some cs -> read_refs h' refs = Some cs.
Proof.
  intros Hpre. rewrite !read_refs_Forall2.
  intros Hrefs. eapply Forall2_impl; [exact Hrefs |].
  intros o c Ho. simpl in *. exact (prefix_lookup_Some _ _ _ _ Ho Hpre).
Qed.

Lemma read_refs_snoc (h : Heap) (refs : list ref) (cs : list Cell) (o : ref) (c : Cell) :
  read_refs h refs = Some cs -> objs h !! o = Some c ->
  read_refs h (refs ++ [o]) = Some (cs ++ [c]).
Proof.
  rewrite !read_refs_Forall2. intros Hrefs Ho.
  apply Forall2_app; [done |]. by repeat constructor.
Qed.

Lemma read_path_alloc (h : Heap) (path : list ref) (more : list (list ref))
    (cs : list Cell) :
  read_refs h path = Some cs ->
  read_path (mkHeap (objs h) (arrs h ++ path :: more)) (length (arrs h)) = Some cs.
Proof.
  intros Hr. unfold read_path; simpl.
  rewrite lookup_app_r, Nat.sub_diag by lia. simpl.
  by rewrite <- Hr.
Qed.

(** ** Paths that grow at the goal end *)

Lemma validPath_single (gr : Grid) (ps : Cell -> bool) (s : Cell) :
  inBounds gr s -> validPath gr ps s s [s].
Proof.
  intros Hs. constructor; simpl.
  - done.
  - done.
  - by apply Forall_singleton.
  - intros i p q _ Hq. by destruct i.
  - constructor.
Qed.

Lemma validPath_snoc (gr : Grid) (ps : Cell -> bool) (s m q : Cell) (xs : list Cell) :
  validPath gr ps s m xs ->
  kingStep m q -> inBounds gr q -> ps q = true ->
  validPath gr ps s q (xs ++ [q]).
Proof.
  intros [Hhd Hlast Hb Hsteps Hpass] Hk Hq Hpq.
  assert (0 < length xs)%nat as Hlen0 by (destruct xs; [done | simpl; lia]).
  constructor.
  - by destruct xs.
  - apply last_snoc.
  - apply Forall_app. split; [done | by apply Forall_singleton].
  - intros i p q' Hp Hq'.
    destruct (decide (S i < length xs)%nat) as [Hlt | Hge].
    + rewrite lookup_app_l in Hp by lia. rewrite lookup_app_l in Hq' by done.
      by eapply Hsteps.
    + apply lookup_lt_Some in Hq' as Hlen. rewrite length_app in Hlen. simpl in Hlen.
      assert (S i = length xs) as Hi by lia.
      rewrite lookup_app_r in Hq' by lia.
      rewrite Hi, Nat.sub_diag in Hq'. simpl in Hq'. simplify_eq.
      rewrite lookup_app_l in Hp by lia.
      rewrite last_lookup in Hlast.
      replace (pred (length xs)) with i in Hlast by lia.
      by simplify_eq.
  - destruct xs as [| x xs]; [done |]. simpl.
    apply Forall_app. split; [done | by apply Forall_singleton].
Qed.

Section Reconstruction.
Variable a : AStar.
Variable passable : Cell -> bool.
Variable startIdx : Z.
Variable came : list Z.

Hypothesis came_rooted :
  forall n m : Z, lookupZ came n = Some m -> m <> -1 -> rooted startIdx came m.

Lemma reconstruct_trail (fuel : nat) :
  forall (cur : Z) (path : list ref) (h : Heap) (path' : list ref) (h' : Heap),
    cur <> -1 -> rooted startIdx came cur ->
    reconstruct a came fuel cur path h = Some (path', h') ->
    exists (l : list Cell) (refs : list ref),
      Trail a startIdx came cur l /\
      path' = refs ++ path /\
      read_refs h' refs = Some (reverse l) /\
      objs h `prefix_of` objs h' /\ arrs h' = arrs h.
Proof.
  induction fuel as [| fuel' IH]; intros cur path h path' h' Hcur Hroot; simpl; [done |].
  destruct (Z.eqb_spec cur (-1)) as [| _]; [done |].
  destruct (lookupZ came cur) as [nxt |] eqn:Hnxt; [| done].
  set (h1 := mkHeap (objs h ++ [cellOf a cur]) (arrs h)).
  assert (objs h1 !! length (objs h) = Some (cellOf a cur)) as Ho.
  { simpl. by rewrite lookup_app_r, Nat.sub_diag. }
  assert (objs h `prefix_of` objs h1) as Hpre by (by eexists).
  destruct (decide (nxt = -1)) as [-> | Hne].
  - destruct fuel' as [| fuel'']; simpl; [done |].
    intros [= <- <-].
    assert (cur = startIdx) as ->.
    { destruct Hroot as [-> | (m & Hm & Hm1)]; [done | congruence]. }
    exists [cellOf a startIdx], [length (objs h)]. repeat split; try done.
    + by apply Trail_root.
    + apply read_refs_Forall2. by repeat constructor.
  - intros Hrec.
    apply IH in Hrec as (l & refs & Htr & -> & Hread & Hpre' & Harr);
      [| done | by eapply came_rooted].
    exists (cellOf a cur :: l), (refs ++ [length (objs h)]). repeat split.
    + by eapply Trail_step.
    + by rewrite <- app_assoc.
    + rewrite reverse_cons. apply read_refs_snoc; [done |].
      exact (prefix_lookup_Some _ _ _ _ Ho Hpre').
    + by etrans.
    + done.
Qed.

Hypothesis came_steps :
  forall n m : Z, lookupZ came n = Some m -> m <> -1 ->
    inBounds (grid a) (cellOf a n) /\ passable (cellOf a n) = true /\
    kingStep (cellOf a m) (cellOf a n).

Lemma trail_valid (cur : Z) (l : list Cell) :
  inBounds (grid a) (cellOf a startIdx) ->
  Trail a startIdx came cur l ->
  validPath (grid a) passable (cellOf a startIdx) (cellOf a cur) (reverse l).
Proof.
  intros Hs. induction 1 as [Hroot | n m l Hn Hm Htr IH].
  - by apply validPath_single.
  - rewrite reverse_cons.
    destruct (came_steps n m Hn Hm) as (Hb & Hp & Hk).
    by eapply validPath_snoc.
Qed.
End Reconstruction.

(** ** Every computed path is a walk from the start to the goal *)

Lemma findPath_found_valid (a a' : AStar) (h h' : Heap) (start goal : Cell)
    (mask : Mask) (fuel : nat) (p : aref) :
  0 < cols (grid a) ->
  0 <= idx a start < rows (grid a) * cols (grid a) ->
  idx a goal <> -1 ->
  cache a !! cacheKey a start goal = None ->
  findPath a h start goal mask fuel = Some (Return (Some p), a', h') ->
  exists path : list Cell,
    read_path h' p = Some path /\
    validPath (grid a) (passablePredicate a mask)
      (cellOf a (idx a start)) (cellOf a (idx a goal)) path.
Proof.
  intros Hcols Hstart Hgoal Hmiss Hf.
  rewrite findPath_miss in Hf by (done || lia).
  destruct (searchLoop _ _ _ _ _ _) as [[e st] |] eqn:Hloop; [| done].
  destruct (decide _) as [| Hne]; [done |].
  destruct (reconstruct _ _ _ _ _ _) as [[refs h1] |] eqn:Hrec; [| done].
  apply searchLoop_inv with (startIdx := idx a start) in Hloop as [Hlen Hcame Hopen];
    [| apply initSearch_inv; [done | lia]].
  assert (rooted (idx a start) (cameFrom st) (idx a goal)) as Hroot.
  { destruct fuel as [| fuel']; simpl in Hrec; [done |].
    destruct (Z.eqb_spec (idx a goal) (-1)); [done |].
    destruct (lookupZ (cameFrom st) (idx a goal)) as [nxt |] eqn:Hnxt; [| done].
    right. exists nxt. split; [done | congruence]. }
  eapply reconstruct_trail in Hrec as (l & refs' & Htr & -> & Hread & Hpre & Harr);
    [| intros n m Hn Hm; by apply (Hcame n m) | done | done].
  rewrite app_nil_r in *.
  destruct (cacheAndReturn_spec a (cacheKey a start goal) refs' h1)
    as (a1 & h2 & Heq & _ & _ & Hobjs & Hp & _).
  rewrite Heq in Hf. injection Hf as <- <- <-.
  exists (reverse l). split.
  - unfold read_path. rewrite Hp. simpl.
    apply read_refs_extends with (h := h1); [by rewrite Hobjs | done].
  - eapply trail_valid; [| | done].
    + intros n m Hn Hm. destruct (Hcame n m Hn Hm) as (_ & ? & ? & ?). done.
    + by apply cellOf_inBounds.
Qed.

(** X25: a path that the main-thread [findPath] computes is a walk from
    the start to the goal.  When start and goal lie inside the grid and
    the query is not in the cache, the returned path begins with the
    start, ends with the goal, stays inside the grid, moves by at most
    one row and one column at each step without standing still, and
    every cell after the first passes the mask or predicate of the
    call. *)
Theorem findPath_computed_path_is_walk (a a' : AStar) (h h' : Heap) (start goal : Cell)
    (mask : Mask) (fuel : nat) (p : aref) :
  inBounds (grid a) start ->
  inBounds (grid a) goal ->
  cache a !! cacheKey a start goal = None ->
  findPath a h start goal mask fuel = Some (Return (Some p), a', h') ->
  exists path : list Cell,
    read_path h' p = Some path /\
    head path = Some start /\
    last path = Some goal /\
    Forall (inBounds (grid a)) path /\
    consecutive kingStep path /\
    Forall (fun q => passablePredicate a mask q = true) (tail path).
Proof.
  intros Hs Hg Hmiss Hf.
  pose proof (idx_in_range a start Hs) as Hsr.
  pose proof (idx_in_range a goal Hg) as Hgr.
  assert (0 < cols (grid a)) as Hcols by (destruct Hs; lia).
  destruct (findPath_found_valid a a' h h' start goal mask fuel p)
    as (path & Hread & [Hhd Hlast Hb Hsteps Hpass]); [done | done | lia | done | done |].
  rewrite cellOf_idx in Hhd by done. rewrite cellOf_idx in Hlast by done.
  by exists path.
Qed.

Lemma findPath_computed_path_is_walk_witness :
  exists path : list Cell,
    read_path
      (mkHeap [mkCell 2 2; mkCell 2 1; mkCell 1 0; mkCell 0 0]
              [[3; 2; 1; 0]; [3; 2; 1; 0]]%nat) 0%nat = Some path /\
    head path = Some (mkCell 0 0) /\
    last path = Some (mkCell 2 2) /\
    Forall (inBounds (grid (newAStar (newGrid 3 3)))) path /\
    consecutive kingStep path /\
    Forall (fun q => passablePredicate (newAStar (newGrid 3 3))
                       (MaskArr [1; 1; 1; 1; 0; 1; 1; 1; 1]) q = true) (tail path).
Proof.
  apply (findPath_computed_path_is_walk (newAStar (newGrid 3 3))
           (mkAStar (newGrid 3 3) {[ "0,0|2,2|3x3"%string := 1%nat ]} true)
           emptyHeap _
           (mkCell 0 0) (mkCell 2 2) (MaskArr [1; 1; 1; 1; 0; 1; 1; 1; 1]) 20 0%nat).
  - unfold inBounds; simpl; lia.
  - unfold inBounds; simpl; lia.
  - reflexivity.
  - vm_compute. reflexivity.
Defined.

(** ** Queries outside the grid *)

(** C2 (as stated, refuted): on a 2x2 grid the start (0,2) is outside the
    grid, yet the call is not rejected: the search runs and a path is
    returned. *)
Lemma out_of_bounds_start_is_searched : ~ rejectsOutOfBounds.
Proof.
  intros Hrej.
  assert (@Return aref (Some 0%nat) = RangeError) as Habs; [| discriminate Habs].
  eapply (Hrej (newAStar (newGrid 2 2)) _ emptyHeap _ (mkCell 0 2) (mkCell 1 1)
            MaskNone 10%nat).
  - left. unfold inBounds; simpl. lia.
  - vm_compute. reflexivity.
Qed.

(** C2 (amended): [findPath] has no bounds check.  When [rows * cols] is
    not negative, a call that returns yields [null] or a path, wherever
    start and goal lie; the coordinates only enter through the flat index
    [r * cols + c], so a computed path runs from the cell that has the
    flat index of the start to the cell that has the flat index of the
    goal. *)
Theorem findPath_has_no_bounds_check (a a' : AStar) (h h' : Heap) (start goal : Cell)
    (mask : Mask) (fuel : nat) (out : Outcome aref) :
  0 <= rows (grid a) * cols (grid a) ->
  findPath a h start goal mask fuel = Some (out, a', h') ->
  (exists r : option aref, out = Return r) /\
  (forall p : aref,
     out = Return (Some p) ->
     cache a !! cacheKey a start goal = None ->
     0 < cols (grid a) ->
     0 <= idx a start < rows (grid a) * cols (grid a) ->
     idx a goal <> -1 ->
     exists path : list Cell,
       read_path h' p = Some path /\
       head path = Some (cellOf a (idx a start)) /\
       last path = Some (cellOf a (idx a goal))).
Proof.
  intros Hsize Hf. split.
  - unfold findPath, cacheAndReturn, alloc_arr in Hf.
    destruct (Z.ltb_spec (rows (grid a) * cols (grid a)) 0) as [Hneg | _]; [lia |].
    repeat case_match; simplify_eq; eauto.
  - intros p -> Hmiss Hcols Hstart Hgoal.
    destruct (findPath_found_valid a a' h h' start goal mask fuel p)
      as (path & Hread & [Hhd Hlast _ _ _]); try done.
    by exists path.
Qed.

Lemma findPath_has_no_bounds_check_witness :
  (exists r : option aref, Return (Some 0%nat) = Return r) /\
  (forall p : aref,
     Return (Some 0%nat) = Return (Some p) ->
     cache (newAStar (newGrid 2 2)) !! cacheKey (newAStar (newGrid 2 2)) (mkCell 0 2) (mkCell 1 1)
       = None ->
     0 < cols (grid (newAStar (newGrid 2 2))) ->
     0 <= idx (newAStar (newGrid 2 2)) (mkCell 0 2)
       < rows (grid (newAStar (newGrid 2 2))) * cols (grid (newAStar (newGrid 2 2))) ->
     idx (newAStar (newGrid 2 2)) (mkCell 1 1) <> -1 ->
     exists path : list Cell,
       read_path (mkHeap [mkCell 1 1; mkCell 1 0] [[1; 0]; [1; 0]]%nat) p = Some path /\
       head path = Some (cellOf (newAStar (newGrid 2 2)) (idx (newAStar (newGrid 2 2)) (mkCell 0 2))) /\
       last path = Some (cellOf (newAStar (newGrid 2 2)) (idx (newAStar (newGrid 2 2)) (mkCell 1 1)))).
Proof.
  eapply (findPath_has_no_bounds_check (newAStar (newGrid 2 2)) _ emptyHeap _
            (mkCell 0 2) (mkCell 1 1) MaskNone 10).
  - simpl; lia.
  - vm_compute. reflexivity.
Defined.

(** The out-of-range start (0,2) of a 2x2 grid is served as the cell (1,0). *)
Example out_of_bounds_start_aliases :
  match findPath (newAStar (newGrid 2 2)) emptyHeap (mkCell 0 2) (mkCell 1 1) MaskNone 10 with
  | Some (Return (Some p), _, h') => read_path h' p
  | _ => None
  end = Some [mkCell 1 0; mkCell 1 1].
Proof. vm_compute. reflexivity. Qed.

(** ** When the frontier empties *)

Section FrontierEmpties.
Variable a : AStar.
Variable passable : Cell -> bool.
Variable goal : Cell.
Variable goalIdx : Z.

Lemma relax_length (current cr cc : Z) (st : Search) (n : Cell) :
  length (cameFrom (relax a passable goal current cr cc st n)) = length (cameFrom st).
Proof.
  unfold relax. destruct (negb _); [done |].
  destruct (PrimFloat.ltb _ _); [| done]. simpl. apply length_insertZ.
Qed.

Lemma relax_goalPending (current cr cc : Z) (st : Search) (n : Cell) :
  goalPending goalIdx st ->
  goalPending goalIdx (relax a passable goal current cr cc st n).
Proof.
  intros Hpend. unfold relax. destruct (negb _); [done |].
  destruct (PrimFloat.ltb _ _); [| done].
  intros m; simpl. intros Hm Hne. apply elem_of_setAdd.
  apply lookupZ_insertZ_inv in Hm as [[-> _] | Hm]; [by left |].
  right. by eapply Hpend.
Qed.

Lemma relax_fold_pending (current cr cc : Z) (ns : list Cell) (st : Search) :
  goalPending goalIdx st ->
  goalPending goalIdx (fold_left (relax a passable goal current cr cc) ns st) /\
  length (cameFrom (fold_left (relax a passable goal current cr cc) ns st))
  = length (cameFrom st).
Proof.
  revert st. induction ns as [| n ns IH]; intros st Hpend; simpl; [done |].
  destruct (IH (relax a passable goal current cr cc st n)) as [Hp Hl].
  - by apply relax_goalPending.
  - split; [done |]. by rewrite Hl, relax_length.
Qed.

(** The loop keeps the goal in the frontier from the moment it gets a
    predecessor, and leaves through [FrontierEmpty] only with an empty
    frontier. *)
Lemma searchLoop_pending (fuel : nat) (st st' : Search) (e : Exit) :
  goalPending goalIdx st ->
  searchLoop a passable goal goalIdx fuel st = Some (e, st') ->
  goalPending goalIdx st' /\
  length (cameFrom st') = length (cameFrom st) /\
  (e = FrontierEmpty -> open st' = []).
Proof.
  revert st. induction fuel as [| fuel IH]; intros st Hpend; simpl; [done |].
  destruct (open st) as [| k0 op] eqn:Hop; [by intros [= <- <-] |].
  destruct (Z.eqb_spec (pickLowest (f st) (k0 :: op)) goalIdx) as [_ | Hne];
    [by intros [= <- <-] |].
  intros Hloop. unfold expand in Hloop.
  match type of Hloop with
  | searchLoop _ _ _ _ _ (fold_left ?fn ?ns ?s0) = _ =>
      destruct (relax_fold_pending (pickLowest (f st) (k0 :: op))
                  (pickLowest (f st) (k0 :: op) / cols (grid a))
                  (Z.rem (pickLowest (f st) (k0 :: op)) (cols (grid a))) ns s0)
        as [Hp Hl]
  end.
  { intros m; simpl. intros Hm Hm1. apply elem_of_setDelete. split; [congruence |].
    rewrite <- Hop. by eapply Hpend. }
  apply IH in Hloop as (Hp' & Hl' & He); [| done].
  split; [done |]. split; [| done]. by rewrite Hl', Hl.
Qed.
End FrontierEmpties.

Lemma findPath_frontier_empty (a : AStar) (h : Heap) (start goal : Cell) (mask : Mask)
    (fuel : nat) (st : Search) :
  cache a !! cacheKey a start goal = None ->
  0 <= idx a goal < rows (grid a) * cols (grid a) ->
  searchLoop a (passablePredicate a mask) goal (idx a goal) fuel (initSearch a start goal)
  = Some (FrontierEmpty, st) ->
  findPath a h start goal mask fuel = Some (Return None, a, h).
Proof.
  intros Hmiss Hgoal Hloop.
  rewrite findPath_miss by (done || lia). rewrite Hloop.
  apply searchLoop_pending in Hloop as (Hpend & Hlen & Hempty).
  - destruct (decide _) as [| Hne]; [done |]. exfalso.
    destruct (lookupZ_in_range (cameFrom st) (idx a goal)) as [m Hm].
    { rewrite Hlen. simpl. rewrite length_replicate. lia. }
    destruct (decide (m = -1)) as [-> | Hm1]; [done |].
    specialize (Hpend m Hm Hm1). rewrite (Hempty eq_refl) in Hpend.
    by apply elem_of_nil in Hpend.
  - intros m Hm Hm1. simpl in Hm. apply lookupZ_replicate in Hm. done.
Qed.

(** ** The binary heap of the worker holds what was pushed *)

Section WorkerHeap.
Variable fa : list float.
Implicit Types (hp : list Z) (i j k : nat) (x : Z).

Lemma heapAt_lookup hp i x : hp !! i = Some x -> Worker.heapAt hp i = x.
Proof. intros H. unfold Worker.heapAt. by rewrite H. Qed.

Lemma swap_length hp i j : length (Worker.swap hp i j) = length hp.
Proof. unfold Worker.swap. by rewrite !length_insert. Qed.

Lemma swap_elem hp i j x :
  (i < length hp)%nat -> (j < length hp)%nat ->
  x ∈ Worker.swap hp i j <-> x ∈ hp.
Proof.
  intros Hi Hj.
  destruct (lookup_lt_is_Some_2 hp i Hi) as [xi Hxi].
  destruct (lookup_lt_is_Some_2 hp j Hj) as [xj Hxj].
  unfold Worker.swap. rewrite (heapAt_lookup _ _ _ Hxi), (heapAt_lookup _ _ _ Hxj).
  rewrite !list_elem_of_lookup. split.
  - intros [k Hk].
    destruct (decide (k = j)) as [-> | Hkj].
    { rewrite list_lookup_insert_eq in Hk by (by rewrite length_insert).
      simplify_eq. eauto. }
    rewrite list_lookup_insert_ne in Hk by done.
    destruct (decide (k = i)) as [-> | Hki].
    { rewrite list_lookup_insert_eq in Hk by done. simplify_eq. eauto. }
    rewrite list_lookup_insert_ne in Hk by done. eauto.
  - intros [k Hk].
    destruct (decide (k = j)) as [-> | Hkj].
    { destruct (decide (i = j)) as [-> | Hij].
      - exists j. rewrite list_lookup_insert_eq by (by rewrite length_insert). congruence.
      - exists i. rewrite list_lookup_insert_ne by done.
        rewrite list_lookup_insert_eq by done. congruence. }
    destruct (decide (k = i)) as [-> | Hki].
    { exists j. rewrite list_lookup_insert_eq by (by rewrite length_insert). congruence. }
    exists k. by rewrite !list_lookup_insert_ne.
Qed.

Lemma siftUp_elem (fuel : nat) :
  forall hp i x, (i < length hp)%nat ->
    x ∈ Worker.siftUp fa fuel i hp <-> x ∈ hp.
Proof.
  induction fuel as [| fuel IH]; intros hp i x Hi; simpl; [done |].
  destruct (0 <? i)%nat eqn:Hpos; [| done].
  destruct (PrimFloat.ltb _ _); [| done].
  assert ((i - 1) / 2 < length hp)%nat as Hp.
  { pose proof (Nat.Div0.div_le_upper_bound (i - 1) 2 (i - 1)). lia. }
  rewrite IH by (by rewrite swap_length).
  by apply swap_elem.
Qed.

Lemma siftDown_elem (fuel : nat) :
  forall hp i x, x ∈ Worker.siftDown fa fuel i hp <-> x ∈ hp.
Proof.
  induction fuel as [| fuel IH]; intros hp i x; simpl; [done |].
  repeat match goal with
         | |- context [((?u <? ?v)%nat && ?c)] =>
             let Hc := fresh "Hc" in destruct ((u <? v)%nat && c) eqn:Hc
         end;
    repeat match goal with
           | Hc : _ && _ = true |- _ => apply andb_true_iff in Hc as [?%Nat.ltb_lt _]
           end;
    match goal with
    | |- context [(?s =? i)%nat] => destruct (Nat.eqb_spec s i); simpl; [done |]
    end;
    rewrite IH; apply swap_elem; lia.
Qed.

Lemma heapPush_elem hp (k x : Z) :
  x ∈ Worker.heapPush fa k hp <-> x = k \/ x ∈ hp.
Proof.
  unfold Worker.heapPush.
  rewrite siftUp_elem by (rewrite length_app; simpl; lia).
  rewrite elem_of_app, list_elem_of_singleton. tauto.
Qed.

Lemma heapPop_elem hp (top : Z) hp' x :
  Worker.heapPop fa hp = (top, hp') -> x ∈ hp -> x = top \/ x ∈ hp'.
Proof.
  unfold Worker.heapPop. destruct hp as [| t tl]; [by intros _ ?%elem_of_nil |].
  destruct (decide (tl = [])) as [-> | Hne].
  - simpl. intros [= <- <-] Hx%list_elem_of_singleton. by left.
  - destruct (exists_last Hne) as (tl' & z & ->).
    replace (length (t :: tl' ++ [z]) - 1)%nat with (length (t :: tl'))
      by (simpl; rewrite length_app; simpl; lia).
    rewrite (app_comm_cons tl' [z] t), take_app_length.
    lazy beta iota zeta. intros Heq Hx.
    assert (hp' = Worker.siftDown fa (length (t :: tl')) 0
                    (<[0%nat := Worker.heapAt ((t :: tl') ++ [z]) (length (t :: tl'))]>
                       (t :: tl')) /\ top = t) as [-> ->].
    { split; congruence. }
    rewrite siftDown_elem.
    apply elem_of_app in Hx as [Hx | Hx%list_elem_of_singleton].
    + apply elem_of_cons in Hx as [-> | Hx]; [by left |].
      right. simpl. apply elem_of_cons. by right.
    + right. simpl. apply elem_of_cons. left.
      rewrite Hx. symmetry. apply heapAt_lookup.
      change (((t :: tl') ++ [z]) !! length (t :: tl') = Some z).
      by rewrite lookup_app_r, Nat.sub_diag.
Qed.
End WorkerHeap.

(** ** When the heap of the worker empties *)

Section WorkerFrontier.
Variable m : Worker.Msg.
Variable goalIdx : Z.

Lemma worker_relax_cases (current cr cc : Z) (st : Worker.State) (d : Z * Z) :
  Worker.relax m current cr cc st d = st \/
  exists (ni : Z) (g' f' : list float),
    (Worker.relax m current cr cc st d
     = Worker.mkState g' f' (insertZ ni current (Worker.came st))
         (insertZ ni 1 (Worker.open st)) (Worker.heapPush f' ni (Worker.heap st)))
    \/
    (Worker.relax m current cr cc st d
     = Worker.mkState g' f' (insertZ ni current (Worker.came st))
         (Worker.open st) (Worker.heap st) /\
     exists v : Z, lookupZ (Worker.open st) ni = Some v /\ v <> 0).
Proof.
  unfold Worker.relax.
  destruct (_ || _); [by left |].
  destruct (lookupZ (Worker.m_passable m) _) as [[| pv | pv] |]; try by left.
  all: destruct (PrimFloat.ltb _ _); [| by left].
  all: right; eexists _, _, _.
  all: destruct (lookupZ (Worker.open st) _) as [[| ov | ov] |] eqn:Hov;
    solve [by left | right; split; [done | eexists; split; [done | lia]]].
Qed.

Lemma worker_relax_pending (current cr cc : Z) (st : Worker.State) (d : Z * Z) :
  WorkerPending goalIdx st ->
  WorkerPending goalIdx (Worker.relax m current cr cc st d) /\
  length (Worker.came (Worker.relax m current cr cc st d)) = length (Worker.came st).
Proof.
  intros [Hcame Hopen].
  destruct (worker_relax_cases current cr cc st d)
    as [-> | (ni & g' & f' & [-> | [-> (v & Hv & Hv0)]])]; [done | |].
  - split; [constructor; simpl | simpl; apply length_insertZ].
    + intros m0 Hm Hm0. apply heapPush_elem.
      apply lookupZ_insertZ_inv in Hm as [[-> _] | Hm]; [by left |].
      right. by eapply Hcame.
    + intros v Hv Hv0. apply heapPush_elem.
      apply lookupZ_insertZ_inv in Hv as [[-> _] | Hv]; [by left |].
      right. by eapply Hopen.
  - split; [constructor; simpl | simpl; apply length_insertZ].
    + intros m0 Hm Hm0.
      apply lookupZ_insertZ_inv in Hm as [[-> _] | Hm].
      * by eapply Hopen.
      * by eapply Hcame.
    + done.
Qed.

Lemma worker_relax_fold_pending (current cr cc : Z) (ds : list (Z * Z))
    (st : Worker.State) :
  WorkerPending goalIdx st ->
  WorkerPending goalIdx (fold_left (Worker.relax m current cr cc) ds st) /\
  length (Worker.came (fold_left (Worker.relax m current cr cc) ds st))
  = length (Worker.came st).
Proof.
  revert st. induction ds as [| d ds IH]; intros st Hpend; simpl; [done |].
  destruct (worker_relax_pending current cr cc st d Hpend) as [Hp Hl].
  destruct (IH _ Hp) as [Hp' Hl']. split; [done | congruence].
Qed.

Lemma worker_searchLoop_S (fuel : nat) (st : Worker.State) :
  Worker.searchLoop m goalIdx (S fuel) st
  = match Worker.heap st with
    | [] => Some (FrontierEmpty, st)
    | _ :: _ =>
        let '(current, hp') := Worker.heapPop (Worker.f st) (Worker.heap st) in
        let st1 := Worker.mkState (Worker.g st) (Worker.f st) (Worker.came st)
                     (Worker.open st) hp' in
        if current =? goalIdx then Some (GoalReached, st1)
        else Worker.searchLoop m goalIdx fuel
               (fold_left (Worker.relax m current (Z.quot current (Worker.m_cols m))
                             (Z.rem current (Worker.m_cols m))) dirs8 st1)
    end.
Proof. reflexivity. Qed.

Lemma worker_searchLoop_pending (fuel : nat) (st st' : Worker.State) (e : Exit) :
  WorkerPending goalIdx st ->
  Worker.searchLoop m goalIdx fuel st = Some (e, st') ->
  length (Worker.came st') = length (Worker.came st) /\
  (e = FrontierEmpty -> WorkerPending goalIdx st' /\ Worker.heap st' = []).
Proof.
  revert st. induction fuel as [| fuel IH]; intros st Hpend Hloop; [done |].
  rewrite worker_searchLoop_S in Hloop.
  destruct (Worker.heap st) as [| k0 hp] eqn:Hheap.
  { injection Hloop as <- <-. done. }
  destruct (Worker.heapPop (Worker.f st) (k0 :: hp)) as [current hp'] eqn:Hpop.
  cbv zeta in Hloop.
  destruct (Z.eqb_spec current goalIdx) as [-> | Hne].
  - injection Hloop as <- <-. simpl. split; done.
  - assert (WorkerPending goalIdx
              (Worker.mkState (Worker.g st) (Worker.f st) (Worker.came st)
                 (Worker.open st) hp')) as Hp1.
    { destruct Hpend as [Hcame Hopen]. constructor; simpl.
      - intros m0 Hm Hm0. specialize (Hcame m0 Hm Hm0). rewrite Hheap in Hcame.
        destruct (heapPop_elem _ _ _ _ goalIdx Hpop Hcame) as [Heq | Hin]; [congruence | done].
      - intros v Hv Hv0. specialize (Hopen v Hv Hv0). rewrite Hheap in Hopen.
        destruct (heapPop_elem _ _ _ _ goalIdx Hpop Hopen) as [Heq | Hin]; [congruence | done]. }
    destruct (worker_relax_fold_pending current (Z.quot current (Worker.m_cols m))
                (Z.rem current (Worker.m_cols m)) dirs8 _ Hp1) as [Hp Hl].
    apply IH in Hloop as (Hl' & He); [| done].
    split; [| done]. by rewrite Hl', Hl.
Qed.
End WorkerFrontier.

Lemma worker_frontier_empty (m : Worker.Msg) (fuel : nat) (st : Worker.State) :
  let goalIdx := Worker.idx (Worker.m_cols m) (cell_r (Worker.m_goal m))
                   (cell_c (Worker.m_goal m)) in
  0 <= goalIdx < Worker.m_rows m * Worker.m_cols m ->
  Worker.searchLoop m goalIdx fuel (Worker.initState m) = Some (FrontierEmpty, st) ->
  Worker.onmessage m fuel = Some (Return None).
Proof.
  intros goalIdx Hgoal Hloop. unfold Worker.onmessage.
  destruct (Z.ltb_spec (Worker.m_rows m * Worker.m_cols m) 0) as [Hneg | _]; [lia |].
  fold goalIdx. rewrite Hloop.
  apply worker_searchLoop_pending in Hloop as (Hlen & Hempty).
  - destruct (Hempty eq_refl) as [[Hcame _] Hheap].
    destruct (lookupZ_in_range (Worker.came st) goalIdx) as [m0 Hm0].
    { rewrite Hlen. simpl. rewrite length_replicate. lia. }
    rewrite Hm0.
    destruct (decide (m0 = -1)) as [-> | Hne]; [done |].
    specialize (Hcame m0 Hm0 Hne). rewrite Hheap in Hcame.
    by apply elem_of_nil in Hcame.
  - constructor; simpl.
    + intros m0 Hm0 Hne. apply lookupZ_replicate in Hm0. done.
    + intros v Hv Hv0. apply heapPush_elem.
      apply lookupZ_insertZ_inv in Hv as [[Heq _] | Hv]; [by left |].
      apply lookupZ_replicate in Hv. done.
Qed.

(** C7: when the frontier empties without the goal having been taken
    from it, the main-thread [findPath] returns [null] (and leaves the
    cache and the store as they were), and the worker posts a [null]
    path; neither raises an error.  The flat index of the goal lies
    within the typed arrays. *)
Theorem frontier_empty_returns_null
    (a : AStar) (h : Heap) (start goal : Cell) (mask : Mask) (fuel : nat) (st : Search)
    (m : Worker.Msg) (wfuel : nat) (wst : Worker.State) :
  (cache a !! cacheKey a start goal = None ->
   0 <= idx a goal < rows (grid a) * cols (grid a) ->
   searchLoop a (passablePredicate a mask) goal (idx a goal) fuel (initSearch a start goal)
   = Some (FrontierEmpty, st) ->
   findPath a h start goal mask fuel = Some (Return None, a, h))
  /\
  (0 <= Worker.idx (Worker.m_cols m) (cell_r (Worker.m_goal m)) (cell_c (Worker.m_goal m))
     < Worker.m_rows m * Worker.m_cols m ->
   Worker.searchLoop m
     (Worker.idx (Worker.m_cols m) (cell_r (Worker.m_goal m)) (cell_c (Worker.m_goal m)))
     wfuel (Worker.initState m) = Some (FrontierEmpty, wst) ->
   Worker.onmessage m wfuel = Some (Return None)).
Proof.
  split.
  - intros Hmiss Hgoal Hloop. by eapply findPath_frontier_empty.
  - intros Hgoal Hloop. by eapply worker_frontier_empty.
Qed.

Lemma frontier_empty_returns_null_witness :
  findPath walled emptyHeap (mkCell 0 0) (mkCell 0 2) (MaskArr walled_mask) 10
  = Some (Return None, walled, emptyHeap) /\
  Worker.onmessage walled_msg 10 = Some (Return None).
Proof.
  destruct (frontier_empty_returns_null walled emptyHeap (mkCell 0 0) (mkCell 0 2)
              (MaskArr walled_mask) 10 walled_final walled_msg 10 walled_worker_final)
    as [Hsync Hworker].
  split.
  - apply Hsync.
    + reflexivity.
    + unfold idx; simpl; lia.
    + vm_compute. reflexivity.
  - apply Hworker.
    + unfold Worker.idx; simpl; lia.
    + vm_compute. reflexivity.
Defined.


(** On the 1x520 corridor the path of 520 cells is returned and the cache
    stays empty; on a 1x3 corridor the path of 3 cells is stored. *)
Example corridor_path_not_cached :
  corridor_run = Some (Return (Some 0%nat), corridor_engine, corridor_heap) /\
  option_map length (read_path corridor_heap 0%nat) = Some 520%nat /\
  cache corridor_engine = ∅.
Proof. vm_compute. done. Qed.

Example short_path_cached :
  match findPath (newAStar (newGrid 1 3)) emptyHeap (mkCell 0 0) (mkCell 0 2) MaskNone 10 with
  | Some (Return (Some p), a', h') =>
      (read_path h' p, map_to_list (cache a'),
       cache a' !! "0,0|0,2|1x3"%string ≫= read_path h')
  | _ => (None, [], None)
  end
  = (Some [mkCell 0 0; mkCell 0 1; mkCell 0 2], [("0,0|0,2|1x3"%string, 1%nat)],
     Some [mkCell 0 0; mkCell 0 1; mkCell 0 2]).
Proof. vm_compute. reflexivity. Qed.

(** ** The cache and the arrays handed to the caller *)

Lemma reconstruct_heap (a : AStar) (came : list Z) (fuel : nat) :
  forall (cur : Z) (path : list ref) (h : Heap) (path' : list ref) (h' : Heap),
    reconstruct a came fuel cur path h = Some (path', h') ->
    objs h `prefix_of` objs h' /\ arrs h' = arrs h.
Proof.
  induction fuel as [| fuel IH]; intros cur path h path' h'; simpl; [done |].
  destruct (cur =? -1); [by intros [= <- <-] |].
  destruct (lookupZ came cur) as [nxt |]; [| done].
  intros Hrec. apply IH in Hrec as [Hpre Harr]. simpl in *. split; [| done].
  etrans; [| exact Hpre]. by eexists.
Qed.

Lemma cacheKey_grid (a a' : AStar) (start goal : Cell) :
  grid a' = grid a -> cacheKey a' start goal = cacheKey a start goal.
Proof. intros Hg. unfold cacheKey. by rewrite Hg. Qed.

(** What a call that returns a path does to the store and to the cache:
    the returned array is new, and the cache either is as before or has
    one more entry, a second new array with the same elements. *)
Lemma findPath_returns_fresh (a a1 : AStar) (h h1 : Heap) (start goal : Cell)
    (mask : Mask) (fuel : nat) (p : aref) :
  findPath a h start goal mask fuel = Some (Return (Some p), a1, h1) ->
  grid a1 = grid a /\
  objs h `prefix_of` objs h1 /\
  p = length (arrs h) /\
  exists refs : list ref,
    arrs h1 !! p = Some refs /\
    ((a1 = a /\ arrs h1 = arrs h ++ [refs] /\
      forall c, cache a !! cacheKey a start goal = Some c -> arrs h !! c = Some refs)
     \/
     (cache a !! cacheKey a start goal = None /\
      cache a1 = <[cacheKey a start goal := S p]> (cache a) /\
      arrs h1 = arrs h ++ [refs; refs])).
Proof.
  intros Hf.
  destruct (cache a !! cacheKey a start goal) as [c |] eqn:Hc.
  - unfold findPath in Hf. rewrite Hc in Hf.
    destruct (arrs h !! c) as [l |] eqn:Hl; [| done].
    unfold alloc_arr in Hf. injection Hf as <- <- <-. simpl.
    split; [done |]. split; [done |]. split; [done |].
    exists l. split; [by rewrite lookup_app_r, Nat.sub_diag |].
    left. split; [done |]. split; [done |]. intros c' [= <-]. done.
  - destruct (Z.ltb_spec (rows (grid a) * cols (grid a)) 0) as [Hneg | Hsize].
    { unfold findPath in Hf. rewrite Hc in Hf.
      destruct (Z.ltb_spec (rows (grid a) * cols (grid a)) 0); [done | lia]. }
    rewrite findPath_miss in Hf by done.
    destruct (searchLoop _ _ _ _ _ _) as [[e st] |]; [| done].
    destruct (decide _); [done |].
    destruct (reconstruct _ _ _ _ _ _) as [[refs h0] |] eqn:Hrec; [| done].
    apply reconstruct_heap in Hrec as [Hpre Harr].
    destruct (cacheAndReturn_spec a (cacheKey a start goal) refs h0)
      as (a2 & h2 & Heq & Hg & _ & Hobjs & Hp & Hcases).
    rewrite Heq in Hf. injection Hf as <- <- <-.
    split; [done |]. split; [by rewrite Hobjs |]. split; [by rewrite Harr |].
    exists refs. split; [done |].
    destruct Hcases as [(Hlt & Harr2 & Hcache) | (Hge & Harr2 & ->)].
    + right. split; [done |]. by rewrite Harr2, Hcache, Harr.
    + left. split; [done |]. split; [by rewrite Harr2, Harr |]. done.
Qed.

Lemma cacheHolds_established (a a1 : AStar) (h h1 : Heap) (start goal : Cell)
    (mask : Mask) (fuel : nat) (p : aref) (v : list Cell) :
  cacheWF a h ->
  findPath a h start goal mask fuel = Some (Return (Some p), a1, h1) ->
  read_path h1 p = Some v ->
  is_Some (cache a1 !! cacheKey a1 start goal) ->
  cacheHolds a1 h1 (cacheKey a1 start goal) v /\
  (forall (k : string) (c : aref), cache a1 !! k = Some c -> c <> p).
Proof.
  intros Hwf Hf Hread [c Hc].
  destruct (findPath_returns_fresh _ _ _ _ _ _ _ _ _ Hf)
    as (Hg & Hpre & -> & refs & Hp & Hcases).
  rewrite (cacheKey_grid a a1) in * by done.
  unfold read_path in Hread. rewrite Hp in Hread. simpl in Hread.
  destruct Hcases as [(-> & Harr & Hhit) | (Hmiss & Hcache & Harr)].
  - assert (cacheWF a h1) as Hwf1.
    { intros k c' Hk. specialize (Hwf k c' Hk). rewrite Harr, length_app. lia. }
    split; [split; [done |] |].
    + exists c, refs. split; [done |]. split; [| done].
      rewrite Harr. rewrite lookup_app_l by exact (Hwf _ _ Hc). by apply Hhit.
    + intros k c' Hk. specialize (Hwf k c' Hk). lia.
  - assert (cacheWF a1 h1) as Hwf1.
    { intros k c' Hk. rewrite Hcache in Hk. rewrite Harr, length_app. simpl.
      destruct (decide (k = cacheKey a start goal)) as [-> | Hne].
      - rewrite lookup_insert_eq in Hk. injection Hk as <-. lia.
      - rewrite lookup_insert_ne in Hk by done. specialize (Hwf k c' Hk). lia. }
    split; [split; [done |] |].
    + exists c, refs. split; [done |]. split; [| done].
      rewrite Hcache, lookup_insert_eq in Hc. injection Hc as <-.
      rewrite Harr. rewrite lookup_app_r by lia.
      by replace (S (length (arrs h)) - length (arrs h))%nat with 1%nat by lia.
    + intros k c' Hk. rewrite Hcache in Hk.
      destruct (decide (k = cacheKey a start goal)) as [-> | Hne].
      * rewrite lookup_insert_eq in Hk. injection Hk as <-. lia.
      * rewrite lookup_insert_ne in Hk by done. specialize (Hwf k c' Hk). lia.
Qed.

Lemma cacheHolds_mutated (a1 : AStar) (h h' : Heap) (key : string) (v : list Cell) :
  cacheHolds a1 h key v -> arraysMutated a1 h h' -> cacheHolds a1 h' key v.
Proof.
  intros [Hwf (c & refs & Hc & Harr & Hread)] (Hobjs & Hlen & Hsame). split.
  - intros k c' Hk. specialize (Hwf k c' Hk). lia.
  - exists c, refs. split; [done |]. split.
    + by rewrite (Hsame key c Hc).
    + by eapply read_refs_extends.
Qed.

Lemma cacheHolds_hit (a1 : AStar) (h : Heap) (start goal : Cell) (mask : Mask)
    (fuel : nat) (v : list Cell) :
  cacheHolds a1 h (cacheKey a1 start goal) v ->
  exists h' : Heap,
    findPath a1 h start goal mask fuel
    = Some (Return (Some (length (arrs h))), a1, h') /\
    read_path h' (length (arrs h)) = Some v /\
    cacheHolds a1 h' (cacheKey a1 start goal) v /\
    (forall (k : string) (c : aref), cache a1 !! k = Some c -> c <> length (arrs h)).
Proof.
  intros [Hwf (c & refs & Hc & Harr & Hread)].
  eexists. split; [by eapply findPath_hit |]. split; [| split].
  - unfold read_path; simpl. rewrite lookup_app_r, Nat.sub_diag by lia. done.
  - split.
    + intros k c' Hk. specialize (Hwf k c' Hk). simpl. rewrite length_app. lia.
    + exists c, refs. split; [done |]. split; [| done].
      simpl. rewrite lookup_app_l; [done | exact (Hwf _ _ Hc)].
  - intros k c' Hk. specialize (Hwf k c' Hk). lia.
Qed.

Lemma findPath_no_path_unchanged (a a' : AStar) (h h' : Heap) (start goal : Cell)
    (mask : Mask) (fuel : nat) (out : Outcome aref) :
  findPath a h start goal mask fuel = Some (out, a', h') ->
  (forall p : aref, out <> Return (Some p)) ->
  a' = a /\ h' = h.
Proof.
  unfold findPath, cacheAndReturn, alloc_arr. intros Hf Hout.
  repeat case_match; simplify_eq; try done; by edestruct Hout.
Qed.

Lemma cacheHolds_call (a a' : AStar) (h h' : Heap) (s t : Cell) (mask : Mask)
    (fuel : nat) (out : Outcome aref) (key : string) (v : list Cell) :
  cacheHolds a h key v ->
  findPath a h s t mask fuel = Some (out, a', h') ->
  cacheHolds a' h' key v /\ grid a' = grid a.
Proof.
  intros [Hwf (c & refs & Hc & Harr & Hread)] Hf.
  assert ((exists p, out = Return (Some p)) \/ (forall p, out <> Return (Some p)))
    as [[p ->] | Hnone].
  { destruct out as [| [p |]]; eauto; right; intros p; congruence. }
  - destruct (findPath_returns_fresh _ _ _ _ _ _ _ _ _ Hf)
      as (Hg & Hpre & -> & refs' & Hp & Hcases).
    split; [| done].
    destruct Hcases as [(-> & Harr' & _) | (Hmiss & Hcache & Harr')].
    + split.
      * intros k c' Hk. specialize (Hwf k c' Hk). rewrite Harr', length_app. lia.
      * exists c, refs. split; [done |]. split.
        -- rewrite Harr'. rewrite lookup_app_l by exact (Hwf _ _ Hc). done.
        -- by eapply read_refs_extends.
    + assert (key <> cacheKey a s t) as Hne by congruence.
      split.
      * intros k c' Hk. rewrite Hcache in Hk. rewrite Harr', length_app. simpl.
        destruct (decide (k = cacheKey a s t)) as [-> | Hk'].
        -- rewrite lookup_insert_eq in Hk. injection Hk as <-. lia.
        -- rewrite lookup_insert_ne in Hk by done. specialize (Hwf k c' Hk). lia.
      * exists c, refs. split; [| split].
        -- rewrite Hcache. by rewrite lookup_insert_ne.
        -- rewrite Harr'. rewrite lookup_app_l by exact (Hwf _ _ Hc). done.
        -- by eapply read_refs_extends.
  - destruct (findPath_no_path_unchanged _ _ _ _ _ _ _ _ _ Hf Hnone) as [-> ->].
    split; [| done]. split; [done |]. by exists c, refs.
Qed.

Lemma cacheHolds_session (x y : AStar * Heap) (key : string) (v : list Cell) :
  Session x y ->
  cacheHolds (fst x) (snd x) key v ->
  cacheHolds (fst y) (snd y) key v /\ grid (fst y) = grid (fst x).
Proof.
  induction 1 as [x | x a h h' Hs IH Hmut | x a a' h h' s t mask fuel out Hs IH Hcall];
    intros Hx.
  - done.
  - destruct (IH Hx) as [Hh Hg]. simpl in *. split; [| done].
    by eapply cacheHolds_mutated.
  - destruct (IH Hx) as [Hh Hg]. simpl in *.
    destruct (cacheHolds_call _ _ _ _ _ _ _ _ _ _ _ Hh Hcall) as [Hh' Hg'].
    split; [done | congruence].
Qed.

(** Only a path of fewer than 512 cells is stored (line 260). *)
Lemma findPath_short_cached (a a1 : AStar) (h h1 : Heap) (s t : Cell) (mask : Mask)
    (fuel : nat) (p : aref) (v : list Cell) :
  findPath a h s t mask fuel = Some (Return (Some p), a1, h1) ->
  read_path h1 p = Some v ->
  (length v < 512)%nat ->
  is_Some (cache a1 !! cacheKey a1 s t).
Proof.
  intros Hf Hread Hlen.
  destruct (cache a !! cacheKey a s t) as [c |] eqn:Hc.
  - destruct (findPath_returns_fresh _ _ _ _ _ _ _ _ _ Hf)
      as (Hg & _ & _ & refs & _ & [(-> & _) | (Hmiss & _)]); [by eexists | congruence].
  - destruct (Z.ltb_spec (rows (grid a) * cols (grid a)) 0) as [Hneg | Hsize].
    { unfold findPath in Hf. rewrite Hc in Hf.
      destruct (Z.ltb_spec (rows (grid a) * cols (grid a)) 0); [done | lia]. }
    rewrite findPath_miss in Hf by done.
    destruct (searchLoop _ _ _ _ _ _) as [[e st] |]; [| done].
    destruct (decide _); [done |].
    destruct (reconstruct _ _ _ _ _ _) as [[path h0] |]; [| done].
    destruct (cacheAndReturn_spec a (cacheKey a s t) path h0)
      as (a2 & h2 & Heq & Hg & _ & _ & Hp & Hcases).
    rewrite Heq in Hf. injection Hf as <- <- <-.
    rewrite (cacheKey_grid a a2) by done.
    destruct Hcases as [(_ & _ & ->) | (Hge & _ & _)].
    + rewrite lookup_insert_eq. by eexists.
    + unfold read_path in Hread. rewrite Hp in Hread. simpl in Hread.
      apply length_mapM in Hread. lia.
Qed.

(** C3 (amended): a path returned by [findPath] is an array of its own,
    distinct from every array of the cache.  When the path is in the
    cache, that is when it has fewer than 512 cells (line 260 stores no
    longer one) or the call was itself served from the cache, then
    whatever the caller does to the arrays it holds (the coordinate
    objects keep their fields), and whatever other calls of [findPath]
    come in between, a later call with the same start and goal is served
    from the cache and returns a new array whose value is the path first
    returned. *)
Theorem cache_hit_survives_array_mutation (a a1 a2 : AStar) (h h1 h2 : Heap)
    (start goal : Cell) (mask mask' : Mask) (fuel fuel' : nat) (p : aref)
    (v : list Cell) :
  cacheWF a h ->
  findPath a h start goal mask fuel = Some (Return (Some p), a1, h1) ->
  read_path h1 p = Some v ->
  (length v < 512)%nat \/ is_Some (cache a !! cacheKey a start goal) ->
  Session (a1, h1) (a2, h2) ->
  (forall (k : string) (c : aref), cache a1 !! k = Some c -> c <> p) /\
  exists h3 : Heap,
    findPath a2 h2 start goal mask' fuel'
    = Some (Return (Some (length (arrs h2))), a2, h3) /\
    read_path h3 (length (arrs h2)) = Some v.
Proof.
  intros Hwf Hf Hread Hstored Hsession.
  assert (is_Some (cache a1 !! cacheKey a1 start goal)) as Hcached.
  { destruct Hstored as [Hlen | [c Hc]].
    - by eapply findPath_short_cached.
    - destruct (findPath_returns_fresh _ _ _ _ _ _ _ _ _ Hf)
        as (_ & _ & _ & refs & _ & [(-> & _) | (Hmiss & _)]);
        [by eexists | congruence]. }
  destruct (cacheHolds_established _ _ _ _ _ _ _ _ _ _ Hwf Hf Hread Hcached)
    as [Hholds Hfresh].
  split; [done |].
  destruct (cacheHolds_session _ _ _ _ Hsession Hholds) as [Hholds2 Hg]. simpl in *.
  rewrite <- (cacheKey_grid a1 a2) in Hholds2 by done.
  destruct (cacheHolds_hit a2 h2 start goal mask' fuel' v Hholds2)
    as (h3 & Hhit & Hread3 & _ & _).
  by exists h3.
Qed.

Lemma cache_hit_survives_array_mutation_witness :
  (forall (k : string) (c : aref), cache pair_cached !! k = Some c -> c <> 0%nat) /\
  exists h3 : Heap,
    findPath pair_cached pair_heap_emptied (mkCell 0 0) (mkCell 0 1) MaskNone 0
    = Some (Return (Some (length (arrs pair_heap_emptied))), pair_cached, h3) /\
    read_path h3 (length (arrs pair_heap_emptied)) = Some [mkCell 0 0; mkCell 0 1].
Proof.
  apply (cache_hit_survives_array_mutation pair_engine pair_cached pair_cached
           emptyHeap pair_heap pair_heap_emptied (mkCell 0 0) (mkCell 0 1)
           MaskNone MaskNone 10 0 0%nat).
  - intros k c Hk. vm_compute in Hk. discriminate Hk.
  - vm_compute. reflexivity.
  - vm_compute. reflexivity.
  - left. simpl. lia.
  - eapply Session_mutate; [apply Session_start |].
    split; [done |]. split; [simpl; lia |].
    intros k c Hk. simpl in Hk.
    apply lookup_singleton_Some in Hk as [<- <-]. reflexivity.
Defined.

(** C3 (as stated, refuted): on a 1x2 grid the path from (0,0) to (0,1)
    is returned and cached; the caller then writes (7,7) into the first
    coordinate object of the returned path; the next call with the same
    start and goal is a cache hit and returns (7,7),(0,1). *)
Lemma cache_hit_sees_coordinate_mutation : ~ cacheHitsIgnoreMutation.
Proof.
  intros Hclaim.
  assert (read_path
            (mkHeap [mkCell 0 1; mkCell 7 7] [[1; 0]; [1; 0]; [1; 0]]%nat) 2%nat
          = Some [mkCell 0 0; mkCell 0 1]) as Habs.
  { eapply (Hclaim pair_engine pair_cached pair_cached emptyHeap pair_heap _
              (mkCell 0 0) (mkCell 0 1) MaskNone 10%nat 0%nat 2%nat
              [mkCell 0 0; mkCell 0 1] 1%nat (mkCell 7 7)).
    - vm_compute. reflexivity.
    - vm_compute. reflexivity.
    - exists [1; 0]%nat. split; [reflexivity |]. apply elem_of_cons. by left.
    - vm_compute. eexists. reflexivity.
    - vm_compute. reflexivity. }
  vm_compute in Habs. discriminate Habs.
Qed.

(** ** Admissibility of the estimates *)

Lemma syncHeuristic_not_admissible : ~ syncHeuristicAdmissible.
Proof.
  intros Hadm.
  destruct (Hadm road_grid) with (p := mkCell 0 0) (q := mkCell 0 1)
                                 (path := [mkCell 0 0; mkCell 0 1]) as [_ Hle].
  - unfold fullyPassable. vm_compute. repeat constructor; discriminate.
  - split; [done |]. split; [done |]. split.
    + repeat constructor; simpl; lia.
    + intros [| [| i]] p q [= <-] [= <-].
      unfold kingStep; simpl. repeat split; try lia. discriminate.
  - vm_compute in Hle. by apply Hle.
Qed.

Lemma workerEstimate_not_admissible : ~ workerEstimateAdmissible.
Proof.
  intros Hadm.
  destruct (Hadm open_grid) with (p := mkCell 0 0) (q := mkCell 1 1)
                                 (path := [mkCell 0 0; mkCell 1 1]) as [_ Hle].
  - unfold fullyPassable. vm_compute. repeat constructor; discriminate.
  - split; [done |]. split; [done |]. split.
    + repeat constructor; simpl; lia.
    + intros [| [| i]] p q [= <-] [= <-].
      unfold kingStep; simpl. repeat split; try lia. discriminate.
  - vm_compute in Hle. by apply Hle.
Qed.

(** C8 (as stated, refuted): with a road at (0,1) the main-thread
    estimate from (0,0) is 1 while the step costs 0.7; on an empty grid
    the estimate the worker adds for (0,0) -> (1,1) is 2 while the
    diagonal step costs 1.414. *)
Lemma heuristics_not_admissible : ~ heuristicsAdmissible.
Proof. intros [Hsync _]. by apply syncHeuristic_not_admissible. Qed.

Lemma product_at_least_one (b m : float) :
  b = 1.0%float \/ b = 1.414%float ->
  m ∈ [1.15%float; 1.3%float; 1.2%float; 1.0%float] ->
  (1 <= F2Q (b * m)%float)%Q.
Proof.
  intros Hb Hm.
  repeat (apply elem_of_cons in Hm as [-> | Hm]);
    try (by apply elem_of_nil in Hm);
    destruct Hb as [-> | ->]; apply Qle_bool_iff; vm_compute; reflexivity.
Qed.

Lemma MultiplierOf_off_road (t : string) (m : float) :
  MultiplierOf t m -> ~ roadLike t ->
  m ∈ [1.15%float; 1.3%float; 1.2%float; 1.0%float].
Proof. destruct 1; intros Hroad; try done; set_solver. Qed.

Lemma syncStep_at_least_one (a : AStar) (p q : Cell) :
  ~ roadLike (tileAt a (cell_r q) (cell_c q)) ->
  (1 <= F2Q (syncStep a p q))%Q.
Proof.
  intros Hroad. unfold syncStep. rewrite getMoveCost_eq.
  destruct (MultiplierOf_total (tileAt a (cell_r q) (cell_c q))) as [m Hm].
  rewrite (terrainMult_table _ _ Hm).
  apply product_at_least_one; [apply baseOf_values | by eapply MultiplierOf_off_road].
Qed.

Lemma workerStep_at_least_one (p q : Cell) : (1 <= F2Q (workerStep p q))%Q.
Proof.
  unfold workerStep. destruct (_ && _); apply Qle_bool_iff; vm_compute; reflexivity.
Qed.

Lemma chebyshev_step (p p' q : Cell) :
  kingStep p p' -> chebyshev p q <= 1 + chebyshev p' q.
Proof. unfold kingStep, chebyshev. intros (Hr & Hc & _). lia. Qed.

Lemma consecutive_cons (R : Cell -> Cell -> Prop) (p p' : Cell) (rest : list Cell) :
  consecutive R (p :: p' :: rest) -> R p p' /\ consecutive R (p' :: rest).
Proof.
  intros Hc. split.
  - by apply (Hc 0%nat).
  - intros i x y Hx Hy. by apply (Hc (S i)).
Qed.

(** The Chebyshev distance is at most the number of steps, hence at most
    the exact cost when every step costs at least 1. *)
Lemma chebyshev_le_exactCost (step : Cell -> Cell -> float) (rest : list Cell) :
  forall p q : Cell,
    last (p :: rest) = Some q ->
    consecutive kingStep (p :: rest) ->
    Forall (fun c => forall c0 : Cell, (1 <= F2Q (step c0 c))%Q) rest ->
    (inject_Z (chebyshev p q) <= exactCostFrom step p rest)%Q.
Proof.
  induction rest as [| p' rest IH]; intros p q Hlast Hcons Hcost; simpl.
  - injection Hlast as <-. unfold chebyshev.
    rewrite !Z.sub_diag. simpl. apply Qle_refl.
  - apply consecutive_cons in Hcons as [Hk Hcons].
    apply Forall_cons in Hcost as [Hp' Hcost].
    specialize (IH p' q Hlast Hcons Hcost).
    apply Qle_trans with (inject_Z (1 + chebyshev p' q)).
    + rewrite <- Zle_Qle. by apply chebyshev_step.
    + rewrite inject_Z_plus. apply Qplus_le_compat; [apply Hp' | done].
Qed.

Lemma heuristic_chebyshev (a : AStar) (p q : Cell) :
  diagonal a = true -> heuristic a p q = chebyshev p q.
Proof. intros Hd. unfold heuristic. by rewrite Hd. Qed.

(** C8 (amended): the Chebyshev estimate, which is the main-thread
    heuristic of an 8-directional engine and the function [h] of the
    worker, is not negative; the main-thread heuristic never exceeds the
    exact cost of a walk none of whose steps enters road-like terrain,
    and [h] never exceeds the exact cost of a walk under the cost model
    of the worker. *)
Theorem chebyshev_estimate_admissible (a : AStar) (p q : Cell) (path : list Cell) :
  diagonal a = true ->
  walk (grid a) p q path ->
  (0 <= heuristic a p q /\ 0 <= Worker.h p q) /\
  (Forall (fun c => ~ roadLike (tileAt a (cell_r c) (cell_c c))) (tail path) ->
   (inject_Z (heuristic a p q) <= exactCost (syncStep a) path)%Q) /\
  (inject_Z (Worker.h p q) <= exactCost workerStep path)%Q.
Proof.
  intros Hd (Hhd & Hlast & _ & Hcons).
  rewrite heuristic_chebyshev by done.
  change (Worker.h p q) with (chebyshev p q).
  destruct path as [| p0 rest]; [done |]. injection Hhd as ->.
  split; [unfold chebyshev; lia |]. split.
  - intros Hroad. apply chebyshev_le_exactCost; [done | done |].
    eapply Forall_impl; [exact Hroad |].
    intros c Hc c0. by apply syncStep_at_least_one.
  - apply chebyshev_le_exactCost; [done | done |].
    apply Forall_forall. intros c _ c0. apply workerStep_at_least_one.
Qed.

Lemma chebyshev_estimate_admissible_witness :
  (0 <= heuristic (newAStar road_grid) (mkCell 0 1) (mkCell 0 0) /\
   0 <= Worker.h (mkCell 0 1) (mkCell 0 0)) /\
  (Forall (fun c => ~ roadLike (tileAt (newAStar road_grid) (cell_r c) (cell_c c)))
     (tail [mkCell 0 1; mkCell 0 0]) ->
   (inject_Z (heuristic (newAStar road_grid) (mkCell 0 1) (mkCell 0 0))
    <= exactCost (syncStep (newAStar road_grid)) [mkCell 0 1; mkCell 0 0])%Q) /\
  (inject_Z (Worker.h (mkCell 0 1) (mkCell 0 0))
   <= exactCost workerStep [mkCell 0 1; mkCell 0 0])%Q.
Proof.
  apply (chebyshev_estimate_admissible (newAStar road_grid) (mkCell 0 1) (mkCell 0 0)
           [mkCell 0 1; mkCell 0 0]).
  - reflexivity.
  - split; [reflexivity |]. split; [reflexivity |]. split.
    + repeat constructor; simpl; lia.
    + intros [| [| i]] x y [= <-] [= <-].
      unfold kingStep; simpl. repeat split; try lia. discriminate.
Defined.

(** ** The two engines on the same query *)

Lemma detour_runs :
  exists (a' : AStar) (h' : Heap),
    Game_findPath_sync (newAStar detour_grid) emptyHeap (mkCell 0 3) (mkCell 2 0) 50
    = Some (Return (Some 0%nat), a', h') /\
    read_path h' 0%nat = Some detour_sync_path /\
    Game_findPath_worker detour_grid (mkCell 0 3) (mkCell 2 0) 50
    = Some (Return (Some detour_worker_path)).
Proof. eexists _, _. split; [| split]; vm_compute; reflexivity. Qed.

(** The two engines do not return paths of one cost for one query,
    whichever of the two cost models measures them. *)
Lemma engines_disagree_on_cost : ~ enginesReturnEqualCost.
Proof.
  destruct detour_runs as (a' & h' & Hsync & Hread & Hworker).
  intros [Hagree | [Hagree | Hagree]];
    specialize (Hagree detour_grid (mkCell 0 3) (mkCell 2 0) 50%nat 0%nat a' h'
                  detour_sync_path detour_worker_path Hsync Hread Hworker);
    vm_compute in Hagree; discriminate Hagree.
Qed.

Example detour_costs :
  syncCost detour_grid detour_sync_path = 3.8279999999999994%float /\
  workerCost detour_grid detour_sync_path = 3.8279999999999994%float /\
  syncCost detour_grid detour_worker_path = 4.414%float /\
  workerCost detour_grid detour_worker_path = 4.414%float.
Proof. vm_compute. done. Qed.

Lemma step_costs_agree (a : AStar) (p q : Cell) :
  MultiplierOf (tileAt a (cell_r q) (cell_c q)) 1.0%float ->
  syncStep a p q = workerStep p q.
Proof.
  intros Hm. unfold syncStep, workerStep.
  rewrite getMoveCost_eq, (terrainMult_table _ _ Hm). unfold baseOf.
  destruct (decide _) as [Hor | Hnor];
    destruct (Z.eqb_spec (cell_r q - cell_r p) 0), (Z.eqb_spec (cell_c q - cell_c p) 0);
    simpl; try reflexivity; lia.
Qed.

Lemma costFrom_agree (a : AStar) (rest : list Cell) :
  forall (acc : float) (p : Cell),
    Forall (fun c => MultiplierOf (tileAt a (cell_r c) (cell_c c)) 1.0%float) rest ->
    costFrom (syncStep a) acc p rest = costFrom workerStep acc p rest.
Proof.
  induction rest as [| q rest IH]; intros acc p Hall; simpl; [done |].
  apply Forall_cons in Hall as [Hq Hall].
  rewrite (step_costs_agree a p q Hq). by apply IH.
Qed.

(** On terrain of multiplier 1.0 (none of the four categories of the cost
    model) the cost model of the main thread and that of the worker
    charge the same for every step, so a path over such terrain has the
    same accumulated cost under both. *)
Lemma engines_charge_alike_on_plain_terrain (a : AStar) (path : list Cell) :
  Forall (fun c => MultiplierOf (tileAt a (cell_r c) (cell_c c)) 1.0%float) (tail path) ->
  pathCostWith (syncStep a) path = pathCostWith workerStep path /\
  (forall p q : Cell, q ∈ tail path -> syncStep a p q = workerStep p q).
Proof.
  intros Hall. split.
  - destruct path as [| p rest]; [done |]. simpl. by apply costFrom_agree.
  - intros p q Hq. apply step_costs_agree.
    by apply (proj1 (Forall_forall _ _) Hall).
Qed.

Lemma engines_charge_alike_on_plain_terrain_witness :
  pathCostWith (syncStep (newAStar detour_grid)) detour_worker_path
  = pathCostWith workerStep detour_worker_path /\
  (forall p q : Cell, q ∈ tail detour_worker_path ->
     syncStep (newAStar detour_grid) p q = workerStep p q).
Proof.
  apply (engines_charge_alike_on_plain_terrain (newAStar detour_grid) detour_worker_path).
  repeat apply Forall_cons_2; try apply Forall_nil_2;
    (apply mult_other;
     [ intros [H | H] | intros [H | H] | intros [H | H] | intros [H | H] ];
     vm_compute in H; discriminate H).
Defined.

Lemma plain_terrain (a : AStar) (cs : list Cell) :
  forallb (fun c => bool_decide (tileAt a (cell_r c) (cell_c c) = EmptyString)) cs = true ->
  Forall (fun c => MultiplierOf (tileAt a (cell_r c) (cell_c c)) 1.0%float) cs.
Proof.
  induction cs as [| c cs IH]; simpl; intros Hall; [by apply Forall_nil_2 |].
  apply andb_true_iff in Hall as [Hc Hall].
  apply bool_decide_eq_true in Hc.
  apply Forall_cons_2; [| by apply IH].
  apply mult_other; rewrite Hc; intros [H | H]; vm_compute in H; discriminate H.
Qed.

(** C5: the code at the failing input.  On a 3x4 grid that is empty but
    for a house at (1,2), the query from (0,3) to (2,0) goes through
    [Game.findPath] on both engines.  The main thread returns
    (0,3),(0,2),(1,1),(2,0), of cost 3.828; the worker returns
    (0,3),(1,3),(2,2),(2,1),(2,0), of cost 4.414.  Each path costs the
    same under the cost model of the main thread and under that of the
    worker, and every cell of both paths is empty, terrain of multiplier
    1.0: the terrain multipliers have no part in the difference. *)
Theorem detour_engines_return_unequal_costs :
  exists (a' : AStar) (h' : Heap),
    Game_findPath_sync (newAStar detour_grid) emptyHeap (mkCell 0 3) (mkCell 2 0) 50
    = Some (Return (Some 0%nat), a', h') /\
    read_path h' 0%nat = Some [mkCell 0 3; mkCell 0 2; mkCell 1 1; mkCell 2 0] /\
    Game_findPath_worker detour_grid (mkCell 0 3) (mkCell 2 0) 50
    = Some (Return (Some [mkCell 0 3; mkCell 1 3; mkCell 2 2; mkCell 2 1; mkCell 2 0])) /\
    syncCost detour_grid [mkCell 0 3; mkCell 0 2; mkCell 1 1; mkCell 2 0]
    = 3.8279999999999994%float /\
    workerCost detour_grid [mkCell 0 3; mkCell 0 2; mkCell 1 1; mkCell 2 0]
    = 3.8279999999999994%float /\
    syncCost detour_grid [mkCell 0 3; mkCell 1 3; mkCell 2 2; mkCell 2 1; mkCell 2 0]
    = 4.414%float /\
    workerCost detour_grid [mkCell 0 3; mkCell 1 3; mkCell 2 2; mkCell 2 1; mkCell 2 0]
    = 4.414%float /\
    Forall (fun c => MultiplierOf (tileAt (newAStar detour_grid) (cell_r c) (cell_c c))
                       1.0%float)
      ([mkCell 0 3; mkCell 0 2; mkCell 1 1; mkCell 2 0]
       ++ [mkCell 0 3; mkCell 1 3; mkCell 2 2; mkCell 2 1; mkCell 2 0]).
Proof.
  eexists _, _.
  do 7 (split; [vm_compute; reflexivity |]).
  apply plain_terrain. vm_compute. reflexivity.
Qed.

(** ** Cache keys identify queries *)

Lemma string_of_uint_numeral (d : Decimal.uint) :
  isNumeral (NilEmpty.string_of_uint d) = true.
Proof. induction d; simpl; done. Qed.

Lemma showZ_numeral (z : Z) : isNumeral (showZ z) = true.
Proof.
  unfold showZ, NilZero.string_of_int, NilZero.string_of_uint.
  destruct (Z.to_int z) as [d | d]; destruct d; simpl;
    try done; apply string_of_uint_numeral.
Qed.

Lemma showZ_inj (x y : Z) : showZ x = showZ y -> x = y.
Proof.
  intros Heq. apply DecimalZ.to_int_inj.
  assert (forall z, NilZero.int_of_string (showZ z) = Some (Z.to_int z)) as Hparse.
  { intros z. unfold showZ. apply NilZero.isi.
    - destruct z; simpl; try done. intros [= H]. by apply DecimalPos.Unsigned.to_uint_nonnil in H.
    - destruct z; simpl; try done. intros [= H]. by apply DecimalPos.Unsigned.to_uint_nonnil in H. }
  pose proof (Hparse x) as Hx. rewrite Heq, Hparse in Hx. congruence.
Qed.

Lemma numeral_sep_inj (sep : Ascii.ascii) (u u' x x' : string) :
  isNumeralChar sep = false ->
  isNumeral u = true -> isNumeral u' = true ->
  u +:+ String sep x = u' +:+ String sep x' ->
  u = u' /\ x = x'.
Proof.
  intros Hsep. revert u'.
  induction u as [| c u IH]; intros [| c' u'] Hu Hu'; simpl in *.
  - intros [= ->]. done.
  - intros [= <- _]. apply andb_true_iff in Hu' as [Hc _]. congruence.
  - intros [= -> _]. apply andb_true_iff in Hu as [Hc _]. congruence.
  - intros [= <- Heq].
    apply andb_true_iff in Hu as [_ Hu]. apply andb_true_iff in Hu' as [_ Hu'].
    destruct (IH u' Hu Hu' Heq) as [-> ->]. done.
Qed.

Lemma cacheKey_inj (a : AStar) (s t s' t' : Cell) :
  cacheKey a s t = cacheKey a s' t' -> s = s' /\ t = t'.
Proof.
  unfold cacheKey. intros Heq.
  apply (numeral_sep_inj ","%char) in Heq as [Hsr Heq];
    [| done | apply showZ_numeral | apply showZ_numeral].
  apply (numeral_sep_inj "|"%char) in Heq as [Hsc Heq];
    [| done | apply showZ_numeral | apply showZ_numeral].
  apply (numeral_sep_inj ","%char) in Heq as [Htr Heq];
    [| done | apply showZ_numeral | apply showZ_numeral].
  apply (numeral_sep_inj "|"%char) in Heq as [Htc _];
    [| done | apply showZ_numeral | apply showZ_numeral].
  apply showZ_inj in Hsr, Hsc, Htr, Htc.
  destruct s, t, s', t'; simpl in *. by subst.
Qed.

(** ** A cache hit does not read the mask *)

(** C10: the code at the failing input.  On a 1x3 grid the query from
    (0,0) to (0,2) with a mask that lets every cell pass returns
    (0,0),(0,1),(0,2) and stores it under the key of line 215, which
    holds the start, the goal and the size of the grid but not the mask.
    The same query with the mask [1,0,1] is then a hit of that key: line
    216 returns the stored path before the mask is read, and its second
    cell (0,1) does not pass the mask.  On an engine with an empty cache
    the query with the mask [1,0,1] returns [null]. *)
Theorem findPath_hit_ignores_mask :
  exists (a1 : AStar) (h1 h2 : Heap),
    findPath walled emptyHeap (mkCell 0 0) (mkCell 0 2) (MaskArr [1; 1; 1]) 10
    = Some (Return (Some 0%nat), a1, h1) /\
    read_path h1 0%nat = Some [mkCell 0 0; mkCell 0 1; mkCell 0 2] /\
    findPath a1 h1 (mkCell 0 0) (mkCell 0 2) (MaskArr walled_mask) 10
    = Some (Return (Some 2%nat), a1, h2) /\
    read_path h2 2%nat = Some [mkCell 0 0; mkCell 0 1; mkCell 0 2] /\
    passablePredicate a1 (MaskArr walled_mask) (mkCell 0 1) = false /\
    findPath walled emptyHeap (mkCell 0 0) (mkCell 0 2) (MaskArr walled_mask) 10
    = Some (Return None, walled, emptyHeap).
Proof.
  eexists _, _, _.
  do 5 (split; [vm_compute; reflexivity |]).
  vm_compute. reflexivity.
Qed.

(** ** The scenarios of the specification *)

(** 3x3 grid, all cells empty, from (0,0) to (2,2): the diagonal, of cost
    2 * 1.414; both engines agree here. *)
Example scenario_open_grid :
  match Game_findPath_sync (newAStar (newGrid 3 3)) emptyHeap (mkCell 0 0) (mkCell 2 2) 50 with
  | Some (Return (Some p), _, h') => read_path h' p
  | _ => None
  end = Some [mkCell 0 0; mkCell 1 1; mkCell 2 2] /\
  Game_findPath_worker (newGrid 3 3) (mkCell 0 0) (mkCell 2 2) 50
  = Some (Return (Some [mkCell 0 0; mkCell 1 1; mkCell 2 2])) /\
  syncCost (newGrid 3 3) [mkCell 0 0; mkCell 1 1; mkCell 2 2] = 2.828%float.
Proof. vm_compute. done. Qed.

(** The same grid with a house in the centre: a detour of four cells. *)
Example scenario_blocked_centre :
  let gr := mkGrid 3 3 [EmptyString; EmptyString; EmptyString;
                        EmptyString; Tile.house; EmptyString;
                        EmptyString; EmptyString; EmptyString] in
  match Game_findPath_sync (newAStar gr) emptyHeap (mkCell 0 0) (mkCell 2 2) 50 with
  | Some (Return (Some p), _, h') => read_path h' p
  | _ => None
  end = Some [mkCell 0 0; mkCell 1 0; mkCell 2 1; mkCell 2 2].
Proof. vm_compute. reflexivity. Qed.

(** A wall without a gap separates the two sides; one passable cell in
    the wall reconnects them. *)
Example scenario_wall :
  let wall := mkGrid 1 3 [EmptyString; Tile.house; EmptyString] in
  let gap := mkGrid 1 3 [EmptyString; Tile.road; EmptyString] in
  Game_findPath_worker wall (mkCell 0 0) (mkCell 0 2) 50 = Some (Return None) /\
  Game_findPath_worker gap (mkCell 0 0) (mkCell 0 2) 50
  = Some (Return (Some [mkCell 0 0; mkCell 0 1; mkCell 0 2])).
Proof. vm_compute. done. Qed.

(** ** The fuel of the heap operations suffices *)

Section HeapFuel.
Variable fa : list float.

(** More turns than [i] change nothing in [siftUp]: the loop has ended. *)
Lemma siftUp_fuel_enough (fuel : nat) :
  forall (i : nat) (hp : list Z),
    (i <= fuel)%nat ->
    Worker.siftUp fa (S fuel) i hp = Worker.siftUp fa fuel i hp.
Proof.
  induction fuel as [| fuel IH]; intros i hp Hi.
  - assert (i = 0%nat) as -> by lia. reflexivity.
  - change (Worker.siftUp fa (S (S fuel)) i hp)
      with (if (0 <? i)%nat then
              if PrimFloat.ltb (getF fa (Worker.heapAt hp i))
                               (getF fa (Worker.heapAt hp ((i - 1) / 2)%nat))
              then Worker.siftUp fa (S fuel) ((i - 1) / 2)%nat (Worker.swap hp i ((i - 1) / 2)%nat)
              else hp
            else hp).
    change (Worker.siftUp fa (S fuel) i hp)
      with (if (0 <? i)%nat then
              if PrimFloat.ltb (getF fa (Worker.heapAt hp i))
                               (getF fa (Worker.heapAt hp ((i - 1) / 2)%nat))
              then Worker.siftUp fa fuel ((i - 1) / 2)%nat (Worker.swap hp i ((i - 1) / 2)%nat)
              else hp
            else hp).
    destruct (0 <? i)%nat eqn:Hpos; [| done].
    destruct (PrimFloat.ltb _ _); [| done].
    apply IH.
    pose proof (Nat.Div0.div_le_upper_bound (i - 1) 2 (i - 1)). lia.
Qed.

Lemma siftDown_S (fuel i : nat) (hp : list Z) :
  Worker.siftDown fa (S fuel) i hp
  = let n := length hp in
    let l := (2 * i + 1)%nat in
    let r := (2 * i + 2)%nat in
    let smallest := i in
    let smallest :=
      if (l <? n)%nat && PrimFloat.ltb (getF fa (Worker.heapAt hp l))
                                      (getF fa (Worker.heapAt hp smallest))
      then l else smallest in
    let smallest :=
      if (r <? n)%nat && PrimFloat.ltb (getF fa (Worker.heapAt hp r))
                                      (getF fa (Worker.heapAt hp smallest))
      then r else smallest in
    if negb (smallest =? i)%nat
    then Worker.siftDown fa fuel smallest (Worker.swap hp i smallest)
    else hp.
Proof. reflexivity. Qed.

(** More turns than [heap.length - i] change nothing in [siftDown]. *)
Lemma siftDown_fuel_enough (fuel : nat) :
  forall (i : nat) (hp : list Z),
    (length hp - i <= fuel)%nat ->
    Worker.siftDown fa (S fuel) i hp = Worker.siftDown fa fuel i hp.
Proof.
  induction fuel as [| fuel IH]; intros i hp Hi.
  - rewrite siftDown_S. cbv zeta.
    assert ((2 * i + 1 <? length hp)%nat = false) as -> by (apply Nat.ltb_ge; lia).
    assert ((2 * i + 2 <? length hp)%nat = false) as -> by (apply Nat.ltb_ge; lia).
    simpl. by rewrite Nat.eqb_refl.
  - rewrite (siftDown_S (S fuel)), (siftDown_S fuel). cbv zeta.
    repeat match goal with
           | |- context [((?u <? ?v)%nat && ?c)] =>
               let Hc := fresh "Hc" in destruct ((u <? v)%nat && c) eqn:Hc
           end;
      repeat match goal with
             | Hc : _ && _ = true |- _ => apply andb_true_iff in Hc as [?%Nat.ltb_lt _]
             end;
      match goal with
      | |- context [(?s =? i)%nat] => destruct (Nat.eqb_spec s i); simpl; [done |]
      end;
      apply IH; rewrite swap_length; lia.
Qed.
End HeapFuel.

(** ** Results do not depend on the fuel *)

Lemma searchLoop_more_fuel (a : AStar) (passable : Cell -> bool) (goal : Cell)
    (goalIdx : Z) (fuel : nat) :
  forall (st : Search) (r : Exit * Search),
    searchLoop a passable goal goalIdx fuel st = Some r ->
    searchLoop a passable goal goalIdx (S fuel) st = Some r.
Proof.
  induction fuel as [| fuel IH]; intros st r; [done |].
  intros Hrun.
  change (searchLoop a passable goal goalIdx (S (S fuel)) st)
    with (match open st with
          | [] => Some (FrontierEmpty, st)
          | _ :: _ =>
              if pickLowest (f st) (open st) =? goalIdx then Some (GoalReached, st)
              else searchLoop a passable goal goalIdx (S fuel)
                     (expand a passable goal (pickLowest (f st) (open st))
                        (mkSearch (g st) (f st)
                           (setDelete (pickLowest (f st) (open st)) (open st))
                           (cameFrom st)))
          end).
  change (searchLoop a passable goal goalIdx (S fuel) st)
    with (match open st with
          | [] => Some (FrontierEmpty, st)
          | _ :: _ =>
              if pickLowest (f st) (open st) =? goalIdx then Some (GoalReached, st)
              else searchLoop a passable goal goalIdx fuel
                     (expand a passable goal (pickLowest (f st) (open st))
                        (mkSearch (g st) (f st)
                           (setDelete (pickLowest (f st) (open st)) (open st))
                           (cameFrom st)))
          end) in Hrun.
  destruct (open st); [done |].
  destruct (_ =? goalIdx); [done |]. by apply IH.
Qed.

Lemma reconstruct_S (a : AStar) (came : list Z) (fuel : nat) (cur : Z)
    (path : list ref) (h : Heap) :
  reconstruct a came (S fuel) cur path h
  = if cur =? -1 then Some (path, h)
    else match lookupZ came cur with
         | Some nxt =>
             reconstruct a came fuel nxt (length (objs h) :: path)
               (mkHeap (objs h ++ [cellOf a cur]) (arrs h))
         | None => None
         end.
Proof. reflexivity. Qed.

Lemma reconstruct_more_fuel (a : AStar) (came : list Z) (fuel : nat) :
  forall (cur : Z) (path : list ref) (h : Heap) (r : list ref * Heap),
    reconstruct a came fuel cur path h = Some r ->
    reconstruct a came (S fuel) cur path h = Some r.
Proof.
  induction fuel as [| fuel IH]; intros cur path h r; [done |].
  rewrite (reconstruct_S a came (S fuel)), (reconstruct_S a came fuel).
  destruct (cur =? -1); [done |].
  destruct (lookupZ came cur); [| done]. apply IH.
Qed.

(** A call that returns with some fuel returns the same with more. *)
Lemma findPath_more_fuel (a : AStar) (h : Heap) (start goal : Cell) (mask : Mask)
    (fuel : nat) (r : Outcome aref * AStar * Heap) :
  findPath a h start goal mask fuel = Some r ->
  findPath a h start goal mask (S fuel) = Some r.
Proof.
  unfold findPath.
  destruct (cache a !! cacheKey a start goal); [done |].
  destruct (_ <? 0); [done |].
  destruct (searchLoop _ _ _ _ fuel _) as [[e st] |] eqn:Hloop; [| done].
  rewrite (searchLoop_more_fuel _ _ _ _ _ _ _ Hloop).
  destruct (lookupZ (cameFrom st) (idx a goal)) as [[| q | [q | q |]] |];
    try done;
    (destruct (reconstruct _ _ fuel _ _ _) as [[path h1] |] eqn:Hrec; [| done]);
    rewrite (reconstruct_more_fuel _ _ _ _ _ _ _ Hrec); done.
Qed.

(** Without a bounds check, a goal whose flat index lies beyond the typed
    arrays is searched for as well: on the 1x1 grid with goal (0,1) the
    frontier empties, [cameFrom[goalIdx]] is [undefined], and the loop
    that rebuilds the path never exits. *)
Example out_of_range_goal_never_returns (fuel : nat) :
  searchLoop (newAStar (newGrid 1 1)) (passablePredicate (newAStar (newGrid 1 1)) MaskNone)
    (mkCell 0 1) 1 (S (S fuel)) (initSearch (newAStar (newGrid 1 1)) (mkCell 0 0) (mkCell 0 1))
  = Some (FrontierEmpty,
          mkSearch [0%float] [1%float] [] [-1]) /\
  findPath (newAStar (newGrid 1 1)) emptyHeap (mkCell 0 0) (mkCell 0 1) MaskNone (S (S fuel))
  = None.
Proof.
  assert (searchLoop (newAStar (newGrid 1 1))
            (passablePredicate (newAStar (newGrid 1 1)) MaskNone)
            (mkCell 0 1) 1 (S (S fuel))
            (initSearch (newAStar (newGrid 1 1)) (mkCell 0 0) (mkCell 0 1))
          = Some (FrontierEmpty, mkSearch [0%float] [1%float] [] [-1])) as Hloop.
  { reflexivity. }
  split; [done |].
  rewrite findPath_miss by done.
  change (idx (newAStar (newGrid 1 1)) (mkCell 0 1)) with 1.
  rewrite Hloop. reflexivity.
Qed.

(** The tile literals have the byte lengths of the literals of the source. *)
Example tile_literal_lengths :
  map String.length
    [Tile.road; Tile.parking; Tile.evergreen; Tile.tree; Tile.crane;
     Tile.factory; Tile.car; Tile.saucer; Tile.bike; Tile.house]
  = [16; 16; 10; 10; 16; 10; 9; 10; 10; 10]%nat.
Proof. reflexivity. Qed.

(** * Further properties of the code *)

(** ** [neighbors] *)

Lemma NoDup_omap_inj {A B : Type} (fn : A -> option B) (l : list A) :
  (forall x x' y, x ∈ l -> x' ∈ l -> fn x = Some y -> fn x' = Some y -> x = x') ->
  NoDup l -> NoDup (omap fn l).
Proof.
  induction l as [| x l IH]; intros Hinj Hnd; simpl; [constructor |].
  apply NoDup_cons in Hnd as [Hx Hnd].
  assert (NoDup (omap fn l)) as Hrest.
  { apply IH; [| done]. intros u u' y Hu Hu'. apply Hinj; by apply elem_of_cons; right. }
  destruct (fn x) as [y |] eqn:Hy; [| done].
  apply NoDup_cons. split; [| done].
  intros Hin. apply list_elem_of_omap in Hin as (x' & Hx' & Hy').
  assert (x = x') as ->; [| done].
  apply (Hinj x x' y); try done.
  - apply elem_of_cons; by left.
  - apply elem_of_cons; by right.
Qed.

Lemma dirs8_NoDup : NoDup dirs8.
Proof.
  unfold dirs8. repeat (apply NoDup_cons; split; [| ]); try apply NoDup_nil_2.
  all: rewrite ?elem_of_cons, elem_of_nil; intros Hin;
    repeat (destruct Hin as [Hin | Hin]; [discriminate Hin |]); done.
Qed.

Lemma dirs4_NoDup : NoDup dirs4.
Proof.
  unfold dirs4. repeat (apply NoDup_cons; split; [| ]); try apply NoDup_nil_2.
  all: rewrite ?elem_of_cons, elem_of_nil; intros Hin;
    repeat (destruct Hin as [Hin | Hin]; [discriminate Hin |]); done.
Qed.

Lemma dirs8_exact (dr dc : Z) :
  (dr, dc) ∈ dirs8 <-> Z.max (Z.abs dr) (Z.abs dc) = 1.
Proof.
  unfold dirs8. rewrite !elem_of_cons, elem_of_nil. split.
  - intros Hd. repeat (destruct Hd as [[= -> ->] | Hd]; [reflexivity |]). done.
  - intros Hm.
    assert (dr = -1 \/ dr = 0 \/ dr = 1) as Hr by lia.
    assert (dc = -1 \/ dc = 0 \/ dc = 1) as Hc by lia.
    destruct Hr as [-> | [-> | ->]], Hc as [-> | [-> | ->]];
      first [ discriminate Hm | tauto ].
Qed.

Lemma dirs4_exact (dr dc : Z) :
  (dr, dc) ∈ dirs4 <-> Z.abs dr + Z.abs dc = 1.
Proof.
  unfold dirs4. rewrite !elem_of_cons, elem_of_nil. split.
  - intros Hd. repeat (destruct Hd as [[= -> ->] | Hd]; [reflexivity |]). done.
  - intros Hm.
    assert (dr = -1 \/ dr = 0 \/ dr = 1) as Hr by lia.
    assert (dc = -1 \/ dc = 0 \/ dc = 1) as Hc by lia.
    destruct Hr as [-> | [-> | ->]], Hc as [-> | [-> | ->]];
      first [ discriminate Hm | tauto ].
Qed.

(** X1: [neighbors(r,c)] lists, without repetition, exactly the cells of
    the grid at distance 1 from (r,c): Chebyshev distance for an
    8-directional engine, Manhattan distance for a 4-directional one. *)
Theorem neighbors_exact (a : AStar) (r c : Z) :
  NoDup (neighbors a r c) /\
  forall n : Cell,
    n ∈ neighbors a r c <->
    inBounds (grid a) n /\
    (if diagonal a then chebyshev (mkCell r c) n else manhattan (mkCell r c) n) = 1.
Proof.
  split.
  - unfold neighbors. apply NoDup_omap_inj.
    + intros [d1 d2] [e1 e2] y _ _; simpl.
      destruct (_ && _); [| done]. destruct (_ && _); [| done].
      intros [= <-] [= Hr Hc]. f_equal; lia.
    + destruct (diagonal a); [apply dirs8_NoDup | apply dirs4_NoDup].
  - intros n. unfold neighbors. rewrite list_elem_of_omap. split.
    + intros ([dr dc] & Hd & Hf). simpl in Hf.
      destruct (_ && _) eqn:Hb in Hf; [| done]. injection Hf as <-.
      repeat (apply andb_true_iff in Hb as [Hb ?]).
      split; [unfold inBounds; simpl; lia |].
      unfold chebyshev, manhattan; simpl.
      destruct (diagonal a).
      * apply dirs8_exact in Hd. lia.
      * apply dirs4_exact in Hd. lia.
    + intros [[Hr Hc] Hdist]. exists (cell_r n - r, cell_c n - c). split.
      * unfold chebyshev, manhattan in Hdist; simpl in Hdist.
        destruct (diagonal a); [apply dirs8_exact | apply dirs4_exact]; lia.
      * simpl. replace (r + (cell_r n - r)) with (cell_r n) by lia.
        replace (c + (cell_c n - c)) with (cell_c n) by lia.
        assert ((cell_r n >=? 0) && (cell_c n >=? 0) && (cell_r n <? rows (grid a))
                && (cell_c n <? cols (grid a)) = true) as ->.
        { repeat (apply andb_true_iff; split); lia. }
        by destruct n.
Qed.

(** ** The mask of [Game.findPath] *)

Lemma fold_insert_range {A : Type} (val : Z -> A) (base : Z) (n : nat) (m : list A) :
  let m' := fold_left (fun mask c => insertZ (base + c) (val c) mask)
              (map Z.of_nat (seq 0 n)) m in
  length m' = length m /\
  (forall c : Z, 0 <= c < Z.of_nat n -> 0 <= base + c < Z.of_nat (length m) ->
     lookupZ m' (base + c) = Some (val c)) /\
  (forall j : Z, ~ (base <= j < base + Z.of_nat n) -> lookupZ m' j = lookupZ m j).
Proof.
  cbv zeta. induction n as [| n IH].
  - simpl. split; [done |]. split; [intros c Hc; lia | done].
  - rewrite seq_S, map_app, fold_left_app. cbn [map fold_left Nat.add].
    destruct IH as (Hlen & Hin & Hout).
    split; [by rewrite length_insertZ |]. split.
    + intros c Hc Hrange. destruct (decide (c = Z.of_nat n)) as [-> | Hne].
      * apply lookupZ_insertZ_eq. rewrite Hlen. lia.
      * rewrite lookupZ_insertZ_ne by lia. apply Hin; lia.
    + intros j Hj. rewrite lookupZ_insertZ_ne by lia. apply Hout. lia.
Qed.

Lemma fold_rows_range {A : Type} (val : Z -> Z -> A) (w : Z) (n : nat) (m : list A) :
  0 < w ->
  let m' := fold_left
              (fun mask r =>
                 fold_left (fun mask c => insertZ (r * w + c) (val r c) mask)
                   (map Z.of_nat (seq 0 (Z.to_nat w))) mask)
              (map Z.of_nat (seq 0 n)) m in
  length m' = length m /\
  (forall r c : Z, 0 <= r < Z.of_nat n -> 0 <= c < w ->
     r * w + c < Z.of_nat (length m) -> lookupZ m' (r * w + c) = Some (val r c)) /\
  (forall j : Z, Z.of_nat n * w <= j -> lookupZ m' j = lookupZ m j).
Proof.
  intros Hw. cbv zeta. induction n as [| n IH].
  - simpl. split; [done |]. split; [intros r c Hr; lia | done].
  - rewrite seq_S, map_app, fold_left_app. cbn [map fold_left Nat.add].
    destruct IH as (Hlen & Hin & Hout).
    match goal with
    | |- context [fold_left ?fn (map Z.of_nat (seq 0 (Z.to_nat w))) ?m0] =>
        destruct (fold_insert_range (val (Z.of_nat n)) (Z.of_nat n * w) (Z.to_nat w) m0)
          as (Hlen' & Hin' & Hout')
    end.
    split; [congruence |]. split.
    + intros r c Hr Hc Hrange. destruct (decide (r = Z.of_nat n)) as [-> | Hne].
      * apply Hin'; [lia |]. rewrite Hlen. nia.
      * rewrite Hout' by nia. apply Hin; [lia | done | done].
    + intros j Hj. rewrite Hout' by nia. apply Hout. nia.
Qed.

Lemma buildMask_length (gr : Grid) :
  length (buildMask gr) = Z.to_nat (rows gr * cols gr).
Proof.
  unfold buildMask.
  match goal with
  | |- length (fold_left ?fo ?rs ?m0) = _ =>
      assert (forall (rs' : list Z) (m : list Z), length (fold_left fo rs' m) = length m)
        as Hfo
  end.
  { induction rs' as [| r rs' IH]; intros m; simpl; [done |]. rewrite IH.
    generalize (seqZ0 (cols gr)). intros cs. revert m.
    induction cs as [| c cs IHc]; intros m; simpl; [done |].
    by rewrite IHc, length_insertZ. }
  by rewrite Hfo, length_replicate.
Qed.

Lemma buildMask_lookup (gr : Grid) (p : Cell) :
  inBounds gr p ->
  lookupZ (buildMask gr) (cell_r p * cols gr + cell_c p)
  = Some (if tilePassable (GridOps.get gr (cell_r p) (cell_c p)) then 1 else 0).
Proof.
  intros [Hr Hc]. unfold buildMask, seqZ0.
  destruct (fold_rows_range
              (fun r c => if tilePassable (GridOps.get gr r c) then 1 else 0)
              (cols gr) (Z.to_nat (rows gr))
              (replicate (Z.to_nat (rows gr * cols gr)) 0)) as (_ & Hin & _); [lia |].
  apply Hin; [lia | lia |]. rewrite length_replicate. nia.
Qed.

(** X2: the mask [Game.findPath] builds has one entry per cell of the
    grid, and the entry of a cell inside the grid is 1 when its tile is
    empty (or absent), is the road, or contains a car, a bike or a saucer,
    and 0 otherwise; the main-thread engine given this mask finds the cell
    passable in exactly these cases. *)
Theorem buildMask_marks_passable_tiles (a : AStar) (p : Cell) :
  inBounds (grid a) p ->
  length (buildMask (grid a)) = Z.to_nat (rows (grid a) * cols (grid a)) /\
  lookupZ (buildMask (grid a)) (idx a p)
  = Some (if tilePassable (GridOps.get (grid a) (cell_r p) (cell_c p)) then 1 else 0) /\
  passablePredicate a (MaskArr (buildMask (grid a))) p
  = tilePassable (GridOps.get (grid a) (cell_r p) (cell_c p)).
Proof.
  intros Hp. split; [apply buildMask_length |].
  pose proof (buildMask_lookup (grid a) p Hp) as Hl. split; [done |].
  unfold passablePredicate. rewrite Hl. by destruct (tilePassable _).
Qed.

Lemma buildMask_marks_passable_tiles_witness :
  length (buildMask (grid (newAStar detour_grid)))
  = Z.to_nat (rows (grid (newAStar detour_grid)) * cols (grid (newAStar detour_grid))) /\
  lookupZ (buildMask (grid (newAStar detour_grid))) (idx (newAStar detour_grid) (mkCell 1 2))
  = Some (if tilePassable (GridOps.get (grid (newAStar detour_grid)) 1 2) then 1 else 0) /\
  passablePredicate (newAStar detour_grid) (MaskArr (buildMask (grid (newAStar detour_grid))))
    (mkCell 1 2)
  = tilePassable (GridOps.get (grid (newAStar detour_grid)) 1 2).
Proof.
  apply (buildMask_marks_passable_tiles (newAStar detour_grid) (mkCell 1 2)).
  unfold inBounds; simpl; lia.
Defined.

(** ** The binary heap keeps its contents *)

Section WorkerHeapContents.
Variable fa : list float.
Implicit Types (hp : list Z) (i j : nat) (x : Z).

Lemma insert_delete_perm hp i x :
  (i < length hp)%nat -> <[i := x]> hp ≡ₚ x :: delete i hp.
Proof.
  intros Hi. rewrite insert_take_drop by done. rewrite delete_take_drop.
  symmetry. apply Permutation_middle.
Qed.

Lemma swap_perm hp i j :
  (i < length hp)%nat -> (j < length hp)%nat -> Worker.swap hp i j ≡ₚ hp.
Proof.
  intros Hi Hj.
  destruct (lookup_lt_is_Some_2 hp i Hi) as [xi Hxi].
  destruct (lookup_lt_is_Some_2 hp j Hj) as [xj Hxj].
  unfold Worker.swap. rewrite (heapAt_lookup _ _ _ Hxi), (heapAt_lookup _ _ _ Hxj).
  destruct (decide (i = j)) as [-> | Hne].
  - rewrite list_insert_insert_eq. simplify_eq. by rewrite list_insert_id.
  - set (l1 := <[i := xj]> hp).
    assert (l1 !! j = Some xj) as Hl1j.
    { unfold l1. by rewrite list_lookup_insert_ne. }
    assert (length l1 = length hp) as Hlen by apply length_insert.
    rewrite (insert_delete_perm l1 j xi) by lia.
    assert (delete j l1 ≡ₚ delete i hp) as ->.
    { apply (Permutation_cons_inv (a := xj)).
      rewrite <- (delete_Permutation l1 j xj Hl1j).
      unfold l1. by apply insert_delete_perm. }
    symmetry. by apply delete_Permutation.
Qed.

Lemma siftUp_perm (fuel : nat) :
  forall hp i, (i < length hp)%nat -> Worker.siftUp fa fuel i hp ≡ₚ hp.
Proof.
  induction fuel as [| fuel IH]; intros hp i Hi; simpl; [done |].
  destruct (0 <? i)%nat eqn:Hpos; [| done].
  destruct (PrimFloat.ltb _ _); [| done].
  assert ((i - 1) / 2 < length hp)%nat as Hp.
  { pose proof (Nat.Div0.div_le_upper_bound (i - 1) 2 (i - 1)). lia. }
  rewrite IH by (by rewrite swap_length).
  by apply swap_perm.
Qed.

Lemma siftDown_perm (fuel : nat) :
  forall hp i, Worker.siftDown fa fuel i hp ≡ₚ hp.
Proof.
  induction fuel as [| fuel IH]; intros hp i; [done |].
  rewrite siftDown_S. cbv zeta.
  repeat match goal with
         | |- context [((?u <? ?v)%nat && ?c)] =>
             let Hc := fresh "Hc" in destruct ((u <? v)%nat && c) eqn:Hc
         end;
    repeat match goal with
           | Hc : _ && _ = true |- _ => apply andb_true_iff in Hc as [?%Nat.ltb_lt _]
           end;
    match goal with
    | |- context [(?s =? i)%nat] => destruct (Nat.eqb_spec s i); simpl; [done |]
    end;
    rewrite IH; apply swap_perm; lia.
Qed.

Lemma heapPush_perm hp (k : Z) : Worker.heapPush fa k hp ≡ₚ k :: hp.
Proof.
  unfold Worker.heapPush.
  rewrite siftUp_perm by (rewrite length_app; simpl; lia).
  symmetry. apply Permutation_cons_append.
Qed.

Lemma heapPop_perm hp (t : Z) (tl : list Z) :
  hp = t :: tl ->
  fst (Worker.heapPop fa hp) = t /\ hp ≡ₚ t :: snd (Worker.heapPop fa hp).
Proof.
  intros ->. unfold Worker.heapPop.
  destruct (decide (tl = [])) as [-> | Hne]; [done |].
  destruct (exists_last Hne) as (tl' & z & ->).
  replace (length (t :: tl' ++ [z]) - 1)%nat with (length (t :: tl'))
    by (simpl; rewrite length_app; simpl; lia).
  rewrite (app_comm_cons tl' [z] t), take_app_length.
  lazy beta iota zeta. split; [done |]. cbn [snd].
  rewrite siftDown_perm.
  assert (Worker.heapAt ((t :: tl') ++ [z]) (length (t :: tl')) = z) as ->.
  { apply heapAt_lookup. by rewrite lookup_app_r, Nat.sub_diag. }
  change (<[0%nat := z]> (t :: tl')) with (z :: tl').
  simpl. apply perm_skip. symmetry. apply Permutation_cons_append.
Qed.
End WorkerHeapContents.

(** X3: the binary heap of the worker loses and invents nothing:
    [heapPush(k)] yields a rearrangement of the old heap with [k] added;
    [heapPop()] on a heap that is not empty returns [heap[0]] and leaves a
    rearrangement of the other entries; on an empty heap it returns -1
    and leaves the heap empty. *)
Theorem worker_heap_keeps_contents (fa : list float) (hp : list Z) (k : Z) :
  Worker.heapPush fa k hp ≡ₚ k :: hp /\
  length (Worker.heapPush fa k hp) = S (length hp) /\
  Worker.heapPop fa [] = (-1, []) /\
  (forall (t : Z) (tl : list Z),
     hp = t :: tl ->
     fst (Worker.heapPop fa hp) = t /\
     hp ≡ₚ t :: snd (Worker.heapPop fa hp) /\
     length (snd (Worker.heapPop fa hp)) = length tl).
Proof.
  split; [apply heapPush_perm |]. split.
  { by rewrite (Permutation_length (heapPush_perm fa hp k)). }
  split; [done |].
  intros t tl Hhp. destruct (heapPop_perm fa hp t tl Hhp) as [Htop Hperm].
  split; [done |]. split; [done |].
  apply Permutation_length in Hperm. rewrite length_cons in Hperm.
  assert (length hp = S (length tl)) as Hlen by (by rewrite Hhp). lia.
Qed.

(** ** The worker loop terminates *)

Section WorkerTermination.
Variable m : Worker.Msg.
Variable goalIdx : Z.

Lemma unflagged_flag (op : list Z) (i : Z) :
  lookupZ op i = Some 0 -> S (unflagged (insertZ i 1 op)) = unflagged op.
Proof.
  unfold lookupZ, insertZ, unflagged.
  destruct (i <? 0); [done |]. intros Hl.
  rewrite insert_take_drop by (by eapply lookup_lt_Some).
  rewrite <- (take_drop_middle op (Z.to_nat i) 0 Hl) at 3.
  rewrite !filter_app, !length_app, !filter_cons.
  destruct (decide (1 = 0)) as [? | _]; [lia |].
  destruct (decide (0 = 0)) as [_ | ?]; [| lia].
  simpl. lia.
Qed.

(** The neighbour examined by [relax] lies in the grid; when it is
    pushed it was not flagged. *)
Lemma worker_relax_measure (current cr cc : Z) (st : Worker.State) (d : Z * Z) :
  length (Worker.open st) = Z.to_nat (Worker.m_rows m * Worker.m_cols m) ->
  workerMeasure (Worker.relax m current cr cc st d) = workerMeasure st /\
  length (Worker.open (Worker.relax m current cr cc st d)) = length (Worker.open st).
Proof.
  intros Hlen. unfold Worker.relax.
  destruct (_ || _) eqn:Hout; [done |].
  apply orb_false_iff in Hout as [[[H1 H2]%orb_false_iff H3]%orb_false_iff H4].
  apply Z.ltb_ge in H1, H2. rewrite Z.geb_leb in H3, H4.
  apply Z.leb_gt in H3, H4.
  set (ni := Worker.idx _ _ _).
  assert (0 <= ni < Worker.m_rows m * Worker.m_cols m) as Hni.
  { unfold ni, Worker.idx. nia. }
  destruct (lookupZ (Worker.m_passable m) ni) as [[| pv | pv] |]; try done.
  all: destruct (PrimFloat.ltb _ _); [| done].
  all: destruct (lookupZ_in_range (Worker.open st) ni) as [ov Hov]; [lia |].
  all: rewrite Hov; destruct ov as [| ov | ov]; try done.
  all: unfold workerMeasure; simpl; rewrite length_insertZ; split; [| done].
  all: rewrite <- (unflagged_flag _ _ Hov).
  all: rewrite (Permutation_length (heapPush_perm _ _ _)); simpl; lia.
Qed.

Lemma worker_relax_fold_measure (current cr cc : Z) (ds : list (Z * Z))
    (st : Worker.State) :
  length (Worker.open st) = Z.to_nat (Worker.m_rows m * Worker.m_cols m) ->
  workerMeasure (fold_left (Worker.relax m current cr cc) ds st) = workerMeasure st /\
  length (Worker.open (fold_left (Worker.relax m current cr cc) ds st))
  = length (Worker.open st).
Proof.
  revert st. induction ds as [| d ds IH]; intros st Hlen; [done |].
  cbn [fold_left].
  destruct (worker_relax_measure current cr cc st d Hlen) as [Hm Hl].
  destruct (IH (Worker.relax m current cr cc st d)) as [Hm' Hl']; [congruence |].
  split; congruence.
Qed.

Lemma worker_searchLoop_terminates (fuel : nat) :
  forall st : Worker.State,
    length (Worker.open st) = Z.to_nat (Worker.m_rows m * Worker.m_cols m) ->
    (workerMeasure st < fuel)%nat ->
    exists (e : Exit) (st' : Worker.State),
      Worker.searchLoop m goalIdx fuel st = Some (e, st').
Proof.
  induction fuel as [| fuel IH]; intros st Hlen Hfuel; [lia |].
  rewrite worker_searchLoop_S.
  destruct (Worker.heap st) as [| k0 hp] eqn:Hheap; [by eauto |].
  pose proof (heapPop_perm (Worker.f st) (k0 :: hp) k0 hp eq_refl) as [Htop Hperm].
  destruct (Worker.heapPop (Worker.f st) (k0 :: hp)) as [current hp'].
  cbv zeta. cbn [fst snd] in Htop, Hperm. subst current.
  destruct (k0 =? goalIdx); [by eauto |].
  apply Permutation_length in Hperm. rewrite !length_cons in Hperm.
  set (st1 := Worker.mkState _ _ _ _ hp').
  destruct (worker_relax_fold_measure k0 (Z.quot k0 (Worker.m_cols m))
              (Z.rem k0 (Worker.m_cols m)) dirs8 st1 Hlen) as [Hm Hl].
  apply IH; [by rewrite Hl |].
  rewrite Hm. unfold workerMeasure in Hfuel |- *. rewrite Hheap in Hfuel.
  rewrite length_cons in Hfuel. unfold st1. cbn [Worker.open Worker.heap]. lia.
Qed.
End WorkerTermination.

Lemma workerMeasure_init (m : Worker.Msg) :
  length (Worker.open (Worker.initState m))
  = Z.to_nat (Worker.m_rows m * Worker.m_cols m) /\
  (workerMeasure (Worker.initState m)
   <= S (Z.to_nat (Worker.m_rows m * Worker.m_cols m)))%nat.
Proof.
  unfold workerMeasure, Worker.initState. cbv zeta. cbn [Worker.open Worker.heap].
  rewrite length_insertZ, length_replicate. split; [done |].
  rewrite (Permutation_length (heapPush_perm _ _ _)). simpl.
  unfold unflagged.
  pose proof (length_filter (fun v : Z => v = 0)
    (insertZ (Worker.idx (Worker.m_cols m) (cell_r (Worker.m_start m))
                (cell_c (Worker.m_start m))) 1
       (replicate (Z.to_nat (Worker.m_rows m * Worker.m_cols m)) 0))) as Hle.
  rewrite length_insertZ, length_replicate in Hle. lia.
Qed.

(** ** Invariant of the worker search *)

Section WorkerInvariant.
Variable m : Worker.Msg.
Variable startIdx : Z.

Lemma workerCell_idx (r c : Z) :
  0 <= r < Worker.m_rows m -> 0 <= c < Worker.m_cols m ->
  workerCell m (Worker.idx (Worker.m_cols m) r c) = mkCell r c.
Proof.
  intros Hr Hc. unfold workerCell, Worker.idx.
  rewrite Z.quot_div_nonneg, Z.rem_mod_nonneg by nia.
  f_equal.
  - rewrite Z.div_add_l by lia. rewrite Z.div_small by lia. lia.
  - rewrite Z.add_comm, Z.mod_add by lia. apply Z.mod_small. lia.
Qed.

Lemma dirs8_king (d : Z * Z) (cr cc : Z) :
  d ∈ dirs8 -> kingStep (mkCell cr cc) (mkCell (cr + fst d) (cc + snd d)).
Proof.
  intros Hd. unfold kingStep. simpl.
  repeat (apply elem_of_cons in Hd as [-> | Hd]); simpl;
    try (by apply elem_of_nil in Hd);
    (split; [lia |]; split; [lia |]; intros [= ? ?]; lia).
Qed.

(** Either [relax] leaves the state alone, or it records [current] as
    the predecessor of a neighbour that lies in the grid and whose entry
    of [passable] is truthy; then [g[current]] is a number. *)
Lemma worker_relax_detail (current cr cc : Z) (st : Worker.State) (d : Z * Z) :
  Worker.relax m current cr cc st d = st \/
  exists (g' f' : list float) (op' hp' : list Z),
    0 <= cr + fst d < Worker.m_rows m /\
    0 <= cc + snd d < Worker.m_cols m /\
    workerPassable m (mkCell (cr + fst d) (cc + snd d)) = true /\
    is_Some (lookupZ (Worker.g st) current) /\
    Worker.relax m current cr cc st d
    = Worker.mkState g' f'
        (insertZ (Worker.idx (Worker.m_cols m) (cr + fst d) (cc + snd d)) current
           (Worker.came st)) op' hp' /\
    (hp' = Worker.heap st \/
     hp' = Worker.heapPush f' (Worker.idx (Worker.m_cols m) (cr + fst d) (cc + snd d))
             (Worker.heap st)).
Proof.
  unfold Worker.relax, workerPassable. simpl.
  destruct (_ || _) eqn:Hout; [by left |].
  apply orb_false_iff in Hout as [[[H1 H2]%orb_false_iff H3]%orb_false_iff H4].
  apply Z.ltb_ge in H1, H2. rewrite Z.geb_leb in H3, H4.
  apply Z.leb_gt in H3, H4.
  destruct (lookupZ (Worker.m_passable m) _) as [[| pv | pv] |]; try by left.
  all: destruct (PrimFloat.ltb _ _) eqn:Hlt; [| by left].
  all: assert (is_Some (lookupZ (Worker.g st) current)) as Hcur by
    (destruct (lookupZ (Worker.g st) current) as [x |] eqn:Hg;
     [by eexists
     | rewrite (getF_None_nan _ _ Hg), ltb_nan_add in Hlt; done]).
  all: right.
  all: destruct (lookupZ (Worker.open st) _) as [[| ov | ov] |];
    eexists _, _, _, _; repeat split; try done; try lia; by (left + right).
Qed.

#[local] Abbreviation WInv := (WorkerInv m startIdx).

Lemma worker_relax_inv (current : Z) (st : Worker.State) (d : Z * Z) :
  d ∈ dirs8 ->
  WInv st ->
  rooted startIdx (Worker.came st) current ->
  let st' := Worker.relax m current (Z.quot current (Worker.m_cols m))
               (Z.rem current (Worker.m_cols m)) st d in
  WInv st' /\ rooted startIdx (Worker.came st') current.
Proof.
  intros Hd [Hlen Hcame Hheap] Hroot. cbv zeta.
  destruct (worker_relax_detail current (Z.quot current (Worker.m_cols m))
              (Z.rem current (Worker.m_cols m)) st d)
    as [-> | (g' & f' & op' & hp' & Hr & Hc & Hp & [x Hx] & -> & Hhp)]; [done |].
  assert (0 <= current) as Hcur by (apply lookupZ_Some_range in Hx; lia).
  set (cr := Z.quot current (Worker.m_cols m)) in *.
  set (cc := Z.rem current (Worker.m_cols m)) in *.
  set (ni := Worker.idx (Worker.m_cols m) (cr + fst d) (cc + snd d)).
  assert (current <> -1) as Hne by lia.
  assert (0 <= ni < Z.of_nat (length (Worker.came st))) as Hni.
  { unfold ni, Worker.idx. rewrite Hlen. nia. }
  split; [constructor; simpl |]; simpl.
  - by rewrite length_insertZ.
  - intros n0 k0 Hl Hk0.
    apply lookupZ_insertZ_inv in Hl as [[-> ->] | Hl].
    + unfold ni. rewrite workerCell_idx by done.
      split; [by apply rooted_insertZ |]. split; [done |]. split; [done |].
      by apply (dirs8_king d cr cc).
    + destruct (Hcame n0 k0 Hl Hk0) as (Hr0 & Hb & Hps & Hk).
      split; [by apply rooted_insertZ |]. done.
  - intros k Hk.
    assert (k = ni \/ k ∈ Worker.heap st) as [-> | Hin].
    { destruct Hhp as [-> | ->]; [by right |]. by apply heapPush_elem in Hk. }
    + right. exists current. split; [| done]. by apply lookupZ_insertZ_eq.
    + apply rooted_insertZ; auto.
  - by apply rooted_insertZ.
Qed.

Lemma worker_relax_fold_inv (current : Z) (ds : list (Z * Z)) (st : Worker.State) :
  Forall (fun d => d ∈ dirs8) ds ->
  WInv st ->
  rooted startIdx (Worker.came st) current ->
  WInv (fold_left (Worker.relax m current (Z.quot current (Worker.m_cols m))
                     (Z.rem current (Worker.m_cols m))) ds st).
Proof.
  revert st. induction ds as [| d ds IH]; intros st Hds Hinv Hroot; [done |].
  apply Forall_cons in Hds as [Hd Hds]. cbn [fold_left].
  destruct (worker_relax_inv current st d Hd Hinv Hroot) as [Hinv' Hroot'].
  by apply IH.
Qed.

Lemma worker_searchLoop_inv (goalIdx : Z) (fuel : nat) (st st' : Worker.State)
    (e : Exit) :
  WInv st ->
  Worker.searchLoop m goalIdx fuel st = Some (e, st') ->
  WInv st'.
Proof.
  revert st. induction fuel as [| fuel IH]; intros st Hinv Hloop; [done |].
  rewrite worker_searchLoop_S in Hloop.
  destruct (Worker.heap st) as [| k0 hp] eqn:Hheap.
  { by injection Hloop as <- <-. }
  pose proof (heapPop_perm (Worker.f st) (k0 :: hp) k0 hp eq_refl) as [Htop Hperm].
  destruct (Worker.heapPop (Worker.f st) (k0 :: hp)) as [current hp'].
  cbv zeta in Hloop. cbn [fst snd] in Htop, Hperm. subst current.
  destruct Hinv as [Hlen Hcame Hhp]. rewrite Hheap in Hhp.
  assert (WInv (Worker.mkState (Worker.g st) (Worker.f st) (Worker.came st)
                  (Worker.open st) hp')) as Hinv1.
  { constructor; simpl; [done | done |].
    intros k Hk. apply Hhp. rewrite Hperm. by right. }
  destruct (k0 =? goalIdx).
  { by injection Hloop as <- <-. }
  apply IH in Hloop; [done |].
  apply worker_relax_fold_inv; [| done |].
  - by apply Forall_forall.
  - simpl. apply Hhp. by left.
Qed.

Lemma worker_initState_inv :
  startIdx = Worker.idx (Worker.m_cols m) (cell_r (Worker.m_start m))
               (cell_c (Worker.m_start m)) ->
  WInv (Worker.initState m).
Proof.
  intros ->. constructor; simpl.
  - by rewrite length_replicate.
  - intros n k Hl Hk. apply lookupZ_replicate in Hl. done.
  - intros k Hk. apply heapPush_elem in Hk as [-> | Hk]; [by left |].
    by apply elem_of_nil in Hk.
Qed.
End WorkerInvariant.

(** ** A goal that is not passable *)

Lemma worker_blocked_goal (m : Worker.Msg) (fuel : nat) :
  inBounds (msgGrid m) (Worker.m_goal m) ->
  workerPassable m (Worker.m_goal m) = false ->
  (Z.to_nat (Worker.m_rows m * Worker.m_cols m) + 2 <= fuel)%nat ->
  Worker.onmessage m fuel = Some (Return None).
Proof.
  intros [Hr Hc] Hblocked Hfuel. simpl in Hr, Hc.
  unfold Worker.onmessage.
  destruct (Z.ltb_spec (Worker.m_rows m * Worker.m_cols m) 0) as [Hneg | _]; [nia |].
  set (goalIdx := Worker.idx _ _ _).
  destruct (workerMeasure_init m) as [Hlen Hmeasure].
  destruct (worker_searchLoop_terminates m goalIdx fuel (Worker.initState m) Hlen)
    as (e & st & Hloop); [lia |].
  rewrite Hloop.
  apply worker_searchLoop_inv with (startIdx :=
    Worker.idx (Worker.m_cols m) (cell_r (Worker.m_start m)) (cell_c (Worker.m_start m)))
    in Hloop as [Hlen' Hcame _]; [| by apply worker_initState_inv].
  destruct (lookupZ_in_range (Worker.came st) goalIdx) as [k Hk].
  { rewrite Hlen'. unfold goalIdx, Worker.idx. nia. }
  rewrite Hk.
  destruct (decide (k = -1)) as [-> | Hne]; [done |].
  destruct (Hcame goalIdx k Hk Hne) as (_ & _ & Hp & _).
  unfold goalIdx in Hp. rewrite workerCell_idx in Hp by done.
  destruct (Worker.m_goal m) as [gr gc]. simpl in *. congruence.
Qed.

Lemma tilePassable_mask (gr : Grid) (s t p : Cell) :
  inBounds gr p ->
  workerPassable (Worker.mkMsg (rows gr) (cols gr) s t (buildMask gr)) p
  = tilePassable (GridOps.get gr (cell_r p) (cell_c p)).
Proof.
  intros Hp. unfold workerPassable, Worker.idx. simpl.
  rewrite (buildMask_lookup gr p Hp). by destruct (tilePassable _).
Qed.

Lemma Game_findPath_worker_blocked (gr : Grid) (start goal : Cell) (fuel : nat) :
  inBounds gr goal ->
  tilePassable (GridOps.get gr (cell_r goal) (cell_c goal)) = false ->
  (Z.to_nat (rows gr * cols gr) + 2 <= fuel)%nat ->
  Game_findPath_worker gr start goal fuel = Some (Return None).
Proof.
  intros Hg Hblocked Hfuel. unfold Game_findPath_worker.
  destruct (Z.ltb_spec (rows gr * cols gr) 0) as [Hneg | _].
  { destruct Hg. nia. }
  apply worker_blocked_goal; [done | | done].
  simpl. by rewrite tilePassable_mask.
Qed.

(** X4: a goal inside the grid whose tile is not passable (it is not
    empty, is not the road and shows no car, bike or saucer) is never
    reached by the worker: whatever the start, the loop of the worker
    ends within rows*cols+1 turns and [Game.findPath] resolves to
    [null]. *)
Theorem Game_findPath_worker_blocked_goal (gr : Grid) (start goal : Cell) (fuel : nat) :
  inBounds gr goal ->
  tilePassable (GridOps.get gr (cell_r goal) (cell_c goal)) = false ->
  (Z.to_nat (rows gr * cols gr) + 2 <= fuel)%nat ->
  Game_findPath_worker gr start goal fuel = Some (Return None).
Proof.
  intros Hg Hblocked Hfuel. unfold Game_findPath_worker.
  destruct (Z.ltb_spec (rows gr * cols gr) 0) as [Hneg | _].
  { destruct Hg. nia. }
  apply worker_blocked_goal; [exact Hg | | exact Hfuel].
  cbn [Worker.m_goal]. rewrite tilePassable_mask by exact Hg. exact Hblocked.
Qed.

Lemma Game_findPath_worker_blocked_goal_witness :
  Game_findPath_worker detour_grid (mkCell 0 0) (mkCell 1 2) 14 = Some (Return None).
Proof.
  apply (Game_findPath_worker_blocked_goal detour_grid (mkCell 0 0) (mkCell 1 2) 14).
  - unfold inBounds; simpl; lia.
  - reflexivity.
  - simpl; lia.
Defined.

Section BlockedCells.
Variable a : AStar.
Variable passable : Cell -> bool.
Variable goal : Cell.

Lemma relax_predecessorsPassable (current cr cc : Z) (st : Search) (n : Cell) :
  inBounds (grid a) n ->
  predecessorsPassable a passable st ->
  predecessorsPassable a passable (relax a passable goal current cr cc st n).
Proof.
  intros Hn Hinv.
  destruct (relax_cases a passable goal current cr cc st n)
    as [-> | (Hp & Hpos & cost & fv & ->)]; [done |].
  intros n0 k Hl Hk. simpl in Hl.
  apply lookupZ_insertZ_inv in Hl as [[-> ->] | Hl]; [by exists n |].
  by eapply Hinv.
Qed.

Lemma expand_predecessorsPassable (current : Z) (st : Search) :
  predecessorsPassable a passable st ->
  predecessorsPassable a passable (expand a passable goal current st).
Proof.
  unfold expand.
  generalize (neighbors_spec a (current / cols (grid a)) (Z.rem current (cols (grid a)))).
  generalize (neighbors a (current / cols (grid a)) (Z.rem current (cols (grid a)))).
  intros ns. revert st.
  induction ns as [| n ns IH]; intros st Hns Hinv; [done |]. cbn [fold_left].
  apply IH; [intros q Hq; apply Hns; by right |].
  apply relax_predecessorsPassable; [| done].
  apply Hns. by left.
Qed.

Lemma searchLoop_predecessorsPassable (goalIdx : Z) (fuel : nat) (st st' : Search)
    (e : Exit) :
  predecessorsPassable a passable st ->
  searchLoop a passable goal goalIdx fuel st = Some (e, st') ->
  predecessorsPassable a passable st' /\ length (cameFrom st') = length (cameFrom st).
Proof.
  revert st. induction fuel as [| fuel IH]; intros st Hinv; simpl; [done |].
  destruct (open st) as [| k0 op] eqn:Hop; [by intros [= <- <-] |].
  destruct (_ =? goalIdx); [by intros [= <- <-] |].
  intros Hloop. apply IH in Hloop as [Hinv' Hlen].
  - split; [done |]. rewrite Hlen. unfold expand.
    generalize (neighbors a (pickLowest (f st) (k0 :: op) / cols (grid a))
                  (Z.rem (pickLowest (f st) (k0 :: op)) (cols (grid a)))).
    intros ns.
    match goal with
    | |- length (cameFrom (fold_left _ ns ?s0)) = _ =>
        change (length (cameFrom st)) with (length (cameFrom s0)); generalize s0
    end.
    induction ns as [| n ns IHn]; intros s0; [done |]. cbn [fold_left].
    rewrite IHn. apply relax_length.
  - by apply expand_predecessorsPassable.
Qed.
End BlockedCells.

Lemma idx_inj (a : AStar) (p q : Cell) :
  inBounds (grid a) p -> inBounds (grid a) q -> idx a p = idx a q -> p = q.
Proof.
  intros Hp Hq Heq.
  assert (0 < cols (grid a)) as Hcols by (destruct Hp; lia).
  rewrite <- (cellOf_idx a p Hp), <- (cellOf_idx a q Hq). by rewrite Heq.
Qed.

(** X5: the main-thread engine never returns a path to a goal inside
    the grid that its mask or predicate rejects: on a cache miss the
    call, when it returns, returns [null], and the engine (its cache
    included) and the store are as before. *)
Theorem findPath_blocked_goal_returns_null (a a' : AStar) (h h' : Heap)
    (start goal : Cell) (mask : Mask) (fuel : nat) (out : Outcome aref) :
  inBounds (grid a) goal ->
  passablePredicate a mask goal = false ->
  cache a !! cacheKey a start goal = None ->
  findPath a h start goal mask fuel = Some (out, a', h') ->
  out = Return None /\ a' = a /\ h' = h.
Proof.
  intros Hg Hblocked Hmiss Hf.
  pose proof (idx_in_range a goal Hg) as Hgr.
  rewrite findPath_miss in Hf by (done || lia).
  destruct (searchLoop _ _ _ _ _ _) as [[e st] |] eqn:Hloop; [| done].
  apply searchLoop_predecessorsPassable in Hloop as [Hinv Hlen].
  2:{ intros n k Hl Hk. apply lookupZ_replicate in Hl. done. }
  destruct (decide _) as [_ | Hne]; [by injection Hf as <- <- <- |].
  exfalso.
  destruct (lookupZ_in_range (cameFrom st) (idx a goal)) as [k Hk].
  { rewrite Hlen. simpl. rewrite length_replicate. lia. }
  assert (k <> -1) as Hk1 by congruence.
  destruct (Hinv _ _ Hk Hk1) as (p & Hp & Hidx & Hpass).
  apply idx_inj in Hidx; [| done | done]. congruence.
Qed.

Lemma findPath_blocked_goal_returns_null_witness :
  @Return aref None = Return None /\
  newAStar detour_grid = newAStar detour_grid /\ emptyHeap = emptyHeap.
Proof.
  apply (findPath_blocked_goal_returns_null (newAStar detour_grid) (newAStar detour_grid)
           emptyHeap emptyHeap (mkCell 0 0) (mkCell 1 2)
           (MaskArr (buildMask detour_grid)) 20 (Return None)).
  - unfold inBounds; simpl; lia.
  - reflexivity.
  - reflexivity.
  - vm_compute. reflexivity.
Defined.

(** ** [simTick] *)

Lemma elem_of_seqZ0 (n k : Z) : k ∈ seqZ0 n <-> 0 <= k < n.
Proof.
  unfold seqZ0. rewrite list_elem_of_fmap. split.
  - intros (i & -> & Hi). apply elem_of_seq in Hi. lia.
  - intros Hk. exists (Z.to_nat k). split; [lia |]. apply elem_of_seq. lia.
Qed.

Lemma elem_of_scanCells (gr : Grid) (test : string -> bool) (p : Cell) :
  p ∈ scanCells gr test <->
  inBounds gr p /\
  test (default EmptyString (GridOps.get gr (cell_r p) (cell_c p))) = true.
Proof.
  unfold scanCells, inBounds. rewrite list_elem_of_bind. split.
  - intros (r & Hc & Hr%elem_of_seqZ0).
    apply list_elem_of_bind in Hc as (c & Hp & Hc%elem_of_seqZ0).
    destruct (test _) eqn:Ht; [| by apply elem_of_nil in Hp].
    apply list_elem_of_singleton in Hp as ->. done.
  - intros [[Hr Hc] Ht]. exists (cell_r p). split; [| by apply elem_of_seqZ0].
    apply list_elem_of_bind. exists (cell_c p). split; [| by apply elem_of_seqZ0].
    rewrite Ht. destruct p. apply list_elem_of_singleton. done.
Qed.

Lemma pick_elem (u : nat) (l : list Cell) (p : Cell) : pick u l = Some p -> p ∈ l.
Proof. unfold pick. intros Hp. by eapply list_elem_of_lookup_2. Qed.

Lemma includes_empty (pat : string) : pat <> EmptyString -> includes pat EmptyString = false.
Proof. by destruct pat. Qed.

(** A workplace without a vehicle on its tile fails the mask of
    [Game.findPath]. *)
Lemma work_tile_blocked (t : option string) :
  isWork (default EmptyString t) = true ->
  vehicleFree (default EmptyString t) ->
  tilePassable t = false.
Proof.
  destruct t as [t |]; [| by vm_compute]. simpl.
  intros Hw (Hcar & Hbike & Hsaucer). rewrite Hcar, Hbike, Hsaucer.
  destruct (String.eqb_spec t EmptyString) as [-> | _]; [by vm_compute in Hw |].
  destruct (String.eqb_spec t Tile.road) as [-> | _]; [by vm_compute in Hw |].
  done.
Qed.

(** X6: the commuter of [simTick] never sets off when the worker is in
    use: the destination drawn is a cell of the grid whose tile matches
    the workplaces, and unless that tile also shows a car, a bike or a
    saucer the mask of [Game.findPath] blocks it, so the path resolved is
    [null] and no vehicle is animated. *)
Theorem simTick_commuter_never_departs (gr : Grid) (u1 u2 : nat) (s d : Cell)
    (fuel : nat) :
  simTick gr u1 u2 = Some (s, d) ->
  vehicleFree (default EmptyString (GridOps.get gr (cell_r d) (cell_c d))) ->
  (Z.to_nat (rows gr * cols gr) + 2 <= fuel)%nat ->
  (inBounds gr s /\
   isHouse (default EmptyString (GridOps.get gr (cell_r s) (cell_c s))) = true) /\
  (inBounds gr d /\
   isWork (default EmptyString (GridOps.get gr (cell_r d) (cell_c d))) = true) /\
  exists path : option (list Cell),
    Game_findPath_worker gr s d fuel = Some (Return path) /\
    path = None /\ animates path = false.
Proof.
  intros Htick Hfree Hfuel. unfold simTick in Htick. cbv zeta in Htick.
  destruct (_ || _); [done |].
  destruct (pick u1 _) as [s' |] eqn:Hs; [| done].
  destruct (pick u2 _) as [d' |] eqn:Hd; [| done].
  injection Htick as -> ->.
  apply pick_elem, elem_of_scanCells in Hs, Hd.
  split; [done |]. split; [done |]. exists None. split; [| done].
  destruct Hd as [Hd Hwork].
  apply Game_findPath_worker_blocked; [done | | done].
  by apply work_tile_blocked.
Qed.

Lemma simTick_commuter_never_departs_witness :
  (inBounds town (mkCell 0 0) /\
   isHouse (default EmptyString (GridOps.get town 0 0)) = true) /\
  (inBounds town (mkCell 0 2) /\
   isWork (default EmptyString (GridOps.get town 0 2)) = true) /\
  exists path : option (list Cell),
    Game_findPath_worker town (mkCell 0 0) (mkCell 0 2) 8 = Some (Return path) /\
    path = None /\ animates path = false.
Proof.
  apply (simTick_commuter_never_departs town 0 0 (mkCell 0 0) (mkCell 0 2) 8).
  - reflexivity.
  - repeat split; reflexivity.
  - simpl; lia.
Defined.

(** ** The path of the worker *)

Section WorkerPath.
Variable m : Worker.Msg.
Variable startIdx : Z.
Variable came : list Z.

Hypothesis cols_pos : 0 < Worker.m_cols m.
Hypothesis start_pos : 0 <= startIdx.
Hypothesis came_rooted :
  forall n k : Z, lookupZ came n = Some k -> k <> -1 -> rooted startIdx came k.

Lemma workerCell_cellOf (k : Z) :
  0 <= k -> workerCell m k = cellOf (newAStar (msgGrid m)) k.
Proof.
  intros Hk. unfold workerCell, cellOf. simpl.
  by rewrite Z.quot_div_nonneg by lia.
Qed.

Lemma rooted_nonneg (k : Z) : rooted startIdx came k -> 0 <= k.
Proof.
  intros [-> | (k' & Hk & _)]; [done |].
  apply lookupZ_Some_range in Hk. lia.
Qed.

Lemma rebuild_trail (fuel : nat) :
  forall (cur : Z) (path path' : list Cell),
    cur <> -1 -> rooted startIdx came cur ->
    Worker.rebuild (Worker.m_cols m) came fuel cur path = Some path' ->
    exists l : list Cell,
      Trail (newAStar (msgGrid m)) startIdx came cur l /\
      path' = reverse l ++ path.
Proof.
  induction fuel as [| fuel' IH]; intros cur path path' Hcur Hroot; simpl; [done |].
  destruct (Z.eqb_spec cur (-1)) as [| _]; [done |].
  destruct (lookupZ came cur) as [nxt |] eqn:Hnxt; [| done].
  change (mkCell (Z.quot cur (Worker.m_cols m)) (Z.rem cur (Worker.m_cols m)))
    with (workerCell m cur).
  rewrite workerCell_cellOf by (by apply rooted_nonneg).
  destruct (decide (nxt = -1)) as [-> | Hne].
  - destruct fuel' as [| fuel'']; simpl; [done |].
    intros [= <-].
    assert (cur = startIdx) as ->.
    { destruct Hroot as [-> | (k & Hk & Hk1)]; [done | congruence]. }
    exists [cellOf (newAStar (msgGrid m)) startIdx]. split; [| done].
    by apply Trail_root.
  - intros Hrec.
    apply IH in Hrec as (l & Htr & ->); [| done | by eapply came_rooted].
    exists (cellOf (newAStar (msgGrid m)) cur :: l). split.
    + by eapply Trail_step.
    + by rewrite reverse_cons, <- app_assoc.
Qed.

Lemma trail_two_cells (cur : Z) (l : list Cell) (k : Z) :
  lookupZ came cur = Some k -> k <> -1 ->
  Trail (newAStar (msgGrid m)) startIdx came cur l -> (2 <= length l)%nat.
Proof.
  intros Hk Hk1 Htr. destruct Htr as [Hroot | n k' l Hn Hk' Htr]; [congruence |].
  destruct Htr; simpl; lia.
Qed.
End WorkerPath.

Lemma worker_found_valid (m : Worker.Msg) (fuel : nat) (path : list Cell) :
  inBounds (msgGrid m) (Worker.m_start m) ->
  inBounds (msgGrid m) (Worker.m_goal m) ->
  Worker.onmessage m fuel = Some (Return (Some path)) ->
  validPath (msgGrid m) (workerPassable m) (Worker.m_start m) (Worker.m_goal m) path /\
  (2 <= length path)%nat.
Proof.
  intros Hs Hg Hrun.
  assert (0 < Worker.m_cols m) as Hcols by (destruct Hs; simpl in *; lia).
  pose proof (idx_in_range (newAStar (msgGrid m)) _ Hs) as Hsr.
  pose proof (idx_in_range (newAStar (msgGrid m)) _ Hg) as Hgr.
  unfold idx in Hsr, Hgr. simpl in Hsr, Hgr.
  unfold Worker.onmessage in Hrun.
  destruct (Z.ltb_spec (Worker.m_rows m * Worker.m_cols m) 0) as [| _]; [done |].
  set (goalIdx := Worker.idx _ _ _) in Hrun.
  set (startIdx := Worker.idx (Worker.m_cols m) (cell_r (Worker.m_start m))
                     (cell_c (Worker.m_start m))).
  destruct (Worker.searchLoop _ _ _ _) as [[e st] |] eqn:Hloop; [| done].
  apply worker_searchLoop_inv with (startIdx := startIdx) in Hloop
    as [Hlen Hcame _]; [| by apply worker_initState_inv].
  destruct (lookupZ_in_range (Worker.came st) goalIdx) as [k Hk].
  { rewrite Hlen. unfold goalIdx, Worker.idx. lia. }
  rewrite Hk in Hrun.
  assert (k <> -1) as Hk1 by (intros ->; done).
  assert (Worker.rebuild (Worker.m_cols m) (Worker.came st) fuel goalIdx [] = Some path)
    as Hreb.
  { destruct (Worker.rebuild _ _ _ _ _) as [path0 |];
      repeat case_match; simplify_eq; done. }
  assert (forall n k0 : Z, lookupZ (Worker.came st) n = Some k0 -> k0 <> -1 ->
            rooted startIdx (Worker.came st) k0) as Hrooted.
  { intros n k0 Hn Hk0. by destruct (Hcame n k0 Hn Hk0). }
  apply rebuild_trail with (startIdx := startIdx) in Hreb as (l & Htr & ->);
    [| done | unfold startIdx, Worker.idx; lia | done
     | unfold goalIdx, Worker.idx; lia | right; by exists k].
  rewrite app_nil_r. split.
  - assert (cellOf (newAStar (msgGrid m)) startIdx = Worker.m_start m) as Hcs.
    { apply (cellOf_idx (newAStar (msgGrid m)) _ Hs). }
    assert (cellOf (newAStar (msgGrid m)) goalIdx = Worker.m_goal m) as Hcg.
    { apply (cellOf_idx (newAStar (msgGrid m)) _ Hg). }
    pose proof (fun H1 H2 => trail_valid (newAStar (msgGrid m)) (workerPassable m)
                  startIdx (Worker.came st) H1 goalIdx l H2 Htr) as Hv.
    rewrite Hcs, Hcg in Hv. apply Hv; [| done].
    intros n k0 Hn Hk0. destruct (Hcame n k0 Hn Hk0) as (Hr0 & Hb & Hp & Hking).
    rewrite <- !(workerCell_cellOf m) by
      (done || (apply lookupZ_Some_range in Hn; lia)
       || (eapply rooted_nonneg; [| exact Hr0]; unfold startIdx, Worker.idx; lia)).
    done.
  - rewrite length_reverse. by eapply trail_two_cells.
Qed.

(** X7: a path the worker answers to [Game.findPath], for a start and a
    goal inside the grid, is a walk of at least two cells: it begins at
    the start, ends at the goal, stays inside the grid, moves one king
    step at a time, and every cell after the first has a passable tile
    (empty, the road, or one showing a car, a bike or a saucer). *)
Theorem Game_findPath_worker_path_is_walk (gr : Grid) (start goal : Cell) (fuel : nat)
    (path : list Cell) :
  inBounds gr start ->
  inBounds gr goal ->
  Game_findPath_worker gr start goal fuel = Some (Return (Some path)) ->
  (2 <= length path)%nat /\
  head path = Some start /\
  last path = Some goal /\
  Forall (inBounds gr) path /\
  consecutive kingStep path /\
  Forall (fun q => tilePassable (GridOps.get gr (cell_r q) (cell_c q)) = true)
    (tail path).
Proof.
  intros Hs Hg Hrun. unfold Game_findPath_worker in Hrun.
  destruct (_ <? 0); [done |].
  apply worker_found_valid in Hrun as [[Hhd Hlast Hb Hsteps Hpass] Hlen];
    [| done | done].
  assert (Forall (inBounds gr) path) as Hb'.
  { eapply Forall_impl; [exact Hb |]. intros q Hq. exact Hq. }
  do 5 (split; [done |]).
  assert (Forall (inBounds gr) (tail path)) as Hbt.
  { destruct path; [done |]. by apply Forall_cons in Hb' as [_ Hb']. }
  rewrite Forall_forall in Hpass, Hbt. apply Forall_forall. intros q0 Hq.
  rewrite <- (tilePassable_mask gr start goal q0) by auto. auto.
Qed.

Lemma Game_findPath_worker_path_is_walk_witness :
  (2 <= length detour_worker_path)%nat /\
  head detour_worker_path = Some (mkCell 0 3) /\
  last detour_worker_path = Some (mkCell 2 0) /\
  Forall (inBounds detour_grid) detour_worker_path /\
  consecutive kingStep detour_worker_path /\
  Forall (fun q => tilePassable (GridOps.get detour_grid (cell_r q) (cell_c q)) = true)
    (tail detour_worker_path).
Proof.
  apply (Game_findPath_worker_path_is_walk detour_grid (mkCell 0 3) (mkCell 2 0) 20).
  - unfold inBounds; simpl; lia.
  - unfold inBounds; simpl; lia.
  - vm_compute. reflexivity.
Defined.

(** ** What the cache key tells apart *)

(** X8: the key of the cache is the same for two queries exactly when
    they have the same start, the same goal and grids of the same
    dimensions: distinct queries never share an entry, and the mask, the
    tiles and the [diagonal] flag play no part in the key. *)
Theorem cacheKey_identifies_query (a a' : AStar) (s t s' t' : Cell) :
  cacheKey a s t = cacheKey a' s' t' <->
  s = s' /\ t = t' /\ rows (grid a) = rows (grid a') /\ cols (grid a) = cols (grid a').
Proof.
  split.
  - unfold cacheKey. intros Heq.
    apply (numeral_sep_inj ","%char) in Heq as [Hsr Heq];
      [| done | apply showZ_numeral | apply showZ_numeral].
    apply (numeral_sep_inj "|"%char) in Heq as [Hsc Heq];
      [| done | apply showZ_numeral | apply showZ_numeral].
    apply (numeral_sep_inj ","%char) in Heq as [Htr Heq];
      [| done | apply showZ_numeral | apply showZ_numeral].
    apply (numeral_sep_inj "|"%char) in Heq as [Htc Heq];
      [| done | apply showZ_numeral | apply showZ_numeral].
    apply (numeral_sep_inj "x"%char) in Heq as [Hrows Hcols];
      [| done | apply showZ_numeral | apply showZ_numeral].
    apply showZ_inj in Hsr, Hsc, Htr, Htc, Hrows, Hcols.
    destruct s, t, s', t'; simpl in *. by subst.
  - intros (-> & -> & Hr & Hc). unfold cacheKey. by rewrite Hr, Hc.
Qed.

(** ** The cache is never invalidated *)

(** X9: the cache outlives every edit of the grid.  Once a path of
    fewer than 512 cells was returned for a start and a goal, the same
    query is answered from the cache with that path, whatever tiles were
    placed or removed in between, whatever mask or predicate comes with
    the new call, and without any search (no turn of the loop is
    needed): a building put on the route does not change the answer. *)
Theorem cached_path_outlives_edits (a a1 : AStar) (h h1 : Heap) (s t : Cell)
    (mask mask' : Mask) (fuel fuel' : nat) (p : aref) (v : list Cell)
    (cells' : list string) (diag' : bool) :
  cacheWF a h ->
  findPath a h s t mask fuel = Some (Return (Some p), a1, h1) ->
  read_path h1 p = Some v ->
  (length v < 512)%nat ->
  exists h2 : Heap,
    findPath (edited a1 cells' diag') h1 s t mask' fuel'
    = Some (Return (Some (length (arrs h1))), edited a1 cells' diag', h2) /\
    read_path h2 (length (arrs h1)) = Some v.
Proof.
  intros Hwf Hf Hread Hlen.
  pose proof (findPath_short_cached _ _ _ _ _ _ _ _ _ _ Hf Hread Hlen) as Hcached.
  destruct (cacheHolds_established _ _ _ _ _ _ _ _ _ _ Hwf Hf Hread Hcached)
    as [Hholds _].
  assert (cacheHolds (edited a1 cells' diag') h1
            (cacheKey (edited a1 cells' diag') s t) v) as Hholds'.
  { exact Hholds. }
  destruct (cacheHolds_hit _ h1 s t mask' fuel' v Hholds') as (h2 & Hhit & Hread2 & _).
  by exists h2.
Qed.

Lemma cached_path_outlives_edits_witness :
  exists h2 : Heap,
    findPath (edited lane_engine lane_blocked true) lane_heap (mkCell 0 0) (mkCell 0 2)
      (MaskArr (buildMask (mkGrid 1 3 lane_blocked))) 0
    = Some (Return (Some (length (arrs lane_heap))),
            edited lane_engine lane_blocked true, h2) /\
    read_path h2 (length (arrs lane_heap))
    = Some [mkCell 0 0; mkCell 0 1; mkCell 0 2].
Proof.
  apply (cached_path_outlives_edits lane lane_engine emptyHeap lane_heap
           (mkCell 0 0) (mkCell 0 2) MaskNone
           (MaskArr (buildMask (mkGrid 1 3 lane_blocked))) 10 0 0%nat
           [mkCell 0 0; mkCell 0 1; mkCell 0 2] lane_blocked true).
  - intros k c Hk. vm_compute in Hk. discriminate Hk.
  - vm_compute. reflexivity.
  - vm_compute. reflexivity.
  - simpl. lia.
Defined.

(** ** The Konami code *)






(** ** Queries whose flat index falls outside the typed arrays *)

Lemma insertZ_outside {A : Type} (l : list A) (i : Z) (x : A) :
  lookupZ l i = None -> insertZ i x l = l.
Proof.
  unfold lookupZ, insertZ. destruct (i <? 0); [done |].
  intros Hl. apply lookup_ge_None in Hl. by apply list_insert_ge.
Qed.

Lemma lookupZ_outside {A : Type} (l : list A) (i : Z) :
  ~ (0 <= i < Z.of_nat (length l)) -> lookupZ l i = None.
Proof.
  intros Hi. unfold lookupZ. destruct (Z.ltb_spec i 0); [done |].
  apply lookup_ge_None. lia.
Qed.

Lemma relax_nan (a : AStar) (passable : Cell -> bool) (goal : Cell)
    (current cr cc : Z) (st : Search) (n : Cell) :
  lookupZ (g st) current = None ->
  relax a passable goal current cr cc st n = st.
Proof.
  intros Hg. unfold relax. destruct (negb _); [done |].
  by rewrite (getF_None_nan _ _ Hg), ltb_nan_add.
Qed.

Lemma expand_nan (a : AStar) (passable : Cell -> bool) (goal : Cell)
    (current : Z) (st : Search) :
  lookupZ (g st) current = None ->
  expand a passable goal current st = st.
Proof.
  intros Hg. unfold expand.
  generalize (neighbors a (current / cols (grid a)) (Z.rem current (cols (grid a)))).
  intros ns. induction ns as [| n ns IH]; [done |]. cbn [fold_left].
  by rewrite relax_nan.
Qed.

Lemma searchLoop_start_outside (a : AStar) (passable : Cell -> bool)
    (start goal : Cell) (fuel : nat) :
  ~ (0 <= idx a start < rows (grid a) * cols (grid a)) ->
  0 <= rows (grid a) * cols (grid a) ->
  idx a start <> -1 ->
  idx a goal <> -1 ->
  searchLoop a passable goal (idx a goal) fuel (initSearch a start goal) = None.
Proof.
  intros Hout Hsize Hs Hg.
  set (size := Z.to_nat (rows (grid a) * cols (grid a))).
  assert (forall (A : Type) (x : A), lookupZ (replicate size x) (idx a start) = None)
    as Hnone.
  { intros A x. apply lookupZ_outside. rewrite length_replicate. unfold size. lia. }
  unfold initSearch. fold size. cbv zeta.
  rewrite !insertZ_outside by apply Hnone.
  induction fuel as [| fuel IH]; [done |].
  cbn [searchLoop open f g cameFrom].
  assert (pickLowest (replicate size infinity) [idx a start] = -1) as ->.
  { unfold pickLowest, pickStep. cbn [fold_left snd].
    by rewrite (getF_None_nan _ _ (Hnone _ _)). }
  destruct (Z.eqb_spec (-1) (idx a goal)) as [Heq | _]; [congruence |].
  cbn [g f cameFrom].
  assert (setDelete (-1) [idx a start] = [idx a start]) as ->.
  { unfold setDelete. rewrite filter_cons.
    destruct (decide (idx a start <> -1)); [done | contradiction]. }
  rewrite expand_nan; [apply IH |].
  cbn [g]. apply lookupZ_outside. rewrite length_replicate. lia.
Qed.

Lemma worker_relax_nan (m : Worker.Msg) (current cr cc : Z) (st : Worker.State)
    (ds : list (Z * Z)) :
  lookupZ (Worker.g st) current = None ->
  fold_left (Worker.relax m current cr cc) ds st = st.
Proof.
  intros Hg. induction ds as [| d ds IH]; [done |]. cbn [fold_left].
  destruct (worker_relax_detail m current cr cc st d)
    as [-> | (g' & f' & op' & hp' & _ & _ & _ & [x Hx] & _)]; [done | congruence].
Qed.

Lemma worker_start_outside (m : Worker.Msg) (fuel : nat) :
  inBounds (msgGrid m) (Worker.m_goal m) ->
  ~ (0 <= Worker.idx (Worker.m_cols m) (cell_r (Worker.m_start m))
            (cell_c (Worker.m_start m))
     < Worker.m_rows m * Worker.m_cols m) ->
  Worker.onmessage m (S (S fuel)) = Some (Return None).
Proof.
  intros Hg Hout.
  pose proof (idx_in_range (newAStar (msgGrid m)) _ Hg) as Hgr.
  unfold idx in Hgr. simpl in Hgr.
  unfold Worker.onmessage.
  destruct (Z.ltb_spec (Worker.m_rows m * Worker.m_cols m) 0) as [| _].
  { lia. }
  set (goalIdx := Worker.idx (Worker.m_cols m) (cell_r (Worker.m_goal m))
                    (cell_c (Worker.m_goal m))) in *.
  set (startIdx := Worker.idx (Worker.m_cols m) (cell_r (Worker.m_start m))
                     (cell_c (Worker.m_start m))) in *.
  set (size := Z.to_nat (Worker.m_rows m * Worker.m_cols m)).
  assert (forall (A : Type) (x : A), lookupZ (replicate size x) startIdx = None)
    as Hnone.
  { intros A x. apply lookupZ_outside. rewrite length_replicate. unfold size. lia. }
  assert (Worker.initState m
          = Worker.mkState (replicate size infinity) (replicate size infinity)
              (replicate size (-1)) (replicate size 0) [startIdx]) as ->.
  { unfold Worker.initState. fold size startIdx. cbv zeta.
    by rewrite !insertZ_outside by apply Hnone. }
  rewrite worker_searchLoop_S. cbn [Worker.heap Worker.heapPop length Nat.sub take].
  cbv zeta. cbn [Worker.g Worker.f Worker.came Worker.open].
  destruct (Z.eqb_spec startIdx goalIdx) as [Heq | _].
  { unfold startIdx, goalIdx, Worker.idx in *. lia. }
  rewrite worker_relax_nan by apply Hnone.
  rewrite worker_searchLoop_S. cbn [Worker.heap Worker.came].
  rewrite lookupZ_replicate_in by (unfold size, goalIdx, Worker.idx; lia). done.
Qed.

Lemma findPath_goal_outside (a : AStar) (h : Heap) (start goal : Cell) (mask : Mask)
    (fuel : nat) :
  0 <= rows (grid a) * cols (grid a) ->
  ~ (0 <= idx a goal < rows (grid a) * cols (grid a)) ->
  idx a goal <> -1 ->
  cache a !! cacheKey a start goal = None ->
  findPath a h start goal mask fuel = None.
Proof.
  intros Hsize Hout Hg Hmiss.
  rewrite findPath_miss by done.
  destruct (searchLoop _ _ _ _ _ _) as [[e st] |] eqn:Hloop; [| done].
  apply searchLoop_predecessorsPassable in Hloop as [_ Hlen].
  2:{ intros n k Hl Hk. apply lookupZ_replicate in Hl. done. }
  assert (lookupZ (cameFrom st) (idx a goal) = None) as Hnone.
  { apply lookupZ_outside. rewrite Hlen. simpl. rewrite length_replicate. lia. }
  destruct (decide _) as [Heq | _]; [congruence |].
  destruct fuel as [| fuel]; [done |]. rewrite reconstruct_S.
  destruct (Z.eqb_spec (idx a goal) (-1)); [done |].
  by rewrite Hnone.
Qed.

Lemma worker_goal_outside (m : Worker.Msg) (fuel : nat) :
  0 <= Worker.m_rows m * Worker.m_cols m ->
  ~ (0 <= Worker.idx (Worker.m_cols m) (cell_r (Worker.m_goal m))
            (cell_c (Worker.m_goal m))
     < Worker.m_rows m * Worker.m_cols m) ->
  Worker.idx (Worker.m_cols m) (cell_r (Worker.m_goal m)) (cell_c (Worker.m_goal m))
  <> -1 ->
  Worker.onmessage m fuel = None.
Proof.
  intros Hsize Hout Hg. unfold Worker.onmessage.
  destruct (Z.ltb_spec (Worker.m_rows m * Worker.m_cols m) 0) as [| _]; [lia |].
  set (goalIdx := Worker.idx (Worker.m_cols m) (cell_r (Worker.m_goal m))
                    (cell_c (Worker.m_goal m))) in *.
  destruct (Worker.searchLoop _ _ _ _) as [[e st] |] eqn:Hloop; [| done].
  apply worker_searchLoop_inv with (startIdx :=
    Worker.idx (Worker.m_cols m) (cell_r (Worker.m_start m)) (cell_c (Worker.m_start m)))
    in Hloop as [Hlen _ _]; [| by apply worker_initState_inv].
  assert (lookupZ (Worker.came st) goalIdx = None) as ->.
  { apply lookupZ_outside. rewrite Hlen. lia. }
  destruct fuel as [| fuel]; [done |]. simpl.
  destruct (Z.eqb_spec goalIdx (-1)); [done |].
  assert (lookupZ (Worker.came st) goalIdx = None) as ->; [| done].
  apply lookupZ_outside. rewrite Hlen. lia.
Qed.

(** X11: a goal whose flat index falls outside the typed arrays (and is
    not -1) is never answered, by either engine: [cameFrom[goalIdx]] is
    [undefined], not -1, so the search result is not taken for "no
    path", and the loop that rebuilds the path never reaches -1. *)
Theorem goal_outside_arrays_never_returns (a : AStar) (h : Heap) (start goal : Cell)
    (mask : Mask) (passable : list Z) (fuel wfuel : nat) :
  0 <= rows (grid a) * cols (grid a) ->
  ~ (0 <= idx a goal < rows (grid a) * cols (grid a)) ->
  idx a goal <> -1 ->
  cache a !! cacheKey a start goal = None ->
  findPath a h start goal mask fuel = None /\
  Worker.onmessage (Worker.mkMsg (rows (grid a)) (cols (grid a)) start goal passable)
    wfuel = None.
Proof.
  intros Hsize Hout Hg Hmiss. split.
  - by apply findPath_goal_outside.
  - by apply worker_goal_outside.
Qed.

Lemma goal_outside_arrays_never_returns_witness :
  findPath (newAStar (newGrid 1 1)) emptyHeap (mkCell 0 0) (mkCell 0 1) MaskNone 50 = None /\
  Worker.onmessage (Worker.mkMsg (rows (grid (newAStar (newGrid 1 1))))
                      (cols (grid (newAStar (newGrid 1 1)))) (mkCell 0 0) (mkCell 0 1) [1])
    50 = None.
Proof.
  apply (goal_outside_arrays_never_returns (newAStar (newGrid 1 1)) emptyHeap
           (mkCell 0 0) (mkCell 0 1) MaskNone [1] 50 50).
  - simpl; lia.
  - unfold idx; simpl; lia.
  - unfold idx; simpl; lia.
  - reflexivity.
Defined.

(** X12: a start whose flat index falls outside the typed arrays (and is
    not -1), with a goal inside the grid: the main-thread engine never
    returns (no entry of the frontier has a finite [f], so nothing is
    ever taken from it), while the worker answers [null] after one turn
    of its loop. *)
Theorem start_outside_arrays_hangs_main_thread (a : AStar) (h : Heap)
    (start goal : Cell) (mask : Mask) (passable : list Z) (fuel wfuel : nat) :
  inBounds (grid a) goal ->
  ~ (0 <= idx a start < rows (grid a) * cols (grid a)) ->
  idx a start <> -1 ->
  cache a !! cacheKey a start goal = None ->
  findPath a h start goal mask fuel = None /\
  Worker.onmessage (Worker.mkMsg (rows (grid a)) (cols (grid a)) start goal passable)
    (S (S wfuel)) = Some (Return None).
Proof.
  intros Hg Hout Hs Hmiss.
  pose proof (idx_in_range a goal Hg) as Hgr. split.
  - rewrite findPath_miss by (done || lia).
    rewrite searchLoop_start_outside; [done | done | lia | done | lia].
  - by apply worker_start_outside.
Qed.

Lemma start_outside_arrays_hangs_main_thread_witness :
  findPath (newAStar (newGrid 2 2)) emptyHeap (mkCell 2 0) (mkCell 0 0) MaskNone 50 = None /\
  Worker.onmessage (Worker.mkMsg (rows (grid (newAStar (newGrid 2 2))))
                      (cols (grid (newAStar (newGrid 2 2)))) (mkCell 2 0) (mkCell 0 0)
                      [1; 1; 1; 1])
    (S (S 0)) = Some (Return None).
Proof.
  apply (start_outside_arrays_hangs_main_thread (newAStar (newGrid 2 2)) emptyHeap
           (mkCell 2 0) (mkCell 0 0) MaskNone [1; 1; 1; 1] 50 0).
  - unfold inBounds; simpl; lia.
  - unfold idx; simpl; lia.
  - unfold idx; simpl; lia.
  - reflexivity.
Defined.

(** * The editor *)

Section EditorFacts.
Import Editor.

(** ** Arrays *)

Lemma arr_slice_get (a : JsArray) (i : Z) :
  arr_get (arr_slice a) i
  = if decide (0 <= i < arr_length a) then arr_get a i else None.
Proof.
  unfold arr_get, arr_slice. simpl.
  destruct (arr_props a !! i) as [v |] eqn:Hv.
  - destruct (decide _) as [Hi | Hi].
    + by apply map_lookup_filter_Some.
    + apply map_lookup_filter_None. right. intros v' Hv'. done.
  - destruct (decide _); apply map_lookup_filter_None; by left.
Qed.

Lemma JsArray_eq (a b : JsArray) :
  arr_length a = arr_length b ->
  (forall i : Z, arr_get a i = arr_get b i) ->
  a = b.
Proof.
  destruct a as [la pa], b as [lb pb]. simpl. intros -> Hget.
  f_equal. apply map_eq. exact Hget.
Qed.

Lemma arr_slice_plain (a : JsArray) : plain (arr_slice a).
Proof.
  apply JsArray_eq; [done |]. intros i. rewrite !arr_slice_get. simpl.
  by destruct (decide _).
Qed.

Lemma plain_get (a : JsArray) (i : Z) :
  plain a -> ~ (0 <= i < arr_length a) -> arr_get a i = None.
Proof.
  intros Hp Hi. rewrite <- Hp, arr_slice_get. by destruct (decide _).
Qed.

Lemma arr_set_get (a : JsArray) (i j : Z) (v : string) :
  arr_get (arr_set a i v) j = if decide (i = j) then Some v else arr_get a j.
Proof.
  unfold arr_get, arr_set. simpl. destruct (decide (i = j)) as [-> | Hne].
  - by rewrite lookup_insert_eq.
  - by rewrite lookup_insert_ne.
Qed.

Lemma arr_set_length_inside (a : JsArray) (i : Z) (v : string) :
  i < arr_length a -> arr_length (arr_set a i v) = arr_length a.
Proof.
  intros Hi. unfold arr_set. simpl.
  destruct (Z.leb_spec (arr_length a) i); [lia |]. by rewrite andb_false_r.
Qed.

Lemma arr_fill_fold (ks : list Z) (a : JsArray) (v : string) :
  Forall (fun i => i < arr_length a) ks ->
  arr_length (fold_left (fun a i => arr_set a i v) ks a) = arr_length a /\
  forall j : Z,
    arr_get (fold_left (fun a i => arr_set a i v) ks a) j
    = if decide (j ∈ ks) then Some v else arr_get a j.
Proof.
  revert a. induction ks as [| i ks IH]; intros a Hks; simpl.
  - split; [done |]. intros j. destruct (decide (j ∈ [])) as [Hj | _]; [| done].
    by apply elem_of_nil in Hj.
  - apply Forall_cons in Hks as [Hi Hks].
    destruct (IH (arr_set a i v)) as [Hlen Hget].
    { rewrite arr_set_length_inside by done. done. }
    split; [by rewrite Hlen, arr_set_length_inside |].
    intros j. rewrite Hget, arr_set_get.
    destruct (decide (j ∈ ks)) as [Hin | Hnin].
    + destruct (decide (j ∈ i :: ks)) as [_ | Hn]; [done |].
      exfalso. apply Hn. by right.
    + destruct (decide (i = j)) as [-> | Hne].
      * destruct (decide (j ∈ j :: ks)) as [_ | Hn]; [done |].
        exfalso. apply Hn. by left.
      * destruct (decide (j ∈ i :: ks)) as [[Heq | Hin]%elem_of_cons | _]; done.
Qed.

Lemma arr_fill_spec (a : JsArray) (v : string) :
  arr_length (arr_fill a v) = arr_length a /\
  forall j : Z,
    arr_get (arr_fill a v) j
    = if decide (0 <= j < arr_length a) then Some v else arr_get a j.
Proof.
  unfold arr_fill.
  destruct (arr_fill_fold (seqZ0 (arr_length a)) a v) as [Hlen Hget].
  { apply Forall_forall. intros i Hi%elem_of_seqZ0. lia. }
  split; [done |]. intros j. rewrite Hget.
  destruct (decide (j ∈ seqZ0 (arr_length a))) as [Hin | Hnin];
    destruct (decide (0 <= j < arr_length a)) as [Hj | Hj]; try done.
  - apply elem_of_seqZ0 in Hin. lia.
  - exfalso. apply Hnin. by apply elem_of_seqZ0.
Qed.


(** ** Snapshots *)

Lemma loadJSON_toJSON (gd g0 : Grid) :
  plain (cells g0) -> loadJSON gd (toJSON g0) = g0.
Proof.
  intros Hp. destruct g0 as [r c cs]. unfold loadJSON, toJSON. simpl in *.
  f_equal. by rewrite !Hp.
Qed.
End EditorFacts.

(** ** Sessions of edits, undo and redo *)

Section EditorSession.
Import Editor.
Variable g0 : Grid.
Hypothesis g0_plain : plain (cells g0).

Lemma replayAction_reached (s : Script) (gd : Grid) (a : Action) :
  reached (replayAction s gd a) = applyAction gd a.
Proof. by destruct a, s. Qed.




















End EditorSession.








(** On the 1x2 grid, the script having run to its end: a stroke at
    (0,0), undo, a stroke at (0,1), undo.  The grid then shows the first
    stroke, which had been undone, and not the empty grid the second
    stroke was made on. *)
Example undo_does_not_return_to_previous_grid :
  Editor.get (Editor.grid (Editor.session RanToEnd Editor.sheet
                             [Editor.stroke1; Editor.Undo])) 0 0
  = Some EmptyString /\
  Editor.get (Editor.grid (Editor.session RanToEnd Editor.sheet
                             [Editor.stroke1; Editor.Undo; Editor.stroke2; Editor.Undo])) 0 0
  = Some Tile.house.
Proof. split; reflexivity. Qed.

(** ** The editor when the script stopped at line 600 *)




(** On the 1x2 grid, the script having stopped at line 600: the log
    holds the snapshot of the empty grid and a stroke at (0,0), which
    the grid shows.  A redo, which should change nothing, throws and
    leaves the grid empty. *)
Example redo_wipes_grid_when_script_stopped :
  let gm := Editor.mkGame
              (Editor.set Editor.sheet 0 0 (Some Tile.house))
              [Editor.AInit (Some (Editor.toJSON Editor.sheet));
               Editor.ASet 0 0 (Some Tile.house)]
              2 (Some Editor.NotStarted) in
  Editor.get (Editor.grid gm) 0 0 = Some Tile.house /\
  returns (Editor.redo StoppedAtInit gm) = false /\
  Editor.get (Editor.grid (reached (Editor.redo StoppedAtInit gm))) 0 0
  = Some EmptyString /\
  Editor.get (Editor.grid (reached (Editor.redo RanToEnd gm))) 0 0 = Some Tile.house.
Proof. cbv zeta. repeat split; reflexivity. Qed.

(** ** Cells of the grid *)

Section EditorGrid.
Import Editor.

Lemma filter_length_all {A : Type} (P : A -> Prop) `{!forall x, Decision (P x)}
    (l : list A) :
  Forall P l -> length (filter P l) = length l.
Proof.
  induction 1 as [| x l Hx Hl IH]; [done |].
  rewrite filter_cons. destruct (decide (P x)); [| done]. simpl. by rewrite IH.
Qed.

Lemma filter_length_none {A : Type} (P : A -> Prop) `{!forall x, Decision (P x)}
    (l : list A) :
  Forall (fun x => ~ P x) l -> length (filter P l) = 0%nat.
Proof.
  induction 1 as [| x l Hx Hl IH]; [done |].
  rewrite filter_cons. destruct (decide (P x)); [done |]. exact IH.
Qed.

Lemma length_seqZ0 (n : Z) : length (seqZ0 n) = Z.to_nat n.
Proof. unfold seqZ0. by rewrite length_map, length_seq. Qed.

Lemma arr_truthy_fill (a : JsArray) (v : string) :
  arr_truthy (arr_fill a v)
  = if decide (v = EmptyString) then 0%nat else Z.to_nat (arr_length a).
Proof.
  destruct (arr_fill_spec a v) as [Hlen Hget]. unfold arr_truthy. rewrite Hlen.
  destruct (decide (v = EmptyString)) as [-> | Hv].
  - apply filter_length_none. apply Forall_forall. intros i Hi%elem_of_seqZ0.
    rewrite Hget. destruct (decide _); [| lia]. simpl. auto.
  - rewrite filter_length_all; [apply length_seqZ0 |].
    apply Forall_forall. intros i Hi%elem_of_seqZ0.
    rewrite Hget. destruct (decide _); [| lia]. done.
Qed.

Lemma filter_ext_in {A : Type} (P Q : A -> Prop) `{!forall x, Decision (P x)}
    `{!forall x, Decision (Q x)} (l : list A) :
  (forall x, x ∈ l -> (P x <-> Q x)) -> filter P l = filter Q l.
Proof.
  induction l as [| x l IH]; intros Hpq; [done |].
  rewrite !filter_cons.
  assert (P x <-> Q x) as Hx by (apply Hpq; by left).
  rewrite IH by (intros y Hy; apply Hpq; by right).
  destruct (decide (P x)), (decide (Q x)); tauto || done.
Qed.

Lemma arr_truthy_slice (a : JsArray) : arr_truthy (arr_slice a) = arr_truthy a.
Proof.
  unfold arr_truthy. cbn [arr_length arr_slice]. f_equal.
  apply filter_ext_in. intros i Hi%elem_of_seqZ0.
  rewrite arr_slice_get. by destruct (decide _).
Qed.

(** X16: [fillAll(val)] writes [val || ''] into every element of the
    array of cells and nothing else: the dimensions and the length stay,
    every cell whose index lies in the array reads [val || ''], any other
    key reads as before, and the count of filled cells becomes the
    length of the array, or 0 when the value is empty (as after
    [clear()]). *)
Theorem fillAll_fills_every_element (gd : Editor.Grid) (val : option string) :
  Editor.rows (Editor.fillAll gd val) = Editor.rows gd /\
  Editor.cols (Editor.fillAll gd val) = Editor.cols gd /\
  Editor.arr_length (Editor.cells (Editor.fillAll gd val))
  = Editor.arr_length (Editor.cells gd) /\
  (forall r c : Z,
     Editor.get (Editor.fillAll gd val) r c
     = if decide (0 <= Editor.index gd r c < Editor.arr_length (Editor.cells gd))
       then Some (Editor.orEmpty val) else Editor.get gd r c) /\
  Editor.filled (Editor.fillAll gd val)
  = (if decide (Editor.orEmpty val = EmptyString) then 0%nat
     else Z.to_nat (Editor.arr_length (Editor.cells gd))) /\
  Editor.filled (Editor.clear gd) = 0%nat.
Proof.
  destruct (arr_fill_spec (cells gd) (orEmpty val)) as [Hlen Hget].
  split; [done |]. split; [done |]. split; [done |]. split; [| split].
  - intros r c. unfold get, fillAll, index. simpl. apply Hget.
  - apply arr_truthy_fill.
  - unfold clear, filled, fillAll. simpl. by rewrite arr_truthy_fill.
Qed.

(** X17: a snapshot taken by [toJSON] and loaded by [loadJSON] gives the
    grid back: the dimensions, the length of the array, every element
    and the count of filled cells are those of the grid the snapshot
    was taken of, whatever grid it is loaded into; only properties of
    the array that are not elements are lost, so a grid without such
    properties comes back identical. *)
Theorem snapshot_round_trip (gd g0 : Editor.Grid) :
  Editor.rows (Editor.loadJSON gd (Editor.toJSON g0)) = Editor.rows g0 /\
  Editor.cols (Editor.loadJSON gd (Editor.toJSON g0)) = Editor.cols g0 /\
  Editor.arr_length (Editor.cells (Editor.loadJSON gd (Editor.toJSON g0)))
  = Editor.arr_length (Editor.cells g0) /\
  (forall r c : Z,
     Editor.get (Editor.loadJSON gd (Editor.toJSON g0)) r c
     = if decide (0 <= Editor.index g0 r c < Editor.arr_length (Editor.cells g0))
       then Editor.get g0 r c else None) /\
  Editor.filled (Editor.loadJSON gd (Editor.toJSON g0)) = Editor.filled g0 /\
  Editor.plain (Editor.cells (Editor.loadJSON gd (Editor.toJSON g0))) /\
  (Editor.plain (Editor.cells g0) -> Editor.loadJSON gd (Editor.toJSON g0) = g0).
Proof.
  split; [done |]. split; [done |]. split; [done |]. split; [| split; [| split]].
  - intros r c. unfold get, loadJSON, toJSON, index. simpl.
    rewrite !arr_slice_get. simpl. by destruct (decide _).
  - unfold filled, loadJSON, toJSON. simpl. by rewrite !arr_truthy_slice.
  - apply arr_slice_plain.
  - apply loadJSON_toJSON.
Qed.

Lemma index_inj_in_row (gd : Grid) (r c r' c' : Z) :
  0 <= c < cols gd -> 0 <= c' < cols gd ->
  index gd r c = index gd r' c' -> r = r' /\ c = c'.
Proof.
  unfold index. intros Hc Hc' Heq.
  assert (r = r') as ->.
  { destruct (Z.lt_trichotomy r r') as [Hlt | [-> | Hgt]]; [| done |].
    - assert (cols gd <= (r' - r) * cols gd) by nia. lia.
    - assert (cols gd <= (r - r') * cols gd) by nia. lia. }
  split; [done | lia].
Qed.

(** X18: [set(r,c,val)] writes [val || ''] where [get(r,c)] reads it,
    and, among the cells whose column lies within the grid, changes no
    other cell; the dimensions stay.  (With a column outside [0, cols)
    the same index is the one of a cell of another row.) *)
Theorem set_writes_one_cell (gd : Editor.Grid) (r c r' c' : Z) (val : option string) :
  0 <= c < Editor.cols gd ->
  0 <= c' < Editor.cols gd ->
  Editor.rows (Editor.set gd r c val) = Editor.rows gd /\
  Editor.cols (Editor.set gd r c val) = Editor.cols gd /\
  Editor.get (Editor.set gd r c val) r c = Some (Editor.orEmpty val) /\
  Editor.get (Editor.set gd r c val) r' c'
  = if decide (r = r' /\ c = c') then Some (Editor.orEmpty val) else Editor.get gd r' c'.
Proof.
  intros Hc Hc'. split; [done |]. split; [done |].
  unfold get, set, index. simpl. rewrite !arr_set_get. split.
  - by destruct (decide _).
  - destruct (decide (r * cols gd + c = r' * cols gd + c')) as [Heq | Hne].
    + apply (index_inj_in_row gd) in Heq as [-> ->]; [| done | done].
      destruct (decide _) as [_ | Hn]; [done | tauto].
    + destruct (decide (r = r' /\ c = c')) as [[-> ->] | _]; [done | done].
Qed.

Lemma set_writes_one_cell_witness :
  Editor.rows (Editor.set Editor.sheet 0 0 (Some Tile.house)) = Editor.rows Editor.sheet /\
  Editor.cols (Editor.set Editor.sheet 0 0 (Some Tile.house)) = Editor.cols Editor.sheet /\
  Editor.get (Editor.set Editor.sheet 0 0 (Some Tile.house)) 0 0
  = Some (Editor.orEmpty (Some Tile.house)) /\
  Editor.get (Editor.set Editor.sheet 0 0 (Some Tile.house)) 0 1
  = if decide (0 = 0 /\ 0 = 1) then Some (Editor.orEmpty (Some Tile.house))
    else Editor.get Editor.sheet 0 1.
Proof.
  apply (set_writes_one_cell Editor.sheet 0 0 0 1 (Some Tile.house)).
  - simpl; lia.
  - simpl; lia.
Defined.
End EditorGrid.

(** ** What is not in the log, and what the log replays differently *)








(** ** The length of a computed path *)

Lemma reconstruct_grows (a : AStar) (came : list Z) (fuel : nat) :
  forall (cur : Z) (path : list ref) (h : Heap) (path' : list ref) (h' : Heap),
    reconstruct a came fuel cur path h = Some (path', h') ->
    (length path <= length path')%nat /\
    (cur <> -1 -> (S (length path) <= length path')%nat).
Proof.
  induction fuel as [| fuel IH]; intros cur path h path' h' Hrec; [done |].
  rewrite reconstruct_S in Hrec.
  destruct (Z.eqb_spec cur (-1)) as [-> | Hne].
  - injection Hrec as <- <-. split; [done | done].
  - destruct (lookupZ came cur) as [nxt |]; [| done].
    apply IH in Hrec as [Hle _]. simpl in Hle. split; [lia | intros _; lia].
Qed.

(** X22: a path the main-thread search computes (the query missed the
    cache) for a goal whose flat index is not -1 has at least two cells:
    the test [path.length > 1] of [simTick] never fails on it. *)
Theorem findPath_computed_path_has_two_cells (a a' : AStar) (h h' : Heap)
    (start goal : Cell) (mask : Mask) (fuel : nat) (p : aref) :
  idx a goal <> -1 ->
  cache a !! cacheKey a start goal = None ->
  findPath a h start goal mask fuel = Some (Return (Some p), a', h') ->
  exists refs : list ref, arrs h' !! p = Some refs /\ (2 <= length refs)%nat.
Proof.
  intros Hg Hmiss Hf.
  destruct (Z.ltb_spec (rows (grid a) * cols (grid a)) 0) as [Hneg | Hsize].
  { unfold findPath in Hf. rewrite Hmiss in Hf.
    destruct (Z.ltb_spec (rows (grid a) * cols (grid a)) 0); [done | lia]. }
  rewrite findPath_miss in Hf by done.
  destruct (searchLoop _ _ _ _ _ _) as [[e st] |]; [| done].
  destruct (decide _) as [| Hne]; [done |].
  destruct (reconstruct _ _ _ _ _ _) as [[refs h1] |] eqn:Hrec; [| done].
  destruct (cacheAndReturn_spec a (cacheKey a start goal) refs h1)
    as (a1 & h2 & Heq & _ & _ & _ & Hp & _).
  rewrite Heq in Hf. injection Hf as <- <- <-.
  exists refs. split; [done |].
  destruct fuel as [| fuel]; [done |]. rewrite reconstruct_S in Hrec.
  destruct (Z.eqb_spec (idx a goal) (-1)); [done |].
  destruct (lookupZ (cameFrom st) (idx a goal)) as [nxt |] eqn:Hnxt; [| done].
  assert (nxt <> -1) as Hnxt1 by congruence.
  apply reconstruct_grows in Hrec as [_ Hlen]. specialize (Hlen Hnxt1).
  simpl in Hlen. lia.
Qed.

Lemma findPath_computed_path_has_two_cells_witness :
  exists refs : list ref, arrs lane_heap !! 0%nat = Some refs /\ (2 <= length refs)%nat.
Proof.
  apply (findPath_computed_path_has_two_cells lane lane_engine emptyHeap lane_heap
           (mkCell 0 0) (mkCell 0 2) MaskNone 10 0%nat).
  - unfold idx; simpl; lia.
  - reflexivity.
  - vm_compute. reflexivity.
Defined.

(** With a goal of flat index -1 the result can be the empty array: on
    the 1x2 grid, from (0,0) to (0,-1), the frontier empties,
    [cameFrom[-1]] is [undefined], and the path rebuilt from -1 has no
    cell; it is returned, and cached. *)
Example goal_index_minus_one_gives_empty_path :
  match findPath (newAStar (newGrid 1 2)) emptyHeap (mkCell 0 0) (mkCell 0 (-1))
          MaskNone 10 with
  | Some (Return (Some p), a', h') =>
      (read_path h' p, cache a' !! "0,0|0,-1|1x2"%string ≫= read_path h')
  | _ => (None, None)
  end
  = (Some [], Some []).
Proof. vm_compute. reflexivity. Qed.

(** ** The zoom factor *)

Lemma compare_ltb (x y : float) :
  PrimFloat.ltb x y = match PrimFloat.compare x y with FLt => true | _ => false end.
Proof.
  rewrite FloatAxioms.ltb_spec, FloatAxioms.compare_spec. unfold SFltb.
  by destruct (SFcompare _ _) as [[] |].
Qed.

Lemma compare_leb (x y : float) :
  PrimFloat.leb x y
  = match PrimFloat.compare x y with FLt | FEq => true | _ => false end.
Proof.
  rewrite FloatAxioms.leb_spec, FloatAxioms.compare_spec. unfold SFleb.
  by destruct (SFcompare _ _) as [[] |].
Qed.

Lemma SFcompare_refl (s : spec_float) :
  s <> S754_nan -> SFcompare s s = Some Eq.
Proof.
  destruct s as [b | b | | b m e]; intros Hs; simpl; try done.
  - by destruct b.
  - rewrite Z.compare_refl.
    assert (PosDef.Pos.compare_cont Eq m m = Eq) as -> by apply Pos.compare_refl.
    by destruct b.
Qed.

Lemma is_nan_spec (x : float) : PrimFloat.is_nan x = true <-> Prim2SF x = S754_nan.
Proof.
  unfold PrimFloat.is_nan. rewrite FloatAxioms.eqb_spec. unfold SFeqb. split.
  - intros Hn. destruct (Prim2SF x) as [b | b | | b m e] eqn:Hx; [| | done |];
      by rewrite SFcompare_refl in Hn.
  - intros ->. done.
Qed.

Lemma compare_not_comparable (x y : float) :
  PrimFloat.compare x y = FNotComparable <->
  PrimFloat.is_nan x = true \/ PrimFloat.is_nan y = true.
Proof.
  rewrite FloatAxioms.compare_spec, !is_nan_spec. split.
  - destruct (Prim2SF x) as [? | ? | | ? ? ?], (Prim2SF y) as [? | ? | | ? ? ?];
      simpl; intros Hc; try (by left); try (by right);
      repeat case_match; done.
  - intros [-> | ->]; [done |]. by destruct (Prim2SF x).
Qed.

(** X23: the zoom factor stays in range.  [UI.setZoom(val)] stores
    [clamp(val, 0.45, 3)]: for a value that is a number the stored zoom
    is a number, at least 0.45 and not above 3, and it is [val] itself
    when [val] lies strictly above 0.45 and not above 3; [NaN] is
    stored as [NaN]. *)
Theorem setZoom_keeps_zoom_in_range (val : float) :
  PrimFloat.is_nan val = false ->
  PrimFloat.is_nan (setZoom val) = false /\
  PrimFloat.leb 0.45 (setZoom val) = true /\
  PrimFloat.ltb 3 (setZoom val) = false /\
  (PrimFloat.ltb 0.45 val = true -> PrimFloat.ltb 3 val = false -> setZoom val = val) /\
  setZoom nan = nan.
Proof.
  intros Hval.
  assert (PrimFloat.compare 3 val <> FNotComparable) as H3.
  { rewrite compare_not_comparable. intros [H | H]; [done | congruence]. }
  assert (PrimFloat.compare 0.45 val <> FNotComparable) as H045.
  { rewrite compare_not_comparable. intros [H | H]; [done | congruence]. }
  pose proof (compare_ltb 3 val) as Hlt3.
  pose proof (compare_leb 0.45 val) as Hle045.
  pose proof (compare_ltb 0.45 val) as Hlt045.
  unfold setZoom, clamp, Math_min.
  destruct (PrimFloat.compare 3 val) eqn:Hc3; [| | | done].
  - (* 3 = val *)
    change (PrimFloat.get_sign 3) with false. cbv iota.
    unfold Math_max.
    destruct (PrimFloat.compare 0.45 val) eqn:Hc045; [| | | done];
      change (PrimFloat.get_sign 0.45) with false; cbv iota; repeat split;
      try done; try congruence.
  - (* 3 < val *)
    change (Math_max 0.45 3) with 3%float. repeat split; try done.
    intros _ H. congruence.
  - (* 3 > val *)
    unfold Math_max.
    destruct (PrimFloat.compare 0.45 val) eqn:Hc045; [| | | done];
      change (PrimFloat.get_sign 0.45) with false; cbv iota; repeat split;
      try done; try congruence.
Qed.

Lemma setZoom_keeps_zoom_in_range_witness :
  PrimFloat.is_nan (setZoom 1) = false /\
  PrimFloat.leb 0.45 (setZoom 1) = true /\
  PrimFloat.ltb 3 (setZoom 1) = false /\
  (PrimFloat.ltb 0.45 1 = true -> PrimFloat.ltb 3 1 = false -> setZoom 1 = 1%float) /\
  setZoom nan = nan.
Proof.
  apply (setZoom_keeps_zoom_in_range 1). reflexivity.
Defined.

(** ** The search loop of the worker always ends *)

(** X24: whatever the message, the [while(heap.length)] loop of the
    worker ends within rows*cols+1 turns: every turn takes one entry
    from the heap, and a cell enters the heap only when its flag in
    [open] is still 0, which is then set for good.  When the loop ends
    without having met the goal, the heap is empty. *)
Theorem worker_search_loop_terminates (m : Worker.Msg) (goalIdx : Z) (fuel : nat) :
  (Z.to_nat (Worker.m_rows m * Worker.m_cols m) + 2 <= fuel)%nat ->
  exists (e : Exit) (st : Worker.State),
    Worker.searchLoop m goalIdx fuel (Worker.initState m) = Some (e, st) /\
    length (Worker.came st) = Z.to_nat (Worker.m_rows m * Worker.m_cols m) /\
    (e = FrontierEmpty -> Worker.heap st = []).
Proof.
  intros Hfuel.
  destruct (workerMeasure_init m) as [Hlen Hmeasure].
  destruct (worker_searchLoop_terminates m goalIdx fuel (Worker.initState m) Hlen)
    as (e & st & Hloop); [lia |].
  exists e, st. split; [done |].
  pose proof Hloop as Hinv.
  apply worker_searchLoop_inv with (startIdx :=
    Worker.idx (Worker.m_cols m) (cell_r (Worker.m_start m)) (cell_c (Worker.m_start m)))
    in Hinv as [Hlen' _ _]; [| by apply worker_initState_inv].
  split; [done |]. intros ->.
  clear Hlen Hmeasure Hfuel Hlen'. revert Hloop.
  generalize (Worker.initState m). induction fuel as [| fuel IH]; intros st0; [done |].
  rewrite worker_searchLoop_S.
  destruct (Worker.heap st0) as [| k0 hp] eqn:Hheap.
  { intros [= <-]. done. }
  destruct (Worker.heapPop _ _) as [current hp']. cbv zeta.
  destruct (current =? goalIdx); [done |]. apply IH.
Qed.

Lemma worker_search_loop_terminates_witness :
  exists (e : Exit) (st : Worker.State),
    Worker.searchLoop walled_msg 2 5 (Worker.initState walled_msg) = Some (e, st) /\
    length (Worker.came st)
    = Z.to_nat (Worker.m_rows walled_msg * Worker.m_cols walled_msg) /\
    (e = FrontierEmpty -> Worker.heap st = []).
Proof.
  apply (worker_search_loop_terminates walled_msg 2 5). simpl. lia.
Defined.
